(** * Zero OS: the desktop shell's window manager, icon reorder and app registry

    A shallow embedding of the React front end (the shell component [App],
    the [AppWindow] component and the [DesktopIcons] drop handler) and of
    the Motoko actor that stores apps and settings per caller.

    Conventions.
    - A JavaScript [number] is a double.  The counters, indices and
      millisecond clocks of the shell ([topZ], [Date.now()], timer
      delays) are integers that stay far below 2^53, where the arithmetic
      of doubles is exact: they are modelled by [Z].  Pixel coordinates
      are not integers (a window is placed at [80 + Math.random() * 200]),
      so a coordinate is modelled by the double itself, written as the
      integer number of units of 2^-1074 that it holds, and the rounding
      of each [+] and [-] is written out (module [Double]).  A [bigint] is
      modelled by [Z], and [Number(bigint)] rounds it to a double; Motoko
      [Nat] is modelled by [N].
    - A React state cell is a record field; an event handler is a pure
      function from the state before the event to the state after it
      (React applies the queued updaters of one event before the next
      event is dispatched).
    - [Date.now] is an argument of [Shell.launchApp] and the clock of the
      rendered desktop; [Math.random], the viewport size and the pointer
      coordinates are inputs of the events. *)

From Stdlib Require Import ZArith Lia.
From stdpp Require Import gmap strings list fin_maps pretty sorting.

Local Open Scope Z_scope.

(** ** JavaScript numbers (IEEE 754 doubles) *)

Module Double.

(** Rounding to the nearest double, ties to even.  A double keeps 53
    significant bits, so an integer of at most 53 bits is kept and a
    longer one is rounded to a multiple of [2 ^ e], [e] being the number
    of bits it has beyond 53: [q] is its leading 53 bits and [r] the bits
    that are dropped.  The integer is the value itself where the value is
    an integer ([Number(bigint)]), and the value counted in units of
    2^-1074 where it is a coordinate (see [int]). *)
Definition round53 (z : Z) : Z :=
  let n := Z.abs z in
  let e := Z.log2 n - 52 in
  if decide (e ≤ 0) then z
  else
    let q := Z.shiftr n e in
    let r := Z.land n (Z.ones e) in
    let half := Z.shiftl 1 (e - 1) in
    let q' := if decide (r < half) then q
              else if decide (half < r) then q + 1
              else if Z.even q then q else q + 1 in
    Z.sgn z * Z.shiftl q' e.

(** Every finite double is an integer multiple of 2^-1074, the smallest
    positive double.  A coordinate is modelled by that integer: [int n]
    is the double of the integer [n] (and [0] the double zero; 80.5 is
    [161 * 2 ^ 1073]), and [add] and [sub] are the [+] and [-] of
    doubles, exact result first, rounding second.  The coordinates that
    reach the window code are finite: pointer positions,
    [Math.random() * 200], and the viewport's size, an integer below
    2^31.  So a window's position stays below 2^31, and a difference
    beyond the largest double, which JavaScript turns into an infinity,
    can only be that of two pointer positions near 2^1024 and its
    opposite; it only ever enters [Math.min] or [Math.max] against a
    finite bound, where the infinity and the value written here give the
    same result. *)
Definition int (n : Z) : Z := n * 2 ^ 1074.

Definition add (x y : Z) : Z := round53 (x + y).

Definition sub (x y : Z) : Z := round53 (x - y).

(** [Number(n)] for a [bigint] [n]: the value of the nearest double, with
    [2 ^ 1024] and its opposite standing for the two infinities (an
    integer of 2^1024 - 2^970 or more is rounded to [Infinity]). *)
Definition Number (n : Z) : Z :=
  Z.max (- 2 ^ 1024) (Z.min (round53 n) (2 ^ 1024)).

#[global] Arguments round53 : simpl never.
#[global] Arguments int : simpl never.
#[global] Arguments add : simpl never.
#[global] Arguments sub : simpl never.
#[global] Arguments Number : simpl never.

End Double.

(** ** Records shared by the front end (backend.d.ts) *)

Module App.

Record t := mk {
  id : string;
  name : string;
  url : string;
  emoji : string;
  color : string;
  order : Z;
}.

(** [{ ...a, order: o }] *)
Definition with_order (a : t) (o : Z) : t :=
  mk (id a) (name a) (url a) (emoji a) (color a) o.

#[global] Instance eq_dec : EqDecision t.
Proof. solve_decision. Defined.

End App.

Module Settings.

Record t := mk {
  backgroundEffect : string;
  wallpaper : string;
  accentColor : string;
  showClock : bool;
  openInIframe : bool;
  taskbarPosition : string;
}.

(** [DEFAULT_SETTINGS] *)
Definition DEFAULT_SETTINGS : t :=
  mk "grid" "#050510" "#00f5ff" true true "bottom".

End Settings.

(** ** The shell component ([App] in the source) *)

Module OpenWindow.

Record t := mk {
  id : string;
  app : App.t;
  zIndex : Z;
}.

(** [{ ...w, zIndex: z }] *)
Definition with_zIndex (w : t) (z : Z) : t := mk (id w) (app w) z.

#[global] Instance eq_dec : EqDecision t.
Proof. solve_decision. Defined.

End OpenWindow.

Module Shell.

(** The state cells of the shell that the window manager and the app
    list use.  [storedApps] is the list that [saveApps] was given last,
    to be written under the local-storage key ["zero-os-apps"];
    [externalTabs] logs the URLs handed to [window.open].  Toast
    notifications are not modelled here. *)
Record state := mk {
  apps : list App.t;
  localSettings : Settings.t;
  openWindows : list OpenWindow.t;
  topZ : Z;
  storedApps : list App.t;
  externalTabs : list string;
}.

Definition set_windows (ws : list OpenWindow.t) (z : Z) (s : state) : state :=
  mk (apps s) (localSettings s) ws z (storedApps s) (externalTabs s).

Definition set_apps (l : list App.t) (s : state) : state :=
  mk l (localSettings s) (openWindows s) (topZ s) l (externalTabs s).

(** [useState<OpenWindow[]>([])], [useState(100)] *)
Definition init (loaded : list App.t) (settings : Settings.t) : state :=
  mk loaded settings [] 100 loaded [].

(** [w.app.id === app.id] *)
Definition shows (a : App.t) (w : OpenWindow.t) : bool :=
  bool_decide (App.id (OpenWindow.app w) = App.id a).

(** [prev.map((w) => w.app.id === app.id ? { ...w, zIndex: newZ } : w)] *)
Definition raise_app (a : App.t) (newZ : Z) (w : OpenWindow.t) : OpenWindow.t :=
  if shows a w then OpenWindow.with_zIndex w newZ else w.

(** [prev.map((w) => w.id === windowId ? { ...w, zIndex: newZ } : w)] *)
Definition raise_window (windowId : string) (newZ : Z) (w : OpenWindow.t)
  : OpenWindow.t :=
  if bool_decide (OpenWindow.id w = windowId)
  then OpenWindow.with_zIndex w newZ else w.

(** [launchApp]; [now] is the value of [Date.now()]. *)
Definition launchApp (now : Z) (a : App.t) (s : state) : state :=
  if Settings.openInIframe (localSettings s) then
    let prev := openWindows s in
    match List.find (shows a) prev with
    | Some _ =>
        let newZ := topZ s + 1 in
        set_windows (raise_app a newZ <$> prev) newZ s
    | None =>
        let newZ := topZ s + 1 in
        set_windows
          (prev ++ [OpenWindow.mk (App.id a +:+ pretty now) a newZ]) newZ s
    end
  else
    mk (apps s) (localSettings s) (openWindows s) (topZ s) (storedApps s)
       (externalTabs s ++ [App.url a]).

(** [closeWindow] *)
Definition closeWindow (windowId : string) (s : state) : state :=
  set_windows (filter (λ w, OpenWindow.id w ≠ windowId) (openWindows s))
              (topZ s) s.

(** [focusWindow] *)
Definition focusWindow (windowId : string) (s : state) : state :=
  let newZ := topZ s + 1 in
  set_windows (raise_window windowId newZ <$> openWindows s) newZ s.

(** [handleDeleteApp]: the app list is filtered and saved. *)
Definition handleDeleteApp (appId : string) (s : state) : state :=
  set_apps (filter (λ a, App.id a ≠ appId) (apps s)) s.

(** [handleReorder] *)
Definition handleReorder (reordered : list App.t) (s : state) : state :=
  set_apps reordered s.

(** [handleSettingsChange] *)
Definition handleSettingsChange (newSettings : Settings.t) (s : state) : state :=
  mk (apps s) newSettings (openWindows s) (topZ s) (storedApps s)
     (externalTabs s).

(** The intents the shell receives, and a sequence of them run in order. *)
Inductive Op :=
| Launch (now : Z) (a : App.t)
| Focus (windowId : string)
| Close (windowId : string)
| Delete (appId : string)
| Reorder (reordered : list App.t)
| SettingsChange (newSettings : Settings.t).

Definition apply (o : Op) (s : state) : state :=
  match o with
  | Launch now a => launchApp now a s
  | Focus windowId => focusWindow windowId s
  | Close windowId => closeWindow windowId s
  | Delete appId => handleDeleteApp appId s
  | Reorder reordered => handleReorder reordered s
  | SettingsChange newSettings => handleSettingsChange newSettings s
  end.

Definition exec (ops : list Op) (s : state) : state :=
  foldl (λ s o, apply o s) s ops.

(** The ids of the apps shown by the open windows, and the window ids. *)
Definition appIds (s : state) : list string :=
  (λ w, App.id (OpenWindow.app w)) <$> openWindows s.

Definition windowIds (s : state) : list string :=
  OpenWindow.id <$> openWindows s.

(** The invariant of the window manager: no window is above the counter,
    and no two windows show the same app. *)
Definition wm_inv (s : state) : Prop :=
  Forall (λ w, OpenWindow.zIndex w ≤ topZ s) (openWindows s)
  ∧ NoDup (appIds s).

(** A window id is the id of its app followed by the time stamp of the
    launch.  [stamped n w]: the app id of [w] has [n] characters and starts
    the window id; [launchesOfLength n o]: if [o] is a launch, the id of
    its app has [n] characters (the ids made by [crypto.randomUUID] all
    have 36). *)
Definition stamped (n : nat) (w : OpenWindow.t) : Prop :=
  String.length (App.id (OpenWindow.app w)) = n
  ∧ ∃ suffix, OpenWindow.id w = App.id (OpenWindow.app w) +:+ suffix.

Definition launchesOfLength (n : nat) (o : Op) : Prop :=
  match o with
  | Launch _ a => String.length (App.id a) = n
  | _ => True
  end.

(** Every window id starts with the id of the window's app. *)
Definition prefixed (w : OpenWindow.t) : Prop :=
  ∃ suffix, OpenWindow.id w = App.id (OpenWindow.app w) +:+ suffix.

End Shell.

(** ** The window component ([AppWindow]) *)

Module Point.

Record t := mk { x : Z; y : Z }.

End Point.

Module Size.

Record t := mk { w : Z; h : Z }.

End Size.

Module AppWindow.

(** [type WindowPhase = "open" | "minimizing" | "minimized" | "restoring"] *)
Inductive WindowPhase := open | minimizing | minimized | restoring.

#[global] Instance WindowPhase_eq_dec : EqDecision WindowPhase.
Proof. solve_decision. Defined.

(** The state cells and refs of one mounted window. *)
Record state := mk {
  pos : Point.t;
  size : Size.t;
  phase : WindowPhase;
  isDragging : bool;
  dragOffset : Point.t;
}.

(** First render.  [rx] and [ry] are the doubles [Math.random() * 200]
    and [Math.random() * 100]. *)
Definition mount (initialPosition : option Point.t) (rx ry : Z) : state :=
  mk (default (Point.mk (Double.add (Double.int 80) rx)
                        (Double.add (Double.int 60) ry)) initialPosition)
     (Size.mk (Double.int 900) (Double.int 580)) open false
     (Point.mk 0 0).

Definition setPos (p : Point.t) (s : state) : state :=
  mk p (size s) (phase s) (isDragging s) (dragOffset s).

Definition setPhase (ph : WindowPhase) (s : state) : state :=
  mk (pos s) (size s) ph (isDragging s) (dragOffset s).

(** [handleMouseDown], without its call of [onFocus] (the shell's part). *)
Definition handleMouseDown (clientX clientY : Z) (s : state) : state :=
  mk (pos s) (size s) (phase s) true
     (Point.mk (Double.sub clientX (Point.x (pos s)))
               (Double.sub clientY (Point.y (pos s)))).

(** [handleMouseMove]: the global [mousemove] listener.  [Math.max] and
    [Math.min] of two numbers are the larger and the smaller one. *)
Definition handleMouseMove (clientX clientY innerWidth innerHeight : Z)
    (s : state) : state :=
  if isDragging s then
    let newX := Z.max 0
                  (Z.min (Double.sub clientX (Point.x (dragOffset s)))
                         (Double.sub innerWidth (Size.w (size s)))) in
    let newY := Z.max 0
                  (Z.min (Double.sub clientY (Point.y (dragOffset s)))
                         (Double.sub innerHeight (Size.h (size s)))) in
    setPos (Point.mk newX newY) s
  else s.

(** [handleMouseUp] *)
Definition handleMouseUp (s : state) : state :=
  mk (pos s) (size s) (phase s) false (dragOffset s).

(** [handleMinimize] and [handleRestore]: the new state and the deferred
    call [setTimeout(() => setPhase(ph), delay)] as a pair [(delay, ph)]. *)
Definition handleMinimize (s : state) : state * (Z * WindowPhase) :=
  (setPhase minimizing s, (260, minimized)).

Definition handleRestore (s : state) : state * (Z * WindowPhase) :=
  (setPhase restoring s, (320, open)).

(** What is rendered: in phase [minimized] only the restore button, in
    every other phase the dialog with its title bar and its minimize and
    close buttons. *)
Definition rendersDialog (s : state) : bool :=
  negb (bool_decide (phase s = minimized)).

End AppWindow.

(** ** The icon grid's drop handler ([DesktopIcons]) *)

Module DesktopIcons.

Record state := mk {
  draggedId : option string;
  dragOverId : option string;
  dragStartIndex : Z;
}.

Definition init : state := mk None None (-1).

(** [[...apps].sort((a, b) => Number(a.order) - Number(b.order))]: a stable
    sort by [Number(order)].  The comparator's result is negative, zero or
    positive as [Number(a.order)] is below, equal to or above
    [Number(b.order)] (a difference of two distinct doubles is never
    rounded to zero, and [Infinity - Infinity], which is [NaN], counts as
    zero); [sort] is stable. *)
Fixpoint insert_by_order (a : App.t) (l : list App.t) : list App.t :=
  match l with
  | [] => [a]
  | b :: l' =>
      if decide (Double.Number (App.order a) ≤ Double.Number (App.order b))
      then a :: l
      else b :: insert_by_order a l'
  end.

Definition sortedApps (apps : list App.t) : list App.t :=
  foldr insert_by_order [] apps.

(** The start index of [Array.prototype.splice]: a negative index counts
    from the end, and the result is clamped to [0, len]. *)
Definition spliceStart (len : nat) (start : Z) : nat :=
  if decide (start < 0) then Z.to_nat (Z.max (Z.of_nat len + start) 0)
  else Z.to_nat (Z.min start (Z.of_nat len)).

(** [const [removed] = l.splice(start, 1)]: the removed element
    ([undefined] when nothing is left to remove) and the array after it. *)
Definition splice_out {A} (start : Z) (l : list A) : option A * list A :=
  let i := spliceStart (length l) start in
  (l !! i, take i l ++ drop (S i) l).

(** [l.splice(start, 0, item)] *)
Definition splice_in {A} (start : Z) (item : A) (l : list A) : list A :=
  let i := spliceStart (length l) start in
  take i l ++ item :: drop i l.

(** [{ ...a, order: BigInt(i) }].  Spreading [undefined] gives an object
    with the [order] field only; its missing fields are written as empty
    strings. *)
Definition spread_order (i : nat) (a : option App.t) : App.t :=
  App.with_order (default (App.mk "" "" "" "" "" 0) a) (Z.of_nat i).

(** [!draggedId]: [null] and the empty string are falsy. *)
Definition falsy (d : option string) : bool :=
  match d with
  | None => true
  | Some s => bool_decide (s = ""%string)
  end.

(** [handleDragStart] *)
Definition handleDragStart (a : App.t) (index : Z) (s : state) : state :=
  mk (Some (App.id a)) (dragOverId s) index.

(** The list that [handleDrop] hands to [onReorder]. *)
Definition reordered (apps : list App.t) (sourceIdx targetIndex : Z)
  : list App.t :=
  let newApps := sortedApps apps in
  let '(removed, newApps) := splice_out sourceIdx newApps in
  let newApps := splice_in targetIndex removed (Some <$> newApps) in
  imap spread_order newApps.

(** [handleDrop]: the component state after the drop and the argument of
    [onReorder], if it is called. *)
Definition handleDrop (apps : list App.t) (targetApp : App.t)
    (targetIndex : Z) (s : state) : state * option (list App.t) :=
  let cleared := mk None None (dragStartIndex s) in
  if falsy (draggedId s)
     || bool_decide (draggedId s = Some (App.id targetApp))
  then (cleared, None)
  else (cleared, Some (reordered apps (dragStartIndex s) targetIndex)).

(** The icon at index [i] of the grid is dragged and dropped on the icon
    at index [j].  The grid shows [sortedApps.map((app, index) => ...)],
    and the icon of [app] at [index] has
    [onDragStart = handleDragStart(e, app, index)] and
    [onDrop = handleDrop(e, app, index)].  Without an icon at [i] or at
    [j] neither handler runs. *)
Definition dragOnto (apps : list App.t) (i j : nat) (s : state)
  : state * option (list App.t) :=
  match sortedApps apps !! i, sortedApps apps !! j with
  | Some a, Some b =>
      handleDrop apps b (Z.of_nat j) (handleDragStart a (Z.of_nat i) s)
  | _, _ => (s, None)
  end.

End DesktopIcons.

(** ** The rendered desktop: the shell, its mounted windows and the timers *)

Module Desktop.

(** A mounted [AppWindow]: React keeps one instance per key [w.id] for as
    long as the key stays in [openWindows]; [inst] tells apart two
    instances that were mounted under the same key at different times. *)
Record View := mkView {
  inst : nat;
  win : AppWindow.state;
}.

(** A pending [setTimeout(() => setPhase(setTo), delay)] of the instance
    [target] mounted under [key], to run at time [due]. *)
Record Timer := mkTimer {
  due : Z;
  key : string;
  target : nat;
  setTo : AppWindow.WindowPhase;
}.

Record state := mk {
  shell : Shell.state;
  mounted : gmap string View;
  timers : list Timer;
  clock : Z;
  nextInst : nat;
  innerWidth : Z;
  innerHeight : Z;
}.

Definition init (loaded : list App.t) (settings : Settings.t)
    (width height : Z) : state :=
  mk (Shell.init loaded settings) ∅ [] 0 0 width height.

Definition set_shell (s : Shell.state) (d : state) : state :=
  mk s (mounted d) (timers d) (clock d) (nextInst d)
     (innerWidth d) (innerHeight d).

Definition set_mounted (m : gmap string View) (d : state) : state :=
  mk (shell d) m (timers d) (clock d) (nextInst d)
     (innerWidth d) (innerHeight d).

(** [openWindows.map((w) => <AppWindow key={w.id} ... />)]: a key that is
    already mounted keeps its instance, a new key mounts [fresh] (if the
    event can mount one), and a key that left the list is unmounted. *)
Definition reconcile (ws : list OpenWindow.t) (fresh : option View)
    (m : gmap string View) : gmap string View :=
  list_to_map
    (omap (λ w, pair (OpenWindow.id w) <$>
                  match m !! OpenWindow.id w with
                  | Some v => Some v
                  | None => fresh
                  end) ws).

Definition render (fresh : option View) (d : state) : state :=
  mk (shell d) (reconcile (Shell.openWindows (shell d)) fresh (mounted d))
     (timers d) (clock d)
     (match fresh with Some _ => S (nextInst d) | None => nextInst d end)
     (innerWidth d) (innerHeight d).

(** The timer queue: ordered by due time, equal due times in the order of
    the [setTimeout] calls. *)
Fixpoint schedule (t : Timer) (q : list Timer) : list Timer :=
  match q with
  | [] => [t]
  | u :: q' =>
      if decide (due u ≤ due t) then u :: schedule t q' else t :: q
  end.

(** A timer callback runs [setPhase] of the instance that set it; on an
    instance that is no longer mounted the call changes nothing. *)
Definition fire (t : Timer) (m : gmap string View) : gmap string View :=
  match m !! key t with
  | Some v =>
      if decide (inst v = target t)
      then <[key t := mkView (inst v) (AppWindow.setPhase (setTo t) (win v))]> m
      else m
  | None => m
  end.

Definition fire_all (ts : list Timer) (m : gmap string View)
  : gmap string View :=
  foldl (λ m t, fire t m) m ts.

Definition isDue (now : Z) (t : Timer) : Prop := due t ≤ now.

#[global] Instance isDue_dec now t : Decision (isDue now t).
Proof. unfold isDue. apply _. Defined.

(** Is the dialog of the window [k] on screen (so that its title bar and
    its minimize and close buttons can be used)? *)
Definition dialogShown (k : string) (d : state) : bool :=
  match mounted d !! k with
  | Some v => AppWindow.rendersDialog (win v)
  | None => false
  end.

(** Is the restore button of the window [k] on screen? *)
Definition restoreShown (k : string) (d : state) : bool :=
  match mounted d !! k with
  | Some v => negb (AppWindow.rendersDialog (win v))
  | None => false
  end.

(** A click on the minimize or on the restore button of [k]: the handler's
    state update and its [setTimeout]. *)
Definition click
    (handler : AppWindow.state → AppWindow.state * (Z * AppWindow.WindowPhase))
    (k : string) (d : state) : state :=
  match mounted d !! k with
  | Some v =>
      let '(s', (delay, ph)) := handler (win v) in
      mk (shell d) (<[k := mkView (inst v) s']> (mounted d))
         (schedule (mkTimer (clock d + delay) k (inst v) ph) (timers d))
         (clock d) (nextInst d) (innerWidth d) (innerHeight d)
  | None => d
  end.

Inductive Event :=
| Launch (a : App.t) (rx ry : Z)
| CloseClick (k : string)
| WindowMouseDown (k : string)
| TitleMouseDown (k : string) (clientX clientY : Z)
| MouseMove (clientX clientY : Z)
| MouseUp
| MinimizeClick (k : string)
| RestoreClick (k : string)
| Wait (ms : Z)
| Resize (width height : Z)
| DeleteApp (appId : string)
| Reorder (reordered : list App.t)
| SettingsChange (newSettings : Settings.t).

Definition step (e : Event) (d : state) : state :=
  match e with
  | Launch a rx ry =>
      (* onAppLaunch = launchApp *)
      render (Some (mkView (nextInst d) (AppWindow.mount None rx ry)))
             (set_shell (Shell.launchApp (clock d) a (shell d)) d)
  | CloseClick k =>
      (* onClose = closeWindow(w.id) *)
      if dialogShown k d
      then render None (set_shell (Shell.closeWindow k (shell d)) d)
      else d
  | WindowMouseDown k =>
      (* the dialog's onMouseDown = onFocus = focusWindow(w.id) *)
      if dialogShown k d
      then set_shell (Shell.focusWindow k (shell d)) d
      else d
  | TitleMouseDown k clientX clientY =>
      (* handleMouseDown calls onFocus, then the event bubbles to the
         dialog, whose onMouseDown calls onFocus again *)
      if dialogShown k d
      then set_shell
             (Shell.focusWindow k (Shell.focusWindow k (shell d)))
             (set_mounted
                (alter (λ v, mkView (inst v)
                               (AppWindow.handleMouseDown clientX clientY (win v)))
                       k (mounted d)) d)
      else d
  | MouseMove clientX clientY =>
      set_mounted
        ((λ v, mkView (inst v)
                 (AppWindow.handleMouseMove clientX clientY
                    (innerWidth d) (innerHeight d) (win v)))
           <$> mounted d) d
  | MouseUp =>
      set_mounted
        ((λ v, mkView (inst v) (AppWindow.handleMouseUp (win v)))
           <$> mounted d) d
  | MinimizeClick k =>
      if dialogShown k d then click AppWindow.handleMinimize k d else d
  | RestoreClick k =>
      if restoreShown k d then click AppWindow.handleRestore k d else d
  | Wait ms =>
      (* [ms] milliseconds pass: the timers that are due run, in order *)
      let now := clock d + Z.max 0 ms in
      mk (shell d)
         (fire_all (filter (isDue now) (timers d)) (mounted d))
         (filter (λ t, ¬ isDue now t) (timers d))
         now (nextInst d) (innerWidth d) (innerHeight d)
  | Resize width height =>
      mk (shell d) (mounted d) (timers d) (clock d) (nextInst d) width height
  | DeleteApp appId => set_shell (Shell.handleDeleteApp appId (shell d)) d
  | Reorder reordered => set_shell (Shell.handleReorder reordered (shell d)) d
  | SettingsChange newSettings =>
      set_shell (Shell.handleSettingsChange newSettings (shell d)) d
  end.

Definition run (evs : list Event) (d : state) : state :=
  foldl (λ d e, step e d) d evs.

(** The phase and the position of the window mounted under [k]. *)
Definition phaseOf (k : string) (d : state) : option AppWindow.WindowPhase :=
  (λ v, AppWindow.phase (win v)) <$> mounted d !! k.

Definition posOf (k : string) (d : state) : option Point.t :=
  (λ v, AppWindow.pos (win v)) <$> mounted d !! k.

(** Every mounted window belongs to an open window and conversely; with
    the shell's invariant this is the invariant of the desktop. *)
Definition keys_inv (d : state) : Prop :=
  dom (mounted d) =@{gset string} list_to_set (Shell.windowIds (shell d)).

Definition inv (d : state) : Prop := Shell.wm_inv (shell d) ∧ keys_inv d.

Definition isLaunch (e : Event) : bool :=
  match e with
  | Launch _ _ _ => true
  | _ => false
  end.

(** [t] is a deferred call of the instance [i] mounted under [k]; a queue
    is quiet for that instance when it holds no such call. *)
Definition targets (k : string) (i : nat) (t : Timer) : Prop :=
  key t = k ∧ target t = i.

Definition quiet (k : string) (i : nat) (q : list Timer) : Prop :=
  Forall (λ t, ¬ targets k i t) q.

(** No deferred call of the instance [i] mounted under [k] in the queue
    sets a phase other than [minimized]: no restore of it is pending. *)
Definition noRestorePending (k : string) (i : nat) (q : list Timer) : Prop :=
  Forall (λ t, targets k i t → setTo t = AppWindow.minimized) q.


(** The id of the window that an event opens, if it opens one: a launch,
    with [openInIframe] on, of an app that has no window gives the id
    [app.id + Date.now()].  [opened evs d] lists the ids of the windows
    opened along a run. *)
Definition opens (e : Event) (d : state) : option string :=
  match e with
  | Launch a _ _ =>
      if Settings.openInIframe (Shell.localSettings (shell d)) then
        match List.find (Shell.shows a) (Shell.openWindows (shell d)) with
        | Some _ => None
        | None => Some (App.id a +:+ pretty (clock d))
        end
      else None
  | _ => None
  end.

Fixpoint opened (evs : list Event) (d : state) : list string :=
  match evs with
  | [] => []
  | e :: evs' => option_list (opens e d) ++ opened evs' (step e d)
  end.

(** [launchesAnother a0 e]: if [e] is a launch, it is the launch of an app
    other than [a0] whose id is as long as the id of [a0] (the ids made
    by [crypto.randomUUID] all have 36 characters). *)
Definition launchesAnother (a0 : App.t) (e : Event) : Prop :=
  match e with
  | Launch a _ _ =>
      String.length (App.id a) = String.length (App.id a0)
      ∧ App.id a ≠ App.id a0
  | _ => True
  end.

(** Instances are numbered in the order of their mounts: every mounted
    instance is below the counter, and no two keys hold the same one. *)
Definition insts_inv (d : state) : Prop :=
  (∀ k v, mounted d !! k = Some v → (inst v < nextInst d)%nat)
  ∧ (∀ k1 k2 v1 v2,
       mounted d !! k1 = Some v1 → mounted d !! k2 = Some v2 →
       inst v1 = inst v2 → k1 = k2).

End Desktop.

(** ** The Motoko actor (main.mo) *)

Module Backend.

Record App := mkApp {
  id : string;
  name : string;
  url : string;
  emoji : string;
  color : string;
  order : N;
}.

Record Settings := mkSettings {
  wallpaper : string;
  accentColor : string;
  openInIframe : bool;
  showClock : bool;
  taskbarPosition : string;
  backgroundEffect : string;
}.

(** [Settings.default()] *)
Definition default_settings : Settings :=
  mkSettings "#050510" "#00f5ff" true true "bottom" "grid".

(** The result of a call: the reply and the state it commits, or a trap,
    which rolls the state back. *)
Inductive outcome (S A : Type) :=
| Reply (reply : A) (st : S)
| Trap (msg : string).

Arguments Reply {S A} reply st.
Arguments Trap {S A} msg.

Section Actor.

Context `{Countable Principal}.

Record state := mkState {
  userApps : gmap Principal (gmap string App);
  userSettings : gmap Principal Settings;
}.

Definition empty : state := mkState ∅ ∅.

(** [addApp]: [Map.add] inserts the key or replaces its value. *)
Definition addApp (caller : Principal) (app : App) (st : state)
  : outcome state unit :=
  let apps :=
    match userApps st !! caller with
    | None => ∅
    | Some existing => existing
    end in
  let apps := <[id app := app]> apps in
  Reply () (mkState (<[caller := apps]> (userApps st)) (userSettings st)).

(** [updateApp] *)
Definition updateApp (caller : Principal) (app : App) (st : state)
  : outcome state unit :=
  match userApps st !! caller with
  | None => Trap "No apps found for user"
  | Some apps =>
      if bool_decide (is_Some (apps !! id app))
      then Reply () (mkState (<[caller := <[id app := app]> apps]> (userApps st))
                             (userSettings st))
      else Trap "App not found"
  end.

(** [deleteApp] *)
Definition deleteApp (caller : Principal) (appId : string) (st : state)
  : outcome state unit :=
  match userApps st !! caller with
  | None => Trap "No apps found for user"
  | Some apps =>
      if bool_decide (is_Some (apps !! appId))
      then Reply () (mkState (<[caller := delete appId apps]> (userApps st))
                             (userSettings st))
      else Trap "App not found"
  end.

(** [getApps] *)
Definition getApps (caller : Principal) (st : state) : list App :=
  match userApps st !! caller with
  | None => []
  | Some apps => (map_to_list apps).*2
  end.

(** [getSettings] *)
Definition getSettings (caller : Principal) (st : state) : Settings :=
  match userSettings st !! caller with
  | None => default_settings
  | Some settings => settings
  end.

(** [updateSettings] *)
Definition updateSettings (caller : Principal) (newSettings : Settings)
    (st : state) : outcome state unit :=
  Reply () (mkState (userApps st) (<[caller := newSettings]> (userSettings st))).

(** The shortcuts of [caller], by id. *)
Definition registry (caller : Principal) (st : state) : gmap string App :=
  default ∅ (userApps st !! caller).

End Actor.

End Backend.

(** ** Calls to the actor, one after the other *)

Module BackendCalls.

Import Backend.

Section Calls.

Context `{Countable Principal}.

Local Abbreviation state := (Backend.state (Principal:=Principal)).

(** The update calls of the actor ([getApps] and [getSettings] are
    queries: they change nothing). *)
Inductive Call :=
| AddApp (caller : Principal) (app : App)
| UpdateApp (caller : Principal) (app : App)
| DeleteApp (caller : Principal) (appId : string)
| UpdateSettings (caller : Principal) (newSettings : Settings).

Definition callerOf (c : Call) : Principal :=
  match c with
  | AddApp caller _ | UpdateApp caller _ | DeleteApp caller _
  | UpdateSettings caller _ => caller
  end.

Definition invoke (c : Call) (st : state) : outcome state unit :=
  match c with
  | AddApp caller app => addApp caller app st
  | UpdateApp caller app => updateApp caller app st
  | DeleteApp caller appId => deleteApp caller appId st
  | UpdateSettings caller newSettings => updateSettings caller newSettings st
  end.

(** A reply commits the state of the call; a trap keeps the state of
    before the call. *)
Definition commit (r : outcome state unit) (st : state) : state :=
  match r with
  | Reply _ st' => st'
  | Trap _ => st
  end.

Definition serve (cs : list Call) (st : state) : state :=
  foldl (λ st c, commit (invoke c st) st) st cs.

(** The settings that [caller] wrote last in [cs], [init] if none. *)
Definition written (caller : Principal) (cs : list Call) (init : Settings)
  : Settings :=
  foldl (λ acc c,
           match c with
           | UpdateSettings caller' newSettings =>
               if decide (caller' = caller) then newSettings else acc
           | _ => acc
           end) init cs.

(** Every stored shortcut is stored under its own id. *)
Definition keyed (st : state) : Prop :=
  ∀ caller apps k app,
    userApps st !! caller = Some apps → apps !! k = Some app → id app = k.

End Calls.

End BackendCalls.

(** Ascending [Number(order)], the key of the sort. *)
Definition byOrder (a b : App.t) : Prop :=
  Double.Number (App.order a) ≤ Double.Number (App.order b).

(** An order below 2^53 is its own [Number]. *)
Definition exactOrder (a : App.t) : Prop := Z.abs (App.order a) < 2 ^ 53.

(** ** The taskbar's pinned apps ([Taskbar]) *)

Module Taskbar.

(** [[...apps].sort((a, b) => Number(a.order) - Number(b.order)).slice(0, 6)] *)
Definition pinnedApps (apps : list App.t) : list App.t :=
  take 6 (DesktopIcons.sortedApps apps).

End Taskbar.

(** [l.map((a, i) => ({ ...a, order: BigInt(i) }))] on a list without
    holes. *)
Definition renumber (l : list App.t) : list App.t :=
  imap (λ k a, App.with_order a (Z.of_nat k)) l.

(** ** The add/edit form ([AppModal]) *)

Module AppModal.

Record state := mk {
  name : string;
  url : string;
  emoji : string;
  color : string;
  urlError : string;
}.

(** First render: the fields of the edited app, or the defaults. *)
Definition mount (app : option App.t) : state :=
  mk (from_option App.name "" app) (from_option App.url "" app)
     (from_option App.emoji "🚀" app) (from_option App.color "#00f5ff" app) "".

Section Save.

(** [String.prototype.trim], and whether [new URL(s)] succeeds with the
    protocol ["http:"] or ["https:"]: both are the browser's. *)
Variable trim : string → string.
Variable parsesAsWeb : string → bool.

(** [val.startsWith("http") ? val : `https://${val}`] *)
Definition withScheme (val : string) : string :=
  if String.prefix "http" val then val else "https://" +:+ val.

(** [validateUrl] *)
Definition validateUrl (val : string) : bool := parsesAsWeb (withScheme val).

(** [handleSave]: the form after the click and the app handed to
    [onSave], if any.  [uuid] is the value [crypto.randomUUID()] would
    give. *)
Definition handleSave (uuid : string) (app : option App.t)
    (existingAppsCount : nat) (s : state) : state * option App.t :=
  if bool_decide (trim (name s) = ""%string) then (s, None)
  else
    let normalizedUrl := withScheme (url s) in
    if validateUrl normalizedUrl then
      (mk (name s) (url s) (emoji s) (color s) "",
       Some (App.mk (from_option App.id uuid app) (trim (name s))
               normalizedUrl (emoji s) (color s)
               (from_option App.order (Z.of_nat existingAppsCount) app)))
    else
      (mk (name s) (url s) (emoji s) (color s)
          "Please enter a valid URL (e.g. https://example.com)", None).

End Save.

End AppModal.

(** ** The settings window ([SettingsWindow]) *)

Module SettingsWindow.

(** [type Section = "appearance" | "system" | "apps"] *)
Inductive SectionId := appearance | system | apps.

Record state := mk {
  section : SectionId;
  pos : Point.t;
  minimized : bool;
  isDragging : bool;
  dragOffset : Point.t;
}.

Definition W : Z := Double.int 700.
Definition H : Z := Double.int 500.

Definition mount : state :=
  mk appearance (Point.mk (Double.int 120) (Double.int 60)) false false
     (Point.mk 0 0).

(** [handleMouseDown], [handleMouseMove], [handleMouseUp] *)
Definition handleMouseDown (clientX clientY : Z) (s : state) : state :=
  mk (section s) (pos s) (minimized s) true
     (Point.mk (Double.sub clientX (Point.x (pos s)))
               (Double.sub clientY (Point.y (pos s)))).

Definition handleMouseMove (clientX clientY innerWidth innerHeight : Z)
    (s : state) : state :=
  if isDragging s then
    let newX := Z.max 0
                  (Z.min (Double.sub clientX (Point.x (dragOffset s)))
                         (Double.sub innerWidth W)) in
    let newY := Z.max 0
                  (Z.min (Double.sub clientY (Point.y (dragOffset s)))
                         (Double.sub innerHeight H)) in
    mk (section s) (Point.mk newX newY) (minimized s) (isDragging s)
       (dragOffset s)
  else s.

Definition handleMouseUp (s : state) : state :=
  mk (section s) (pos s) (minimized s) false (dragOffset s).

(** The minimize button: [setMinimized(true)]. *)
Definition minimize (s : state) : state :=
  mk (section s) (pos s) true (isDragging s) (dragOffset s).

(** [if (minimized) return null] *)
Definition rendersDialog (s : state) : bool := negb (minimized s).

End SettingsWindow.

(** ** The shell's panels and the app form *)

Module ShellUi.

(** The shell state of [Shell] with the cells that open and close the
    panels; [settingsWin] is the mounted [SettingsWindow], if any, and
    [toasts] the notifications shown so far. *)
Record state := mk {
  shell : Shell.state;
  startOpen : bool;
  settingsOpen : bool;
  appModalOpen : bool;
  editingApp : option App.t;
  settingsWin : option SettingsWindow.state;
  toasts : list string;
}.

Definition init (s : Shell.state) : state :=
  mk s false false false None None [].

(** [{settingsOpen && <SettingsWindow ... />}]: the window is mounted
    while [settingsOpen] holds and keeps its state as long as it is. *)
Definition render (u : state) : state :=
  mk (shell u) (startOpen u) (settingsOpen u) (appModalOpen u) (editingApp u)
     (if settingsOpen u
      then Some (default SettingsWindow.mount (settingsWin u))
      else None)
     (toasts u).

(** [onSettingsClick]: [setSettingsOpen((v) => !v)] *)
Definition onSettingsClick (u : state) : state :=
  render (mk (shell u) (startOpen u) (negb (settingsOpen u)) (appModalOpen u)
             (editingApp u) (settingsWin u) (toasts u)).

(** The settings window's [onClose]: [setSettingsOpen(false)] *)
Definition closeSettings (u : state) : state :=
  render (mk (shell u) (startOpen u) false (appModalOpen u) (editingApp u)
             (settingsWin u) (toasts u)).

(** A click on the minimize button of the settings window, when the
    window is on screen. *)
Definition minimizeSettings (u : state) : state :=
  match settingsWin u with
  | Some w =>
      if SettingsWindow.rendersDialog w
      then mk (shell u) (startOpen u) (settingsOpen u) (appModalOpen u)
              (editingApp u) (Some (SettingsWindow.minimize w)) (toasts u)
      else u
  | None => u
  end.

(** Is the settings window on screen? *)
Definition settingsShown (u : state) : bool :=
  match settingsWin u with
  | Some w => SettingsWindow.rendersDialog w
  | None => false
  end.

(** [handleEditApp] *)
Definition handleEditApp (app : App.t) (u : state) : state :=
  render (mk (shell u) (startOpen u) false true (Some app) (settingsWin u)
             (toasts u)).

(** [onAddApp]: [setEditingApp(null); setAppModalOpen(true)] *)
Definition onAddApp (u : state) : state :=
  mk (shell u) (startOpen u) (settingsOpen u) true None (settingsWin u)
     (toasts u).

(** The form's [onClose] *)
Definition closeModal (u : state) : state :=
  mk (shell u) (startOpen u) (settingsOpen u) false None (settingsWin u)
     (toasts u).

(** [prev.map((a) => a.id === app.id ? app : a)] *)
Definition replaceApp (app : App.t) (a : App.t) : App.t :=
  if bool_decide (App.id a = App.id app) then app else a.

(** [handleSaveApp]; local storage is taken not to fail. *)
Definition handleSaveApp (app : App.t) (u : state) : state :=
  match editingApp u with
  | Some _ =>
      mk (Shell.set_apps (replaceApp app <$> Shell.apps (shell u)) (shell u))
         (startOpen u) (settingsOpen u) false None (settingsWin u)
         (toasts u ++ [App.emoji app +:+ " " +:+ App.name app +:+ " updated"])
  | None =>
      mk (Shell.set_apps (Shell.apps (shell u) ++ [app]) (shell u))
         (startOpen u) (settingsOpen u) false None (settingsWin u)
         (toasts u ++ [App.emoji app +:+ " " +:+ App.name app +:+ " added"])
  end.

(** [handleDeleteApp], with its notification
    [`${app?.name ?? "App"} deleted`]. *)
Definition handleDeleteApp (appId : string) (u : state) : state :=
  mk (Shell.handleDeleteApp appId (shell u))
     (startOpen u) (settingsOpen u) (appModalOpen u) (editingApp u)
     (settingsWin u)
     (toasts u
      ++ [from_option App.name "App"
            (List.find (λ a, bool_decide (App.id a = appId))
               (Shell.apps (shell u)))
          +:+ " deleted"]).

Definition with_shell (s : Shell.state) (u : state) : state :=
  mk s (startOpen u) (settingsOpen u) (appModalOpen u) (editingApp u)
     (settingsWin u) (toasts u).

(** The intents of the shell with its panels: those of the window manager
    and the app list, the taskbar's settings button, the buttons of the
    settings window, and the form.  The buttons of the settings window
    and of the form can be clicked only while they are on screen. *)
Inductive Intent :=
| Window (o : Shell.Op)
| SettingsClick
| CloseSettings
| MinimizeSettings
| EditApp (app : App.t)
| AddApp
| CloseModal
| SaveApp (app : App.t).

Definition apply (i : Intent) (u : state) : state :=
  match i with
  | Window (Shell.Delete appId) => handleDeleteApp appId u
  | Window o => with_shell (Shell.apply o (shell u)) u
  | SettingsClick => onSettingsClick u
  | CloseSettings => if settingsShown u then closeSettings u else u
  | MinimizeSettings => minimizeSettings u
  | EditApp app => handleEditApp app u
  | AddApp => onAddApp u
  | CloseModal => if appModalOpen u then closeModal u else u
  | SaveApp app => if appModalOpen u then handleSaveApp app u else u
  end.

Definition exec (intents : list Intent) (u : state) : state :=
  foldl (λ u i, apply i u) u intents.

End ShellUi.

(** ** Stacking order of the settings window, and settled timers *)

(** [<SettingsWindow zIndex={topZ + 10} ... />] *)
Definition settingsZIndex (s : Shell.state) : Z := Shell.topZ s + 10.

(** Above the start value, strictly ordered: kept by every intent whose
    launches use ids of length [n]. *)
Definition strictly_stacked (n : nat) (s : Shell.state) : Prop :=
  Shell.wm_inv s
  ∧ Forall (Shell.stamped n) (Shell.openWindows s)
  ∧ NoDup (OpenWindow.zIndex <$> Shell.openWindows s)
  ∧ Forall (λ w, 100 < OpenWindow.zIndex w) (Shell.openWindows s)
  ∧ 100 ≤ Shell.topZ s.

#[global] Instance targets_dec k i t : Decision (Desktop.targets k i t).
Proof. unfold Desktop.targets. apply _. Defined.

(** The state of the instance [i] mounted under [k] after the timers [ts]
    ran in order: its own timers set its phase, the others do nothing. *)
Definition settle (k : string) (i : nat) (ts : list Desktop.Timer)
    (s : AppWindow.state) : AppWindow.state :=
  foldl (λ s t, if decide (Desktop.targets k i t)
                then AppWindow.setPhase (Desktop.setTo t) s else s) s ts.

(** ** The saved app list and the first start (local-storage helpers) *)

Module LocalStorage.

(** What the shell keeps in local storage about the apps: whether
    ["zero-os-seeded"] is ["true"], and the array under ["zero-os-apps"]
    ([None] when the key is absent, empty or not the JSON of such an
    array).  A stored app holds its [order] as a number, here the integer
    value of the double, with 2^1024 and its opposite for the infinities;
    the JSON text is not modelled: strings and finite numbers are taken
    to come back from [JSON.parse] as [JSON.stringify] was given them. *)
Record t := mk {
  seeded : bool;
  apps : option (list App.t);
}.

(** [hasBeenSeeded], [markSeeded] *)
Definition hasBeenSeeded (st : t) : bool := seeded st.

Definition markSeeded (st : t) : t := mk true (apps st).

(** [saveApps]: [apps.map((a) => ({ ...a, order: Number(a.order) }))],
    written as JSON. *)
Definition saveApps (l : list App.t) (st : t) : t :=
  mk (seeded st)
     (Some ((λ a, App.with_order a (Double.Number (App.order a))) <$> l)).

(** [loadApps]: [stored.map((a) => ({ ...a, order: BigInt(a.order) }))].
    [JSON.stringify] writes an infinity as [null] and [BigInt(null)]
    throws; the [catch] then returns the empty list. *)
Definition finiteOrder (a : App.t) : Prop := Z.abs (App.order a) < 2 ^ 1024.

Definition loadApps (st : t) : list App.t :=
  match apps st with
  | None => []
  | Some stored => if decide (Forall finiteOrder stored) then stored else []
  end.

(** [DEFAULT_APPS]: name, url, emoji, color. *)
Definition DEFAULT_APPS : list (string * string * string * string) :=
  [("YouTube", "https://youtube.com", "▶️", "#ff0040");
   ("GitHub", "https://github.com", "🐙", "#bf00ff");
   ("Google", "https://google.com", "🔍", "#00f5ff");
   ("Twitter/X", "https://x.com", "𝕏", "#00acee");
   ("Reddit", "https://reddit.com", "👽", "#ff4500")]%string.

(** The initial value of the [apps] cell; [uuid i] is the value of the
    [i]-th call of [crypto.randomUUID]. *)
Definition initialApps (uuid : nat → string) (st : t) : list App.t * t :=
  let loaded := loadApps st in
  if negb (hasBeenSeeded st) then
    let seededApps :=
      imap (λ i '(name, url, emoji, color),
              App.mk (uuid i) name url emoji color (Z.of_nat i))
           DEFAULT_APPS in
    (seededApps, markSeeded (saveApps seededApps st))
  else (loaded, st).

End LocalStorage.

(** ** Concrete desktops used by the examples below *)

Module Examples.

Definition appA : App.t := App.mk "a" "A" "https://a.example" "A" "#ff0040" 0.
Definition appB : App.t := App.mk "b" "B" "https://b.example" "B" "#bf00ff" 1.
Definition appC : App.t := App.mk "c" "C" "https://c.example" "C" "#00f5ff" 2.

(** Settings with [openInIframe] switched off. *)
Definition external : Settings.t :=
  Settings.mk "grid" "#050510" "#00f5ff" true false "bottom".

(** Two launches, at times 5 and 7: the windows ["a5"] and ["b7"]. *)
Definition twoOpen : list Shell.Op := [Shell.Launch 5 appA; Shell.Launch 7 appB].

(** A desktop with the three apps installed, and the same desktop with
    [openInIframe] off. *)
Definition desk : Desktop.state :=
  Desktop.init [appA; appB; appC] Settings.DEFAULT_SETTINGS
    (Double.int 1280) (Double.int 720).

Definition deskExternal : Desktop.state :=
  Desktop.init [appA; appB; appC] external (Double.int 1280) (Double.int 720).

(** Two windows, ["a0"] and ["b3"]; the first one has just been told to
    minimize. *)
Definition busy : list Desktop.Event :=
  [Desktop.Launch appA (Double.int 10) (Double.int 10); Desktop.Wait 3;
   Desktop.Launch appB (Double.int 20) (Double.int 20);
   Desktop.MinimizeClick "a0"].

(** The same desktop in a viewport of 800 by 600, smaller than a window. *)
Definition narrow : Desktop.state :=
  Desktop.init [appA; appB; appC] Settings.DEFAULT_SETTINGS
    (Double.int 800) (Double.int 600).

(** The window ["a0"], placed at (80, 60), is grabbed by its title bar at
    (100, 70). *)
Definition dragging : list Desktop.Event :=
  [Desktop.Launch appA 0 0;
   Desktop.TitleMouseDown "a0" (Double.int 100) (Double.int 70)].

(** The window ["a0"] is minimized, then told to restore: its phase is
    [restoring] and the timer of the restore is pending. *)
Definition restoringA : list Desktop.Event :=
  [Desktop.Launch appA 0 0; Desktop.MinimizeClick "a0"; Desktop.Wait 260;
   Desktop.RestoreClick "a0"].

(** One open window, ["a0"]. *)
Definition openA : list Desktop.Event := [Desktop.Launch appA 0 0].


(** The icon grid while the icon of [appC], at index 2, is dragged. *)
Definition draggingC : DesktopIcons.state :=
  DesktopIcons.handleDragStart appC 2 DesktopIcons.init.

(** The actor after ["alice"] stored the shortcut [oldX] under the id
    ["x"]; [newX] has the same id, [appY] another one. *)
Definition oldX : Backend.App :=
  Backend.mkApp "x" "old" "https://x.example" "O" "#000" 0.

Definition newX : Backend.App :=
  Backend.mkApp "x" "new" "https://x.example" "N" "#fff" 1.

Definition appY : Backend.App :=
  Backend.mkApp "y" "why" "https://y.example" "Y" "#0f0" 2.

Definition aliceHasX : Backend.state (Principal:=string) :=
  Backend.mkState {[ "alice"%string := {[ "x"%string := oldX ]} ]} ∅.

(** Two calls of ["bob"]. *)
Definition bobCalls : list (BackendCalls.Call (Principal:=string)) :=
  [BackendCalls.AddApp "bob"%string newX;
   BackendCalls.UpdateSettings "bob"%string Backend.default_settings].

(** The shell with the three apps, renumbered by a reorder, and the form
    filled with a name and a URL without scheme. *)
Definition panels : ShellUi.state :=
  ShellUi.init (Shell.init [appA; appB; appC] Settings.DEFAULT_SETTINGS).

Definition formD : AppModal.state :=
  AppModal.mk "D" "d.example" "D" "#00f5ff" "".

(** The same shell with the window of [appA] open while [appA] is being
    edited. *)
Definition editingA : ShellUi.state :=
  ShellUi.handleEditApp appA
    (ShellUi.init
       (Shell.launchApp 5 appA
          (Shell.init [appA; appB; appC] Settings.DEFAULT_SETTINGS))).

Definition formA : AppModal.state :=
  AppModal.mk "A2" "https://a2.example" "A" "#ff0040" "".

(** The window ["a0"] minimized, with no timer left. *)
Definition minimizedA : list Desktop.Event :=
  [Desktop.Launch appA 0 0; Desktop.MinimizeClick "a0"; Desktop.Wait 260].

End Examples.

(** * Rounding to doubles *)

Section DoubleFacts.

Import Double.

(** The same in arithmetic: quotient and remainder by [2 ^ e]. *)
Lemma round53_arith z :
  round53 z
  = let n := Z.abs z in
    let e := Z.log2 n - 52 in
    if decide (e ≤ 0) then z
    else
      let q := n / 2 ^ e in
      let r := n mod 2 ^ e in
      let half := 2 ^ (e - 1) in
      let q' := if decide (r < half) then q
                else if decide (half < r) then q + 1
                else if Z.even q then q else q + 1 in
      Z.sgn z * (q' * 2 ^ e).
Proof.
  unfold round53. cbv zeta. case_decide; [done |].
  rewrite Z.shiftr_div_pow2, Z.land_ones, !Z.shiftl_mul_pow2 by lia.
  by rewrite Z.mul_1_l.
Qed.

Lemma round53_exact z : Z.abs z < 2 ^ 53 → round53 z = z.
Proof.
  intros Hz. unfold round53. case_decide as He; [done |].
  destruct (decide (Z.abs z = 0)) as [H0|H0].
  - rewrite H0 in He. simpl in He. lia.
  - assert (Z.log2 (Z.abs z) < 53) by (apply Z.log2_lt_pow2; lia). lia.
Qed.

Lemma round53_opp z : round53 (- z) = - round53 z.
Proof.
  unfold round53. rewrite Z.abs_opp, Z.sgn_opp.
  case_decide; [done |]. lia.
Qed.

(** The rounded significand of a number of more than 53 bits. *)
Lemma round53_pos n :
  0 < n → 52 < Z.log2 n →
  ∃ q, round53 n = q * 2 ^ (Z.log2 n - 52)
       ∧ n / 2 ^ (Z.log2 n - 52) ≤ q ≤ n / 2 ^ (Z.log2 n - 52) + 1
       ∧ (n mod 2 ^ (Z.log2 n - 52) < 2 ^ (Z.log2 n - 53) → q = n / 2 ^ (Z.log2 n - 52))
       ∧ (2 ^ (Z.log2 n - 53) < n mod 2 ^ (Z.log2 n - 52) → q = n / 2 ^ (Z.log2 n - 52) + 1).
Proof.
  intros Hn He. rewrite round53_arith. cbv zeta.
  rewrite (Z.abs_eq n) by lia. rewrite (Z.sgn_pos n) by lia.
  rewrite decide_False by lia.
  replace (Z.log2 n - 52 - 1) with (Z.log2 n - 53) by lia.
  set (e := Z.log2 n - 52). set (h := 2 ^ (Z.log2 n - 53)).
  eexists. split; [by rewrite Z.mul_1_l |].
  repeat case_decide; try destruct (Z.even _); repeat split; intros; lia.
Qed.

Lemma round53_nonneg z : 0 ≤ z → 0 ≤ round53 z.
Proof.
  intros Hz. rewrite round53_arith. cbv zeta. case_decide; [done |].
  assert (0 ≤ Z.abs z / 2 ^ (Z.log2 (Z.abs z) - 52))
    by (apply Z.div_pos; lia).
  assert (0 < 2 ^ (Z.log2 (Z.abs z) - 52)) by (apply Z.pow_pos_nonneg; lia).
  destruct (Z.sgn_spec z) as [[? ->]|[[? ->]|[? ->]]]; [| lia | lia].
  repeat case_decide; try destruct (Z.even _); nia.
Qed.

Lemma round53_binade n :
  0 < n → 2 ^ Z.log2 n ≤ round53 n ≤ 2 ^ (Z.log2 n + 1).
Proof.
  intros Hn. destruct (Z.log2_spec n Hn) as [Hlo Hhi].
  replace (Z.succ (Z.log2 n)) with (Z.log2 n + 1) in Hhi by lia.
  destruct (decide (Z.log2 n ≤ 52)) as [He|He].
  - unfold round53. rewrite (Z.abs_eq n) by lia.
    rewrite decide_True by lia. lia.
  - destruct (round53_pos n Hn) as (q & -> & Hq & _); [lia |].
    set (e := Z.log2 n - 52) in *.
    assert (HE : 0 < 2 ^ e) by (apply Z.pow_pos_nonneg; lia).
    assert (Hlo' : 2 ^ Z.log2 n = 2 ^ 52 * 2 ^ e)
      by (rewrite <- Z.pow_add_r by lia; f_equal; lia).
    assert (Hhi' : 2 ^ (Z.log2 n + 1) = 2 ^ 53 * 2 ^ e)
      by (rewrite <- Z.pow_add_r by lia; f_equal; lia).
    rewrite Hlo', Hhi' in *.
    assert (2 ^ 52 ≤ n / 2 ^ e) by (apply Z.div_le_lower_bound; lia).
    assert (n / 2 ^ e < 2 ^ 53) by (apply Z.div_lt_upper_bound; lia).
    split; apply Z.mul_le_mono_nonneg_r; lia.
Qed.

Lemma round53_mono_pos a b : 0 < a → a ≤ b → round53 a ≤ round53 b.
Proof.
  intros Ha Hab.
  destruct (decide (a = b)) as [->|Hneq]; [done |].
  assert (Hlog : Z.log2 a ≤ Z.log2 b) by by apply Z.log2_le_mono.
  destruct (decide (Z.log2 a = Z.log2 b)) as [Heq|Hne].
  - destruct (decide (Z.log2 a ≤ 52)) as [He|He].
    + unfold round53. rewrite !Z.abs_eq by lia.
      rewrite !decide_True by lia. done.
    + destruct (round53_pos a) as (qa & -> & Hqa & Hla & Hha); [lia | lia |].
      destruct (round53_pos b) as (qb & -> & Hqb & Hlb & Hhb); [lia | lia |].
      rewrite <- Heq in *.
      set (e := Z.log2 a - 52) in *.
      assert (HE : 0 < 2 ^ e) by (apply Z.pow_pos_nonneg; lia).
      apply Z.mul_le_mono_nonneg_r; [lia |].
      assert (Hdiv : a / 2 ^ e ≤ b / 2 ^ e) by (apply Z.div_le_mono; lia).
      destruct (decide (a / 2 ^ e = b / 2 ^ e)) as [Hq|Hq]; [| lia].
      assert (Hmod : a mod 2 ^ e < b mod 2 ^ e).
      { pose proof (Z.div_mod a (2 ^ e)). pose proof (Z.div_mod b (2 ^ e)).
        nia. }
      destruct (decide (b mod 2 ^ e < 2 ^ (Z.log2 a - 53))); [lia |].
      destruct (decide (2 ^ (Z.log2 a - 53) < a mod 2 ^ e)); [lia |].
      destruct (decide (2 ^ (Z.log2 a - 53) < b mod 2 ^ e)); lia.
  - pose proof (round53_binade a Ha) as [_ Hhi].
    pose proof (round53_binade b) as [Hlo _]; [lia |].
    assert (2 ^ (Z.log2 a + 1) ≤ 2 ^ Z.log2 b)
      by (apply Z.pow_le_mono_r; lia).
    lia.
Qed.

Lemma round53_mono a b : a ≤ b → round53 a ≤ round53 b.
Proof.
  intros Hab.
  destruct (Z.lt_trichotomy a 0) as [Ha|[->|Ha]].
  - destruct (Z.lt_trichotomy b 0) as [Hb|[->|Hb]].
    + pose proof (round53_mono_pos (- b) (- a)) as Hm.
      rewrite !round53_opp in Hm. lia.
    + pose proof (round53_nonneg (- a)) as Hm.
      rewrite round53_opp in Hm. change (round53 0) with 0. lia.
    + pose proof (round53_nonneg (- a)) as Hm.
      rewrite round53_opp in Hm. pose proof (round53_nonneg b). lia.
  - change (round53 0) with 0. by apply round53_nonneg.
  - by apply round53_mono_pos.
Qed.

Lemma round53_scaled m k :
  Z.abs m < 2 ^ 53 → 0 ≤ k → round53 (m * 2 ^ k) = m * 2 ^ k.
Proof.
  intros Hm Hk.
  assert (Hpos : ∀ n, 0 < n < 2 ^ 53 → round53 (n * 2 ^ k) = n * 2 ^ k).
  { intros n Hn.
    assert (HK : 0 < 2 ^ k) by (apply Z.pow_pos_nonneg; lia).
    assert (Hlog : Z.log2 (n * 2 ^ k) = Z.log2 n + k)
      by (rewrite Z.log2_mul_pow2 by lia; lia).
    assert (Hl53 : Z.log2 n < 53) by (apply Z.log2_lt_pow2; lia).
    pose proof (Z.log2_nonneg n).
    destruct (decide (Z.log2 (n * 2 ^ k) ≤ 52)) as [He|He].
    - apply round53_exact. rewrite Z.abs_eq by nia.
      apply Z.log2_lt_pow2; [nia | lia].
    - destruct (round53_pos (n * 2 ^ k)) as (q & -> & _ & Hl & _); [nia | lia |].
      rewrite Hlog in *.
      set (e := Z.log2 n + k - 52) in *.
      assert (Hsplit : 2 ^ k = 2 ^ (k - e) * 2 ^ e)
        by (rewrite <- Z.pow_add_r by lia; f_equal; lia).
      assert (HE : 0 < 2 ^ e) by (apply Z.pow_pos_nonneg; lia).
      assert (Hmod : (n * 2 ^ k) mod 2 ^ e = 0).
      { rewrite Hsplit, Z.mul_assoc. apply Z.mod_mul. lia. }
      assert (Hdiv : (n * 2 ^ k) / 2 ^ e = n * 2 ^ (k - e)).
      { rewrite Hsplit, Z.mul_assoc. apply Z.div_mul. lia. }
      rewrite Hl.
      + rewrite Hdiv, Hsplit. lia.
      + rewrite Hmod. apply Z.pow_pos_nonneg; lia. }
  destruct (Z.lt_trichotomy m 0) as [Hneg|[->|Hp]].
  - replace (m * 2 ^ k) with (- (- m * 2 ^ k)) by lia.
    rewrite round53_opp, Hpos; lia.
  - done.
  - apply Hpos. lia.
Qed.

Lemma Number_mono a b : a ≤ b → Number a ≤ Number b.
Proof. intros Hab. unfold Number. pose proof (round53_mono a b Hab). lia. Qed.

Lemma Number_exact n : Z.abs n < 2 ^ 53 → Number n = n.
Proof.
  intros Hn. unfold Number. rewrite round53_exact by done.
  assert (2 ^ 53 ≤ 2 ^ 1024) by (apply Z.pow_le_mono_r; lia). lia.
Qed.

Lemma sub_nonneg x y : y ≤ x → 0 ≤ sub x y.
Proof. intros Hxy. apply round53_nonneg. lia. Qed.

Lemma int_le a b : a ≤ b ↔ int a ≤ int b.
Proof.
  unfold int. assert (0 < 2 ^ 1074) by (apply Z.pow_pos_nonneg; lia). nia.
Qed.

Lemma int_max a b : int (Z.max a b) = Z.max (int a) (int b).
Proof.
  pose proof (int_le a b). pose proof (int_le b a).
  destruct (Z.max_spec a b) as [[? ->]|[? ->]]; lia.
Qed.

Lemma int_min a b : int (Z.min a b) = Z.min (int a) (int b).
Proof.
  pose proof (int_le a b). pose proof (int_le b a).
  destruct (Z.min_spec a b) as [[? ->]|[? ->]]; lia.
Qed.

(** Sums and differences of whole numbers below 2^53 are exact. *)
Lemma sub_int a b : Z.abs (a - b) < 2 ^ 53 → sub (int a) (int b) = int (a - b).
Proof.
  intros Hab. unfold sub, int. rewrite <- Z.mul_sub_distr_r.
  by apply round53_scaled.
Qed.

Lemma add_int a b : Z.abs (a + b) < 2 ^ 53 → add (int a) (int b) = int (a + b).
Proof.
  intros Hab. unfold add, int. rewrite <- Z.mul_add_distr_r.
  by apply round53_scaled.
Qed.

End DoubleFacts.

(** * The window manager of the shell *)

Section ShellFacts.

Implicit Types (s : Shell.state) (w : OpenWindow.t) (a : App.t).
Implicit Types (ws : list OpenWindow.t) (k : string) (z : Z).

Lemma raise_window_id k z w :
  OpenWindow.id (Shell.raise_window k z w) = OpenWindow.id w.
Proof. unfold Shell.raise_window. by case_bool_decide. Qed.

Lemma raise_window_app k z w :
  OpenWindow.app (Shell.raise_window k z w) = OpenWindow.app w.
Proof. unfold Shell.raise_window. by case_bool_decide. Qed.

Lemma raise_app_id a z w :
  OpenWindow.id (Shell.raise_app a z w) = OpenWindow.id w.
Proof. unfold Shell.raise_app. by destruct (Shell.shows a w). Qed.

Lemma raise_app_app a z w :
  OpenWindow.app (Shell.raise_app a z w) = OpenWindow.app w.
Proof. unfold Shell.raise_app. by destruct (Shell.shows a w). Qed.

Lemma raise_window_zIndex k z w :
  OpenWindow.zIndex (Shell.raise_window k z w)
  = if decide (OpenWindow.id w = k) then z else OpenWindow.zIndex w.
Proof. unfold Shell.raise_window. case_bool_decide; by case_decide. Qed.

Lemma raise_app_zIndex a z w :
  OpenWindow.zIndex (Shell.raise_app a z w)
  = if decide (App.id (OpenWindow.app w) = App.id a) then z
    else OpenWindow.zIndex w.
Proof.
  unfold Shell.raise_app, Shell.shows. case_bool_decide; by case_decide.
Qed.

Lemma find_shows_None a ws :
  List.find (Shell.shows a) ws = None
  ↔ App.id a ∉ (λ w, App.id (OpenWindow.app w)) <$> ws.
Proof.
  induction ws as [|w ws IH]; simpl.
  - split; [intros _; apply not_elem_of_nil | done].
  - unfold Shell.shows at 1. rewrite not_elem_of_cons.
    case_bool_decide as Hw; split.
    + done.
    + intros [Hne _]. by destruct Hne.
    + intros Hf. split; [congruence | by apply IH].
    + intros [_ Hn]. by apply IH.
Qed.

Lemma find_shows_Some a ws :
  is_Some (List.find (Shell.shows a) ws)
  ↔ App.id a ∈ (λ w, App.id (OpenWindow.app w)) <$> ws.
Proof.
  destruct (List.find (Shell.shows a) ws) as [w|] eqn:Hf.
  - split; [intros _ | by eauto].
    destruct (decide (App.id a ∈ (λ w, App.id (OpenWindow.app w)) <$> ws))
      as [|Hn]; [done |].
    apply find_shows_None in Hn. congruence.
  - split; [by intros [? ?] |].
    intros Hin. apply find_shows_None in Hf. done.
Qed.

Lemma appIds_raise_app a z ws :
  (λ w, App.id (OpenWindow.app w)) <$> (Shell.raise_app a z <$> ws)
  = (λ w, App.id (OpenWindow.app w)) <$> ws.
Proof.
  rewrite <- list_fmap_compose. apply list_fmap_ext.
  intros i w _. simpl. by rewrite raise_app_app.
Qed.

Lemma appIds_raise_window k z ws :
  (λ w, App.id (OpenWindow.app w)) <$> (Shell.raise_window k z <$> ws)
  = (λ w, App.id (OpenWindow.app w)) <$> ws.
Proof.
  rewrite <- list_fmap_compose. apply list_fmap_ext.
  intros i w _. simpl. by rewrite raise_window_app.
Qed.

Lemma windowIds_raise_app a z ws :
  OpenWindow.id <$> (Shell.raise_app a z <$> ws) = OpenWindow.id <$> ws.
Proof.
  rewrite <- list_fmap_compose. apply list_fmap_ext.
  intros i w _. simpl. by rewrite raise_app_id.
Qed.

Lemma windowIds_raise_window k z ws :
  OpenWindow.id <$> (Shell.raise_window k z <$> ws) = OpenWindow.id <$> ws.
Proof.
  rewrite <- list_fmap_compose. apply list_fmap_ext.
  intros i w _. simpl. by rewrite raise_window_id.
Qed.

Lemma below_raise_window k z ws :
  Forall (λ w, OpenWindow.zIndex w ≤ z) ws →
  Forall (λ w, OpenWindow.zIndex w ≤ z + 1) (Shell.raise_window k (z + 1) <$> ws).
Proof.
  intros Hall. apply Forall_fmap. eapply Forall_impl; [exact Hall |].
  intros w Hw. simpl in *. rewrite raise_window_zIndex. case_decide; lia.
Qed.

Lemma below_raise_app a z ws :
  Forall (λ w, OpenWindow.zIndex w ≤ z) ws →
  Forall (λ w, OpenWindow.zIndex w ≤ z + 1) (Shell.raise_app a (z + 1) <$> ws).
Proof.
  intros Hall. apply Forall_fmap. eapply Forall_impl; [exact Hall |].
  intros w Hw. simpl in *. rewrite raise_app_zIndex. case_decide; lia.
Qed.

Lemma wm_inv_init loaded settings : Shell.wm_inv (Shell.init loaded settings).
Proof. split; [apply Forall_nil_2 | apply NoDup_nil_2]. Qed.

Lemma wm_inv_launchApp now a s :
  Shell.wm_inv s → Shell.wm_inv (Shell.launchApp now a s).
Proof.
  intros [Hz Hnd]. unfold Shell.launchApp.
  destruct (Settings.openInIframe (Shell.localSettings s)); [| by split].
  simpl. destruct (List.find (Shell.shows a) (Shell.openWindows s)) eqn:Hf.
  - split; simpl.
    + by apply below_raise_app.
    + unfold Shell.appIds. simpl. by rewrite appIds_raise_app.
  - apply find_shows_None in Hf. split; simpl.
    + apply Forall_app. split.
      * eapply Forall_impl; [exact Hz |]. intros w Hw. simpl in *. lia.
      * apply Forall_singleton. simpl. lia.
    + unfold Shell.appIds. simpl. rewrite fmap_app. apply NoDup_app.
      split; [exact Hnd |]. split; [| apply NoDup_singleton].
      intros x Hx Hx'. apply list_elem_of_singleton in Hx'. simpl in Hx'.
      by subst x.
Qed.

Lemma wm_inv_focusWindow k s :
  Shell.wm_inv s → Shell.wm_inv (Shell.focusWindow k s).
Proof.
  intros [Hz Hnd]. split; simpl.
  - by apply below_raise_window.
  - unfold Shell.appIds. simpl. by rewrite appIds_raise_window.
Qed.

Lemma wm_inv_closeWindow k s :
  Shell.wm_inv s → Shell.wm_inv (Shell.closeWindow k s).
Proof.
  intros [Hz Hnd]. split; simpl.
  - apply Forall_forall. intros w Hw. apply list_elem_of_filter in Hw as [_ Hw].
    by apply (proj1 (Forall_forall _ _) Hz).
  - unfold Shell.appIds. simpl.
    eapply sublist_NoDup; [exact Hnd |].
    apply fmap_sublist, sublist_filter.
Qed.

Lemma wm_inv_apply o s : Shell.wm_inv s → Shell.wm_inv (Shell.apply o s).
Proof.
  destruct o; simpl;
    auto using wm_inv_launchApp, wm_inv_focusWindow, wm_inv_closeWindow.
Qed.

Lemma wm_inv_exec ops s : Shell.wm_inv s → Shell.wm_inv (Shell.exec ops s).
Proof.
  revert s. induction ops as [|o ops IH]; intros s Hs; [done |].
  apply IH, wm_inv_apply, Hs.
Qed.

End ShellFacts.

(** * The rendered desktop *)

Section DesktopFacts.

Import Desktop.

Implicit Types (d : Desktop.state) (e : Event) (k : string).
Implicit Types (m : gmap string View) (ws : list OpenWindow.t).

Lemma exec_app ops1 ops2 s :
  Shell.exec (ops1 ++ ops2) s = Shell.exec ops2 (Shell.exec ops1 s).
Proof. unfold Shell.exec. apply foldl_app. Qed.

(** Every event acts on the shell through its intents. *)
Lemma shell_step e d : ∃ ops, shell (step e d) = Shell.exec ops (shell d).
Proof.
  destruct e as [a rx ry|k|k|k cx cy|cx cy| |k|k|ms|w h|appId|l|st]; simpl.
  - by exists [Shell.Launch (clock d) a].
  - destruct (dialogShown k d); [by exists [Shell.Close k] | by exists []].
  - destruct (dialogShown k d); [by exists [Shell.Focus k] | by exists []].
  - destruct (dialogShown k d);
      [by exists [Shell.Focus k; Shell.Focus k] | by exists []].
  - by exists [].
  - by exists [].
  - destruct (dialogShown k d); [| by exists []].
    unfold click. destruct (mounted d !! k); by exists [].
  - destruct (restoreShown k d); [| by exists []].
    unfold click. destruct (mounted d !! k); by exists [].
  - by exists [].
  - by exists [].
  - by exists [Shell.Delete appId].
  - by exists [Shell.Reorder l].
  - by exists [Shell.SettingsChange st].
Qed.

Lemma shell_run evs d : ∃ ops, shell (run evs d) = Shell.exec ops (shell d).
Proof.
  revert d. induction evs as [|e evs IH]; intros d; [by exists [] |].
  simpl. destruct (IH (step e d)) as [ops2 H2].
  destruct (shell_step e d) as [ops1 H1].
  exists (ops1 ++ ops2). unfold run in *. simpl. by rewrite H2, H1, exec_app.
Qed.

(** Reconciliation, key by key. *)
Lemma lookup_reconcile ws fresh m k :
  reconcile ws fresh m !! k
  = if decide (k ∈ OpenWindow.id <$> ws)
    then match m !! k with Some v => Some v | None => fresh end
    else None.
Proof.
  unfold reconcile. induction ws as [|w ws IH].
  - rewrite fmap_nil. cbn [omap list_omap list_to_map foldr]. rewrite lookup_empty. case_decide as Hin; [| done].
    by apply not_elem_of_nil in Hin.
  - rewrite fmap_cons. cbn [omap list_omap].
    destruct (decide (k = OpenWindow.id w)) as [->|Hne].
    + rewrite decide_True by apply list_elem_of_here.
      destruct (m !! OpenWindow.id w) as [v|] eqn:Hm; simpl.
      * by rewrite lookup_insert_eq.
      * destruct fresh as [v|]; simpl; [by rewrite lookup_insert_eq |].
        rewrite IH. by case_decide.
    + assert (Hiff : k ∈ OpenWindow.id w :: (OpenWindow.id <$> ws)
                     ↔ k ∈ OpenWindow.id <$> ws).
      { rewrite elem_of_cons. tauto. }
      destruct (match m !! OpenWindow.id w with
                | Some v => Some v
                | None => fresh
                end) as [v|]; simpl.
      * rewrite lookup_insert_ne by done. rewrite IH.
        repeat case_decide; first [done | tauto].
      * rewrite IH. repeat case_decide; first [done | tauto].
Qed.

Lemma dom_reconcile_fresh ws v m :
  dom (reconcile ws (Some v) m) =@{gset string} list_to_set (OpenWindow.id <$> ws).
Proof.
  apply set_eq. intros k.
  rewrite elem_of_dom, lookup_reconcile, elem_of_list_to_set.
  case_decide; [| by split; [intros [? ?] |]].
  split; [done | intros _]. destruct (m !! k); eauto.
Qed.

Lemma reconcile_id ws fresh m :
  dom m =@{gset string} list_to_set (OpenWindow.id <$> ws) →
  reconcile ws fresh m = m.
Proof.
  intros Hdom. apply map_eq. intros k. rewrite lookup_reconcile.
  case_decide as Hin.
  - assert (Hk : k ∈ dom m) by (rewrite Hdom; by apply elem_of_list_to_set).
    apply elem_of_dom in Hk as [v Hv]. by rewrite Hv.
  - symmetry. apply not_elem_of_dom. rewrite Hdom.
    by rewrite elem_of_list_to_set.
Qed.

Lemma reconcile_None_lookup ws m k :
  reconcile ws None m !! k = None ↔ k ∉ OpenWindow.id <$> ws ∨ m !! k = None.
Proof.
  rewrite lookup_reconcile.
  case_decide as Hin; destruct (m !! k) as [v|]; split; auto.
  intros [Hout|Hnone]; [by destruct Hout | done].
Qed.

(** Timer callbacks never mount or unmount a window. *)
Lemma dom_fire t m : dom (fire t m) =@{gset string} dom m.
Proof.
  unfold fire. destruct (m !! key t) as [v|] eqn:Hm; [| done].
  case_decide; [| done]. apply dom_insert_lookup_L. eauto.
Qed.

Lemma dom_fire_all ts m : dom (fire_all ts m) =@{gset string} dom m.
Proof.
  revert m. induction ts as [|t ts IH]; intros m; [done |].
  simpl. unfold fire_all in *. simpl. by rewrite IH, dom_fire.
Qed.

Lemma dom_click h k d : dom (mounted (click h k d)) =@{gset string} dom (mounted d).
Proof.
  unfold click. destruct (mounted d !! k) as [v|] eqn:Hm; [| done].
  destruct (h (win v)) as [s' [delay ph]]. simpl.
  apply dom_insert_lookup_L. eauto.
Qed.

Lemma shell_click h k d : shell (click h k d) = shell d.
Proof.
  unfold click. destruct (mounted d !! k) as [v|]; [| done].
  by destruct (h (win v)) as [s' [delay ph]].
Qed.

End DesktopFacts.

Section DesktopInvariant.

Import Desktop.

Implicit Types (d : Desktop.state) (e : Event) (k : string).

Lemma windowIds_closeWindow k s :
  Shell.windowIds (Shell.closeWindow k s)
  = filter (λ x, x ≠ k) (Shell.windowIds s).
Proof.
  unfold Shell.windowIds. simpl.
  induction (Shell.openWindows s) as [|w ws IH]; [done |].
  rewrite fmap_cons, !filter_cons, <- IH.
  by destruct (decide (OpenWindow.id w ≠ k)).
Qed.

Lemma windowIds_focusWindow k s :
  Shell.windowIds (Shell.focusWindow k s) = Shell.windowIds s.
Proof. unfold Shell.windowIds. simpl. apply windowIds_raise_window. Qed.

Lemma keys_inv_step e d : keys_inv d → keys_inv (step e d).
Proof.
  unfold keys_inv. intros Hd.
  destruct e as [a rx ry|k|k|k cx cy|cx cy| |k|k|ms|w h|appId|l|st]; simpl.
  - apply dom_reconcile_fresh.
  - destruct (dialogShown k d); [| done]. simpl.
    apply set_eq. intros x.
    rewrite elem_of_dom, <- not_eq_None_Some, reconcile_None_lookup.
    change (OpenWindow.id <$>
              filter (λ w, OpenWindow.id w ≠ k) (Shell.openWindows (shell d)))
      with (Shell.windowIds (Shell.closeWindow k (shell d))).
    rewrite windowIds_closeWindow, elem_of_list_to_set, list_elem_of_filter.
    rewrite <- not_elem_of_dom, Hd, elem_of_list_to_set.
    destruct (decide (x = k)); destruct (decide (x ∈ Shell.windowIds (shell d)));
      tauto.
  - destruct (dialogShown k d); [| done]. simpl.
    by rewrite windowIds_focusWindow.
  - destruct (dialogShown k d); [| done]. simpl.
    by rewrite dom_alter_L, !windowIds_focusWindow.
  - by rewrite dom_fmap_L.
  - by rewrite dom_fmap_L.
  - destruct (dialogShown k d); [| done]. by rewrite dom_click, shell_click.
  - destruct (restoreShown k d); [| done]. by rewrite dom_click, shell_click.
  - by rewrite dom_fire_all.
  - done.
  - done.
  - done.
  - done.
Qed.

Lemma inv_step e d : inv d → inv (step e d).
Proof.
  intros [Hs Hk]. split; [| by apply keys_inv_step].
  destruct (shell_step e d) as [ops ->]. by apply wm_inv_exec.
Qed.

Lemma inv_run evs d : inv d → inv (run evs d).
Proof.
  revert d. induction evs as [|e evs IH]; intros d Hd; [done |].
  apply IH, inv_step, Hd.
Qed.

Lemma inv_init loaded settings width height :
  inv (init loaded settings width height).
Proof.
  split; [apply wm_inv_init |]. unfold keys_inv. simpl. by rewrite dom_empty_L.
Qed.

End DesktopInvariant.

Section WindowManager.

Implicit Types (s : Shell.state) (w : OpenWindow.t) (a : App.t).

Lemma NoDup_fmap_eq {A B} (f : A → B) (l : list A) x y :
  NoDup (f <$> l) → x ∈ l → y ∈ l → f x = f y → x = y.
Proof.
  induction l as [|z l IH]; intros Hnd Hx Hy Hf.
  - by apply elem_of_nil in Hx.
  - rewrite fmap_cons in Hnd. apply NoDup_cons in Hnd as [Hz Hnd].
    apply elem_of_cons in Hx as [->|Hx]; apply elem_of_cons in Hy as [->|Hy].
    + done.
    + destruct Hz. rewrite Hf. by apply list_elem_of_fmap_2.
    + destruct Hz. rewrite <- Hf. by apply list_elem_of_fmap_2.
    + by apply IH.
Qed.

Lemma filter_absent {A B} `{EqDecision B} (f : A → B) (l : list A) b :
  b ∉ f <$> l → filter (λ y, f y = b) l = [].
Proof.
  induction l as [|x l IH]; intros Hb; [done |].
  rewrite fmap_cons in Hb. apply not_elem_of_cons in Hb as [Hne Hb].
  rewrite filter_cons_False by congruence. by apply IH.
Qed.

Lemma filter_unique {A B} `{EqDecision B} (f : A → B) (l : list A) b :
  NoDup (f <$> l) → b ∈ f <$> l → length (filter (λ y, f y = b) l) = 1%nat.
Proof.
  induction l as [|x l IH]; intros Hnd Hb.
  - by apply elem_of_nil in Hb.
  - rewrite fmap_cons in Hnd, Hb. apply NoDup_cons in Hnd as [Hx Hnd].
    destruct (decide (f x = b)) as [<-|Hne].
    + rewrite filter_cons_True by done. simpl. by rewrite filter_absent.
    + rewrite filter_cons_False by done.
      apply elem_of_cons in Hb as [?|Hb]; [congruence | by apply IH].
Qed.

(** Window ids are pairwise different when the app ids have one length. *)
Lemma append_same_length_inj (a b s t : string) :
  String.length a = String.length b → a +:+ s = b +:+ t → a = b.
Proof.
  revert b. induction a as [|c a IH]; intros [|c' b] Hlen Heq;
    simpl in *; try done.
  injection Heq as -> Heq. f_equal. apply IH; [lia | done].
Qed.

Lemma stamped_apply n o s :
  Shell.launchesOfLength n o →
  Forall (Shell.stamped n) (Shell.openWindows s) →
  Forall (Shell.stamped n) (Shell.openWindows (Shell.apply o s)).
Proof.
  intros Ho Hs. destruct o as [now a|k|k|appId|l|st]; simpl in *; try done.
  - unfold Shell.launchApp.
    destruct (Settings.openInIframe (Shell.localSettings s)); [| done].
    destruct (List.find (Shell.shows a) (Shell.openWindows s)); simpl.
    + apply Forall_fmap. eapply Forall_impl; [exact Hs |].
      intros w [Hlen [suffix Hid]]. unfold Shell.stamped. simpl.
      rewrite raise_app_app, raise_app_id. eauto.
    + apply Forall_app. split; [done |]. apply Forall_singleton.
      split; [done |]. by eexists.
  - apply Forall_fmap. eapply Forall_impl; [exact Hs |].
    intros w [Hlen [suffix Hid]]. unfold Shell.stamped. simpl.
    rewrite raise_window_app, raise_window_id. eauto.
  - rewrite Forall_forall in *. intros w Hw.
    apply list_elem_of_filter in Hw as [_ Hw]. by apply Hs.
Qed.

Lemma stamped_exec n ops s :
  Forall (Shell.launchesOfLength n) ops →
  Forall (Shell.stamped n) (Shell.openWindows s) →
  Forall (Shell.stamped n) (Shell.openWindows (Shell.exec ops s)).
Proof.
  revert s. induction ops as [|o ops IH]; intros s Hops Hs; [done |].
  apply Forall_cons in Hops as [Ho Hops].
  apply IH; [done |]. by apply stamped_apply.
Qed.

Lemma windowIds_NoDup n s :
  Shell.wm_inv s → Forall (Shell.stamped n) (Shell.openWindows s) →
  NoDup (Shell.windowIds s).
Proof.
  intros [_ Hnd] Hst. rewrite Forall_forall in Hst.
  apply NoDup_fmap_2_strong; [| by eapply NoDup_fmap_1].
  intros w w' Hw Hw' Hid.
  destruct (Hst _ Hw) as [Hlen [suffix Hs]].
  destruct (Hst _ Hw') as [Hlen' [suffix' Hs']].
  apply (NoDup_fmap_eq (λ w, App.id (OpenWindow.app w)) (Shell.openWindows s));
    [done | done | done |].
  apply (append_same_length_inj _ _ suffix suffix'); congruence.
Qed.

Lemma focusWindow_on_top s k w w' :
  Shell.wm_inv s →
  w ∈ Shell.openWindows (Shell.focusWindow k s) →
  w' ∈ Shell.openWindows (Shell.focusWindow k s) →
  OpenWindow.id w = k → OpenWindow.id w' ≠ k →
  OpenWindow.zIndex w' < OpenWindow.zIndex w.
Proof.
  intros [Hz _] Hw Hw' Hk Hk'. simpl in Hw, Hw'.
  apply list_elem_of_fmap in Hw as (w0 & -> & Hw0).
  apply list_elem_of_fmap in Hw' as (w0' & -> & Hw0').
  rewrite raise_window_id in Hk, Hk'. rewrite !raise_window_zIndex.
  destruct (decide (OpenWindow.id w0 = k)); [| done].
  destruct (decide (OpenWindow.id w0' = k)); [done |].
  rewrite Forall_forall in Hz. specialize (Hz _ Hw0'). simpl in Hz. lia.
Qed.

Lemma launchApp_on_top now a s :
  Shell.wm_inv s →
  Settings.openInIframe (Shell.localSettings s) = true →
  ∃ w, w ∈ Shell.openWindows (Shell.launchApp now a s)
       ∧ App.id (OpenWindow.app w) = App.id a
       ∧ OpenWindow.zIndex w = Shell.topZ s + 1
       ∧ ∀ w', w' ∈ Shell.openWindows (Shell.launchApp now a s) → w' ≠ w →
               OpenWindow.zIndex w' < OpenWindow.zIndex w.
Proof.
  intros [Hz Hnd] Hframe. unfold Shell.launchApp. rewrite Hframe.
  rewrite Forall_forall in Hz.
  destruct (List.find (Shell.shows a) (Shell.openWindows s)) as [w0|] eqn:Hf;
    simpl.
  - apply find_some in Hf as [Hin Hshow]. apply list_elem_of_In in Hin.
    unfold Shell.shows in Hshow. apply bool_decide_eq_true in Hshow.
    exists (Shell.raise_app a (Shell.topZ s + 1) w0).
    split; [by apply list_elem_of_fmap_2 |].
    rewrite raise_app_app, raise_app_zIndex, decide_True by done.
    split; [done |]. split; [done |].
    intros w' Hw' Hne. apply list_elem_of_fmap in Hw' as (w1 & -> & Hw1).
    rewrite raise_app_zIndex.
    destruct (decide (App.id (OpenWindow.app w1) = App.id a)) as [Heq|Hneq].
    + destruct Hne. f_equal.
      apply (NoDup_fmap_eq (λ w, App.id (OpenWindow.app w))
               (Shell.openWindows s)); [done | done | done | congruence].
    + specialize (Hz _ Hw1). simpl in Hz. lia.
  - exists (OpenWindow.mk (App.id a +:+ pretty now) a (Shell.topZ s + 1)).
    split; [apply elem_of_app; right; apply list_elem_of_here |].
    split; [done |]. split; [done |].
    intros w' Hw' Hne. simpl.
    apply elem_of_app in Hw' as [Hw'|Hw'].
    + specialize (Hz _ Hw'). simpl in Hz. lia.
    + apply list_elem_of_singleton in Hw'. done.
Qed.

Lemma launchApp_topZ now a s :
  Settings.openInIframe (Shell.localSettings s) = true →
  Shell.topZ (Shell.launchApp now a s) = Shell.topZ s + 1.
Proof.
  intros Hframe. unfold Shell.launchApp. rewrite Hframe.
  by destruct (List.find (Shell.shows a) (Shell.openWindows s)).
Qed.

(** C1 (z-order monotonicity).  After any sequence of intents, a Focus
    takes the next value of the counter, gives it to the window with the
    focused id and leaves every other window as it was, so the focused
    window is strictly above every window with another id; an effective
    Launch does the same for the launched window.  When the launched apps
    have ids of one length, as the generated ids do, window ids are
    pairwise different, and the focused window is strictly above the
    window at every other position of the list. *)
Theorem zorder_last_raised_on_top (ops : list Shell.Op) loaded settings :
  let s := Shell.exec ops (Shell.init loaded settings) in
  (∀ windowId,
     let s' := Shell.focusWindow windowId s in
     Shell.topZ s' = Shell.topZ s + 1
     ∧ length (Shell.openWindows s') = length (Shell.openWindows s)
     ∧ (∀ i w, Shell.openWindows s !! i = Some w →
          Shell.openWindows s' !! i
          = Some (if decide (OpenWindow.id w = windowId)
                  then OpenWindow.mk (OpenWindow.id w) (OpenWindow.app w)
                         (Shell.topZ s + 1)
                  else w))
     ∧ (∀ w w', w ∈ Shell.openWindows s' → w' ∈ Shell.openWindows s' →
          OpenWindow.id w = windowId → OpenWindow.id w' ≠ windowId →
          OpenWindow.zIndex w' < OpenWindow.zIndex w))
  ∧ (∀ now a,
       Settings.openInIframe (Shell.localSettings s) = true →
       let s' := Shell.launchApp now a s in
       Shell.topZ s' = Shell.topZ s + 1
       ∧ ∃ w, w ∈ Shell.openWindows s'
              ∧ App.id (OpenWindow.app w) = App.id a
              ∧ OpenWindow.zIndex w = Shell.topZ s + 1
              ∧ ∀ w', w' ∈ Shell.openWindows s' → w' ≠ w →
                      OpenWindow.zIndex w' < OpenWindow.zIndex w)
  ∧ (∀ n windowId i j w w',
       Forall (Shell.launchesOfLength n) ops →
       let s' := Shell.focusWindow windowId s in
       Shell.openWindows s' !! i = Some w →
       Shell.openWindows s' !! j = Some w' →
       OpenWindow.id w = windowId → i ≠ j →
       OpenWindow.zIndex w' < OpenWindow.zIndex w).
Proof.
  intros s.
  assert (Hinv : Shell.wm_inv s) by apply wm_inv_exec, wm_inv_init.
  split; [| split].
  - intros k s'. split; [done |]. split; [apply length_fmap |]. split.
    + intros i w Hi. subst s'. simpl. rewrite list_lookup_fmap, Hi. simpl.
      unfold Shell.raise_window. by case_bool_decide; case_decide.
    + intros w w'. by apply focusWindow_on_top.
  - intros now a Hframe s'. split; [by apply launchApp_topZ |].
    by apply launchApp_on_top.
  - intros n k i j w w' Hops s' Hi Hj Hk Hij.
    assert (Hnd : NoDup (Shell.windowIds s')).
    { subst s'. rewrite windowIds_focusWindow.
      apply (windowIds_NoDup n); [done |].
      by apply stamped_exec; [| apply Forall_nil_2]. }
    apply (focusWindow_on_top s k); [done | | | done |].
    + by eapply list_elem_of_lookup_2.
    + by eapply list_elem_of_lookup_2.
    + intros Hk'. apply Hij.
      apply (NoDup_lookup (Shell.windowIds s') i j k); [done | |];
        unfold Shell.windowIds; rewrite list_lookup_fmap.
      * by rewrite Hi, <- Hk.
      * by rewrite Hj, <- Hk'.
Qed.

Lemma zorder_last_raised_on_top_witness :
  (∀ w w',
     w ∈ Shell.openWindows
           (Shell.focusWindow "a5"
              (Shell.exec Examples.twoOpen
                 (Shell.init [] Settings.DEFAULT_SETTINGS))) →
     w' ∈ Shell.openWindows
            (Shell.focusWindow "a5"
               (Shell.exec Examples.twoOpen
                  (Shell.init [] Settings.DEFAULT_SETTINGS))) →
     OpenWindow.id w = "a5"%string → OpenWindow.id w' ≠ "a5"%string →
     OpenWindow.zIndex w' < OpenWindow.zIndex w)
  ∧ Shell.topZ
      (Shell.launchApp 9 Examples.appA
         (Shell.exec Examples.twoOpen
            (Shell.init [] Settings.DEFAULT_SETTINGS)))
    = 103.
Proof.
  destruct (zorder_last_raised_on_top Examples.twoOpen []
              Settings.DEFAULT_SETTINGS) as (Hfocus & Hlaunch & _).
  split.
  - apply Hfocus.
  - apply (Hlaunch 9 Examples.appA eq_refl).
Defined.

End WindowManager.

Section LaunchAndDelete.

Import Desktop.

Implicit Types (d : Desktop.state) (a : App.t).

Lemma launchApp_existing now a s :
  Settings.openInIframe (Shell.localSettings s) = true →
  App.id a ∈ Shell.appIds s →
  Shell.launchApp now a s
  = Shell.set_windows
      (Shell.raise_app a (Shell.topZ s + 1) <$> Shell.openWindows s)
      (Shell.topZ s + 1) s.
Proof.
  intros Hframe Hin. unfold Shell.launchApp. rewrite Hframe.
  apply find_shows_Some in Hin as [w Hw]. by rewrite Hw.
Qed.

(** C2 (single window per app).  Launching an app that already has an open
    window, whatever the phase of that window, adds no window: the list
    keeps its length and exactly one window of that app, that window gets
    the next value of the counter, and every other field of every window
    (id, app, and the position, phase and timers of the mounted windows)
    is unchanged. *)
Theorem relaunch_raises_single_window
    evs loaded settings width height a rx ry :
  let d := run evs (init loaded settings width height) in
  let d' := step (Launch a rx ry) d in
  Settings.openInIframe (Shell.localSettings (shell d)) = true →
  App.id a ∈ Shell.appIds (shell d) →
  length (Shell.openWindows (shell d')) = length (Shell.openWindows (shell d))
  ∧ length (filter (λ w, App.id (OpenWindow.app w) = App.id a)
                   (Shell.openWindows (shell d'))) = 1%nat
  ∧ (∀ i w, Shell.openWindows (shell d) !! i = Some w →
       Shell.openWindows (shell d') !! i
       = Some (if decide (App.id (OpenWindow.app w) = App.id a)
               then OpenWindow.mk (OpenWindow.id w) (OpenWindow.app w)
                      (Shell.topZ (shell d) + 1)
               else w))
  ∧ Shell.topZ (shell d') = Shell.topZ (shell d) + 1
  ∧ mounted d' = mounted d
  ∧ timers d' = timers d.
Proof.
  intros d d' Hframe Hin.
  assert (Hinv : inv d) by apply inv_run, inv_init.
  destruct Hinv as [[Hz Hnd] Hkeys].
  subst d'. simpl. rewrite (launchApp_existing _ _ _ Hframe Hin). simpl.
  split; [apply length_fmap |]. split.
  { apply filter_unique.
    - by rewrite appIds_raise_app.
    - by rewrite appIds_raise_app. }
  split.
  { intros i w Hi. rewrite list_lookup_fmap, Hi. simpl.
    unfold Shell.raise_app, Shell.shows. by case_bool_decide; case_decide. }
  split; [done |]. split; [| done].
  apply reconcile_id. by rewrite windowIds_raise_app.
Qed.

Lemma relaunch_raises_single_window_witness :
  Settings.openInIframe
    (Shell.localSettings (shell (run Examples.busy Examples.desk))) = true
  ∧ length (filter (λ w, App.id (OpenWindow.app w) = App.id Examples.appA)
              (Shell.openWindows
                 (shell (step (Launch Examples.appA 1 1)
                           (run Examples.busy Examples.desk))))) = 1%nat.
Proof.
  split; [reflexivity |].
  apply (relaunch_raises_single_window Examples.busy
           [Examples.appA; Examples.appB; Examples.appC]
           Settings.DEFAULT_SETTINGS 1280 720 Examples.appA 1 1).
  - reflexivity.
  - vm_compute. apply list_elem_of_here.
Defined.

(** C10.  With [openInIframe] off, a launch leaves the window manager
    alone: the open windows, the counter, the mounted windows and the
    timers are unchanged, and the app's URL goes to [window.open]. *)
Theorem launch_external_leaves_windows
    evs loaded settings width height a rx ry :
  let d := run evs (init loaded settings width height) in
  let d' := step (Launch a rx ry) d in
  Settings.openInIframe (Shell.localSettings (shell d)) = false →
  Shell.openWindows (shell d') = Shell.openWindows (shell d)
  ∧ Shell.topZ (shell d') = Shell.topZ (shell d)
  ∧ mounted d' = mounted d
  ∧ timers d' = timers d
  ∧ Shell.externalTabs (shell d')
    = Shell.externalTabs (shell d) ++ [App.url a].
Proof.
  intros d d' Hframe.
  assert (Hinv : inv d) by apply inv_run, inv_init.
  destruct Hinv as [_ Hkeys].
  subst d'. simpl. unfold Shell.launchApp. rewrite Hframe. simpl.
  repeat split. by apply reconcile_id.
Qed.

Lemma launch_external_leaves_windows_witness :
  Settings.openInIframe
    (Shell.localSettings (shell (run [] Examples.deskExternal))) = false
  ∧ Shell.openWindows
      (shell (step (Launch Examples.appA 1 1) (run [] Examples.deskExternal)))
    = [].
Proof.
  split; [reflexivity |].
  apply (launch_external_leaves_windows []
           [Examples.appA; Examples.appB; Examples.appC]
           Examples.external 1280 720 Examples.appA 1 1).
  reflexivity.
Defined.

(** C4, as the code has it.  Deleting a shortcut removes it from the app
    list (and from the saved list) and does nothing else: the open
    windows, among them a window of the deleted app, the counter, the
    mounted windows and the timers stay as they were. *)
Theorem delete_app_keeps_windows appId d :
  let d' := step (DeleteApp appId) d in
  (∀ a, a ∈ Shell.apps (shell d')
        ↔ a ∈ Shell.apps (shell d) ∧ App.id a ≠ appId)
  ∧ Shell.storedApps (shell d') = Shell.apps (shell d')
  ∧ Shell.openWindows (shell d') = Shell.openWindows (shell d)
  ∧ Shell.topZ (shell d') = Shell.topZ (shell d)
  ∧ mounted d' = mounted d
  ∧ timers d' = timers d.
Proof.
  simpl. split; [| done].
  intros a. rewrite list_elem_of_filter. tauto.
Qed.

(** C4 fails as stated: after launching app [a] and deleting its shortcut,
    the window of [a] is still open. *)
Lemma delete_app_leaves_window_open :
  ¬ (Forall (λ a, App.id a ≠ "a"%string)
       (Shell.apps
          (shell (run [Launch Examples.appA 0 0; DeleteApp "a"] Examples.desk)))
     ∧ Forall (λ w, App.id (OpenWindow.app w) ≠ "a"%string)
         (Shell.openWindows
            (shell (run [Launch Examples.appA 0 0; DeleteApp "a"]
                      Examples.desk)))).
Proof.
  intros [_ Hws]. vm_compute in Hws. apply Forall_cons in Hws as [Hw _].
  by apply Hw.
Qed.

End LaunchAndDelete.

Section Dragging.

Import Desktop.

Implicit Types (d : Desktop.state) (k : string) (v : View).

Lemma handleMouseMove_clamped clientX clientY width height s :
  AppWindow.isDragging s = true →
  let s' := AppWindow.handleMouseMove clientX clientY width height s in
  AppWindow.size s' = AppWindow.size s
  ∧ 0 ≤ Point.x (AppWindow.pos s')
      ≤ Z.max 0 (Double.sub width (Size.w (AppWindow.size s)))
  ∧ 0 ≤ Point.y (AppWindow.pos s')
      ≤ Z.max 0 (Double.sub height (Size.h (AppWindow.size s))).
Proof.
  intros Hdrag. unfold AppWindow.handleMouseMove. rewrite Hdrag. simpl.
  split; [done | lia].
Qed.

(** C3, as the code has it.  A pointer move updates the position of the
    window that is being dragged, and the new position satisfies
    [0 ≤ x ≤ max 0 (viewportWidth - width)] and
    [0 ≤ y ≤ max 0 (viewportHeight - height)] for every pointer position;
    so the bounds of the claim hold whenever the viewport is at least as
    large as the window.  The left and top edges win over the right and
    bottom ones.  The differences are those of the code, taken in
    doubles; for a viewport and a window of whole pixels (the viewport's
    size is an integer and the window is 900 by 580) they are exact. *)
Theorem drag_clamped d clientX clientY k v :
  mounted d !! k = Some v →
  AppWindow.isDragging (win v) = true →
  ∃ p, posOf k (step (MouseMove clientX clientY) d) = Some p
       ∧ 0 ≤ Point.x p
           ≤ Z.max 0 (Double.sub (innerWidth d)
                        (Size.w (AppWindow.size (win v))))
       ∧ 0 ≤ Point.y p
           ≤ Z.max 0 (Double.sub (innerHeight d)
                        (Size.h (AppWindow.size (win v))))
       ∧ (Size.w (AppWindow.size (win v)) ≤ innerWidth d →
          Point.x p ≤ Double.sub (innerWidth d)
                        (Size.w (AppWindow.size (win v))))
       ∧ (Size.h (AppWindow.size (win v)) ≤ innerHeight d →
          Point.y p ≤ Double.sub (innerHeight d)
                        (Size.h (AppWindow.size (win v))))
       ∧ (∀ W H w h,
            innerWidth d = Double.int W → innerHeight d = Double.int H →
            AppWindow.size (win v) = Size.mk (Double.int w) (Double.int h) →
            Z.abs (W - w) < 2 ^ 53 → Z.abs (H - h) < 2 ^ 53 →
            Point.x p ≤ Double.int (Z.max 0 (W - w))
            ∧ Point.y p ≤ Double.int (Z.max 0 (H - h))).
Proof.
  intros Hk Hdrag. unfold posOf. simpl. rewrite lookup_fmap, Hk. simpl.
  eexists. split; [reflexivity |].
  destruct (handleMouseMove_clamped clientX clientY (innerWidth d)
              (innerHeight d) (win v) Hdrag) as (_ & Hx & Hy).
  split; [done |]. split; [done |]. split; [| split].
  - intros Hfit. apply sub_nonneg in Hfit. lia.
  - intros Hfit. apply sub_nonneg in Hfit. lia.
  - intros W H w h HW HH Hsize HWw HHh.
    rewrite HW, HH, Hsize in Hx, Hy. simpl in Hx, Hy.
    rewrite sub_int in Hx, Hy by done. rewrite HW, HH, !int_max.
    change (Double.int 0) with 0. lia.
Qed.

Lemma drag_clamped_witness :
  ∃ p, posOf "a0" (step (MouseMove (Double.int 5000) (Double.int (-40)))
                     (run Examples.dragging Examples.desk)) = Some p
       ∧ 0 ≤ Point.x p ≤ Double.int (Z.max 0 (1280 - 900))
       ∧ 0 ≤ Point.y p ≤ Double.int (Z.max 0 (720 - 580)).
Proof.
  destruct (drag_clamped (run Examples.dragging Examples.desk)
              (Double.int 5000) (Double.int (-40)) "a0"
              (mkView 0 (AppWindow.mk
                           (Point.mk (Double.int 80) (Double.int 60))
                           (Size.mk (Double.int 900) (Double.int 580))
                           AppWindow.open true
                           (Point.mk (Double.int 20) (Double.int 10)))))
    as (p & Hp & Hx & Hy & _ & _ & Hpx).
  - reflexivity.
  - reflexivity.
  - exists p. split; [exact Hp |].
    destruct (Hpx 1280 720 900 580) as [Hx' Hy'];
      [reflexivity | reflexivity | reflexivity | by vm_compute
      | by vm_compute |].
    split; [split; [apply Hx | exact Hx'] | split; [apply Hy | exact Hy']].
Defined.

(** C3 fails as stated: in a viewport of 800 by 600 the window, 900 wide,
    is dragged to [x = 0], which is not below [800 - 900]. *)
Lemma drag_in_narrow_viewport_exceeds :
  ∃ p, posOf "a0" (step (MouseMove (Double.int 50) (Double.int 50))
                     (run Examples.dragging Examples.narrow)) = Some p
       ∧ ¬ (0 ≤ Point.x p ≤ Double.int (800 - 900)
            ∧ 0 ≤ Point.y p ≤ Double.int (600 - 580)).
Proof.
  exists (Point.mk 0 (Double.int 20)). split; [reflexivity |].
  simpl. intros [[_ Hx] _]. by vm_compute in Hx.
Qed.

End Dragging.

Section MinimizeRestore.

Import Desktop.

Implicit Types (d : Desktop.state) (k : string) (v : View).
Implicit Types (h : AppWindow.state → AppWindow.state * (Z * AppWindow.WindowPhase)).

Lemma lookup_click h k d k' :
  mounted (click h k d) !! k'
  = if decide (k = k')
    then (λ v, mkView (inst v) (h (win v)).1) <$> mounted d !! k
    else mounted d !! k'.
Proof.
  unfold click. destruct (mounted d !! k) as [v|] eqn:Hk.
  - cbn [fmap option_fmap option_map].
    destruct (h (win v)) as [s' [delay ph]]. simpl.
    case_decide as Hkk; [subst k'; by rewrite lookup_insert_eq |].
    by rewrite lookup_insert_ne.
  - case_decide; [by subst k' | done].
Qed.

Lemma dialogShown_phase k d :
  dialogShown k d = true
  ↔ ∃ ph, phaseOf k d = Some ph ∧ ph ≠ AppWindow.minimized.
Proof.
  unfold dialogShown, phaseOf, AppWindow.rendersDialog.
  destruct (mounted d !! k) as [v|]; simpl.
  - case_bool_decide as Hph; simpl; split.
    + done.
    + intros (ph & [= <-] & Hne). done.
    + intros _. eauto.
    + done.
  - split; [done | by intros (ph & ? & _)].
Qed.

Lemma restoreShown_phase k d :
  restoreShown k d = true ↔ phaseOf k d = Some AppWindow.minimized.
Proof.
  unfold restoreShown, phaseOf, AppWindow.rendersDialog.
  destruct (mounted d !! k) as [v|]; simpl; [| done].
  case_bool_decide as Hph; simpl; split; try done.
  - intros _. by rewrite Hph.
  - intros [= Heq]. done.
Qed.

Lemma posOf_click h k d k' :
  (∀ s, AppWindow.pos (h s).1 = AppWindow.pos s) →
  posOf k' (click h k d) = posOf k' d.
Proof.
  intros Hpos. unfold posOf. rewrite lookup_click.
  case_decide as Hkk; [subst k' | done].
  destruct (mounted d !! k) as [v|]; simpl; [| done]. by rewrite Hpos.
Qed.

Lemma phaseOf_click h k d ph :
  (∀ s, AppWindow.phase (h s).1 = ph) →
  is_Some (mounted d !! k) →
  phaseOf k (click h k d) = Some ph.
Proof.
  intros Hph [v Hv]. unfold phaseOf. rewrite lookup_click.
  rewrite decide_True by done. rewrite Hv. simpl. by rewrite Hph.
Qed.

Lemma elem_of_schedule t u q : u ∈ schedule t q ↔ u = t ∨ u ∈ q.
Proof.
  induction q as [|w q IH]; simpl.
  - rewrite list_elem_of_singleton, elem_of_nil. tauto.
  - case_decide; rewrite !elem_of_cons; [rewrite IH |]; tauto.
Qed.

Lemma length_schedule t q : length (schedule t q) = S (length q).
Proof.
  induction q as [|w q IH]; simpl; [done |].
  case_decide; simpl; by rewrite ?IH.
Qed.

Lemma timers_click h k d v :
  mounted d !! k = Some v →
  timers (click h k d)
  = schedule (mkTimer (clock d + (h (win v)).2.1) k (inst v) (h (win v)).2.2)
      (timers d).
Proof.
  intros Hk. unfold click. rewrite Hk.
  by destruct (h (win v)) as [s' [delay ph]].
Qed.

(** C5, as the code has it.  Neither button raises an error or touches the
    shell (app, zIndex) or a position.  The restore button is on screen in
    phase [minimized] only and the minimize button in every other phase,
    so Restore on a window that is not minimized and Minimize on a
    minimized window change nothing.  The handlers themselves are not
    guarded: Minimize in phase [minimizing] or [restoring] sets the phase
    to [minimizing] (a change for a restoring window) and sets another
    timer, due 260 ms later, beside the ones that are pending: no click
    cancels a timer. *)
Theorem minimize_restore_outside_their_phase d k :
  (shell (step (MinimizeClick k) d) = shell d
   ∧ shell (step (RestoreClick k) d) = shell d)
  ∧ (∀ k', posOf k' (step (MinimizeClick k) d) = posOf k' d
           ∧ posOf k' (step (RestoreClick k) d) = posOf k' d)
  ∧ (phaseOf k d ≠ Some AppWindow.minimized → step (RestoreClick k) d = d)
  ∧ (phaseOf k d = Some AppWindow.minimized → step (MinimizeClick k) d = d)
  ∧ (∀ ph, phaseOf k d = Some ph → ph ≠ AppWindow.minimized →
       phaseOf k (step (MinimizeClick k) d) = Some AppWindow.minimizing)
  ∧ (∀ s, AppWindow.phase (AppWindow.handleMinimize s).1 = AppWindow.minimizing
          ∧ AppWindow.phase (AppWindow.handleRestore s).1 = AppWindow.restoring)
  ∧ (∀ v, mounted d !! k = Some v →
          AppWindow.phase (win v) ≠ AppWindow.minimized →
          timers (step (MinimizeClick k) d)
          = schedule (mkTimer (clock d + 260) k (inst v) AppWindow.minimized)
              (timers d)
          ∧ length (timers (step (MinimizeClick k) d))
            = S (length (timers d)))
  ∧ (∀ t, t ∈ timers d →
          t ∈ timers (step (MinimizeClick k) d)
          ∧ t ∈ timers (step (RestoreClick k) d)).
Proof.
  split; [| split; [| split; [| split; [| split; [| split; [| split]]]]]].
  - simpl. destruct (dialogShown k d), (restoreShown k d);
      by rewrite ?shell_click.
  - intros k'. simpl. destruct (dialogShown k d), (restoreShown k d);
      by rewrite ?posOf_click.
  - intros Hph. simpl. destruct (restoreShown k d) eqn:Hshown; [| done].
    by apply restoreShown_phase in Hshown.
  - intros Hph. simpl. destruct (dialogShown k d) eqn:Hshown; [| done].
    apply dialogShown_phase in Hshown as (ph & Hph' & Hne). congruence.
  - intros ph Hph Hne. simpl.
    assert (Hshown : dialogShown k d = true)
      by (apply dialogShown_phase; eauto).
    rewrite Hshown. apply phaseOf_click; [done |].
    unfold phaseOf in Hph. by destruct (mounted d !! k).
  - done.
  - intros v Hk Hph. simpl.
    assert (Hshown : dialogShown k d = true).
    { unfold dialogShown, AppWindow.rendersDialog. rewrite Hk.
      by rewrite bool_decide_eq_false_2. }
    rewrite Hshown, (timers_click _ _ _ v Hk). simpl.
    split; [done | apply length_schedule].
  - intros t Ht. simpl.
    split; [destruct (dialogShown k d) | destruct (restoreShown k d)];
      try done.
    + unfold click. destruct (mounted d !! k) as [v|]; [| done]. simpl.
      apply elem_of_schedule. by right.
    + unfold click. destruct (mounted d !! k) as [v|]; [| done]. simpl.
      apply elem_of_schedule. by right.
Qed.

Lemma minimize_restore_outside_their_phase_witness :
  phaseOf "a0" (run Examples.restoringA Examples.desk)
  = Some AppWindow.restoring
  ∧ step (RestoreClick "a0") (run Examples.restoringA Examples.desk)
    = run Examples.restoringA Examples.desk
  ∧ phaseOf "a0"
      (step (MinimizeClick "a0") (run Examples.restoringA Examples.desk))
    = Some AppWindow.minimizing
  ∧ timers (step (MinimizeClick "a0") (run Examples.restoringA Examples.desk))
    = [mkTimer 520 "a0" 0 AppWindow.minimized;
       mkTimer 580 "a0" 0 AppWindow.open].
Proof.
  split; [reflexivity |]. split; [| split].
  - apply (minimize_restore_outside_their_phase
             (run Examples.restoringA Examples.desk) "a0"). by vm_compute.
  - apply (proj1 (proj2 (proj2 (proj2 (proj2
             (minimize_restore_outside_their_phase
                (run Examples.restoringA Examples.desk) "a0")))))
             AppWindow.restoring); [reflexivity | done].
  - destruct (proj1 (proj2 (proj2 (proj2 (proj2 (proj2 (proj2
                (minimize_restore_outside_their_phase
                   (run Examples.restoringA Examples.desk) "a0")))))))
                (mkView 0 (AppWindow.setPhase AppWindow.restoring
                             (AppWindow.setPhase AppWindow.minimized
                                (AppWindow.setPhase AppWindow.minimizing
                                   (AppWindow.mount None 0 0))))))
      as [Htimers _]; [reflexivity | done |].
    rewrite Htimers. reflexivity.
Defined.

(** C5 fails as stated: a window in phase [restoring] still shows its
    minimize button, and a click on it changes the phase. *)
Lemma minimize_while_restoring_changes_phase :
  phaseOf "a0" (run Examples.restoringA Examples.desk)
  = Some AppWindow.restoring
  ∧ phaseOf "a0"
      (step (MinimizeClick "a0") (run Examples.restoringA Examples.desk))
    ≠ phaseOf "a0" (run Examples.restoringA Examples.desk).
Proof. split; [reflexivity |]. by vm_compute. Qed.

End MinimizeRestore.

Section Timers.

Import Desktop.

Implicit Types (d : Desktop.state) (k : string) (v : View) (i : nat).
Implicit Types (t : Timer) (q ts : list Timer) (m : gmap string View).
Implicit Types (h : AppWindow.state → AppWindow.state * (Z * AppWindow.WindowPhase)).

Lemma schedule_split t q : ∃ q1 q2, schedule t q = q1 ++ t :: q2 ∧ q = q1 ++ q2.
Proof.
  induction q as [|u q IH]; simpl.
  - by exists [], [].
  - case_decide.
    + destruct IH as (q1 & q2 & -> & ->). by exists (u :: q1), q2.
    + by exists [], (u :: q).
Qed.

Lemma quiet_app k i q1 q2 : quiet k i (q1 ++ q2) ↔ quiet k i q1 ∧ quiet k i q2.
Proof. apply Forall_app. Qed.

Lemma quiet_filter (P : Timer → Prop) `{∀ t, Decision (P t)} k i q :
  quiet k i q → quiet k i (filter P q).
Proof.
  unfold quiet. rewrite !Forall_forall. intros Hq t Ht.
  apply list_elem_of_filter in Ht as [_ Ht]. by apply Hq.
Qed.

Lemma fire_quiet t m k v :
  m !! k = Some v → ¬ targets k (inst v) t → fire t m !! k = Some v.
Proof.
  intros Hk Ht. unfold fire.
  destruct (m !! key t) as [u|] eqn:Hu; [| done].
  case_decide as Hi; [| done].
  destruct (decide (key t = k)) as [Hkey|Hkey].
  - destruct Ht. split; [done |]. rewrite Hkey in Hu. congruence.
  - by rewrite lookup_insert_ne.
Qed.

Lemma fire_hit t m k v :
  m !! k = Some v → targets k (inst v) t →
  fire t m !! k = Some (mkView (inst v) (AppWindow.setPhase (setTo t) (win v))).
Proof.
  intros Hk [Hkey Hi]. unfold fire. rewrite Hkey, Hk.
  rewrite decide_True by done. by rewrite lookup_insert_eq.
Qed.

Lemma fire_all_quiet ts m k v :
  m !! k = Some v → quiet k (inst v) ts → fire_all ts m !! k = Some v.
Proof.
  revert m. induction ts as [|t ts IH]; intros m Hk Hq; [done |].
  apply Forall_cons in Hq as [Ht Hq]. unfold fire_all in *. simpl.
  apply IH; [| done]. by apply fire_quiet.
Qed.






End Timers.

Section ClosePending.

Import Desktop.

Implicit Types (d : Desktop.state) (k : string) (e : Event) (v : View).
Implicit Types (m : gmap string View) (s : Shell.state) (a : App.t).

(** An event other than a launch opens no window and mounts none. *)
Lemma step_no_launch_keys e d k :
  isLaunch e = false →
  (k ∈ Shell.windowIds (shell (step e d)) → k ∈ Shell.windowIds (shell d))
  ∧ (mounted d !! k = None → mounted (step e d) !! k = None).
Proof.
  intros He.
  destruct e as [a rx ry|k0|k0|k0 cx cy|cx cy| |k0|k0|ms|w h|appId|l|st];
    try discriminate He; simpl.
  - destruct (dialogShown k0 d); [| done]. simpl. split.
    + change (OpenWindow.id <$> filter (λ w, OpenWindow.id w ≠ k0)
                                  (Shell.openWindows (shell d)))
        with (Shell.windowIds (Shell.closeWindow k0 (shell d))).
      rewrite windowIds_closeWindow, list_elem_of_filter. tauto.
    + intros Hk. apply reconcile_None_lookup. by right.
  - destruct (dialogShown k0 d); [| done]. simpl.
    by rewrite windowIds_focusWindow.
  - destruct (dialogShown k0 d); [| done]. simpl.
    rewrite !windowIds_focusWindow. split; [done |].
    intros Hk. rewrite lookup_alter. case_decide; [subst k0 |]; by rewrite Hk.
  - split; [done |]. intros Hk. by rewrite lookup_fmap, Hk.
  - split; [done |]. intros Hk. by rewrite lookup_fmap, Hk.
  - destruct (dialogShown k0 d); [| done]. rewrite shell_click.
    split; [done |]. rewrite <- !not_elem_of_dom. by rewrite dom_click.
  - destruct (restoreShown k0 d); [| done]. rewrite shell_click.
    split; [done |]. rewrite <- !not_elem_of_dom. by rewrite dom_click.
  - split; [done |]. rewrite <- !not_elem_of_dom. by rewrite dom_fire_all.
  - done.
  - done.
  - done.
  - done.
Qed.

Lemma run_no_launch_keys evs d k :
  Forall (λ e, isLaunch e = false) evs →
  k ∉ Shell.windowIds (shell d) → mounted d !! k = None →
  (k ∉ Shell.windowIds (shell (run evs d))) ∧ mounted (run evs d) !! k = None.
Proof.
  revert d. induction evs as [|e evs IH]; intros d Hevs Hw Hm; [done |].
  apply Forall_cons in Hevs as [He Hevs].
  destruct (step_no_launch_keys e d k He) as [Hw' Hm'].
  apply IH; [done | | by apply Hm'].
  intros Hin. by apply Hw, Hw'.
Qed.

Lemma closeWindow_absent k s : k ∉ Shell.windowIds (Shell.closeWindow k s).
Proof. rewrite windowIds_closeWindow, list_elem_of_filter. tauto. Qed.

Lemma windowIds_launchApp now a s k :
  k ∈ Shell.windowIds (Shell.launchApp now a s) →
  k ∈ Shell.windowIds s
  ∨ (Settings.openInIframe (Shell.localSettings s) = true
     ∧ List.find (Shell.shows a) (Shell.openWindows s) = None
     ∧ k = App.id a +:+ pretty now).
Proof.
  unfold Shell.launchApp, Shell.windowIds.
  destruct (Settings.openInIframe (Shell.localSettings s)); [| by left].
  destruct (List.find (Shell.shows a) (Shell.openWindows s)); simpl.
  - rewrite windowIds_raise_app. by left.
  - rewrite fmap_app, elem_of_app. simpl. rewrite list_elem_of_singleton.
    intros [Hk|Hk]; [by left | by right].
Qed.

Lemma prefixed_apply o s :
  Forall Shell.prefixed (Shell.openWindows s) →
  Forall Shell.prefixed (Shell.openWindows (Shell.apply o s)).
Proof.
  intros Hs. destruct o as [now a|k0|k0|appId|l|st]; simpl in *; try done.
  - unfold Shell.launchApp.
    destruct (Settings.openInIframe (Shell.localSettings s)); [| done].
    destruct (List.find (Shell.shows a) (Shell.openWindows s)); simpl.
    + apply Forall_fmap. eapply Forall_impl; [exact Hs |].
      intros w [suffix Hid]. unfold Shell.prefixed. simpl.
      rewrite raise_app_app, raise_app_id. eauto.
    + apply Forall_app. split; [done |]. apply Forall_singleton.
      by eexists.
  - apply Forall_fmap. eapply Forall_impl; [exact Hs |].
    intros w [suffix Hid]. unfold Shell.prefixed. simpl.
    rewrite raise_window_app, raise_window_id. eauto.
  - rewrite Forall_forall in *. intros w Hw.
    apply list_elem_of_filter in Hw as [_ Hw]. by apply Hs.
Qed.

Lemma prefixed_run evs loaded settings width height :
  Forall Shell.prefixed
    (Shell.openWindows (shell (run evs (init loaded settings width height)))).
Proof.
  destruct (shell_run evs (init loaded settings width height)) as [ops ->].
  assert (Hgen : ∀ s, Forall Shell.prefixed (Shell.openWindows s) →
                      Forall Shell.prefixed
                        (Shell.openWindows (Shell.exec ops s))).
  { induction ops as [|o ops IH]; intros s Hs; [done |].
    apply IH. by apply prefixed_apply. }
  apply Hgen. simpl. apply Forall_nil_2.
Qed.

(** Timer callbacks and clicks keep the instance of every mounted window. *)
Lemma insts_fire t m : inst <$> fire t m = inst <$> m.
Proof.
  unfold fire. destruct (m !! key t) as [v|] eqn:Hv; [| done].
  case_decide; [| done]. rewrite fmap_insert. simpl.
  apply insert_id. by rewrite lookup_fmap, Hv.
Qed.

Lemma insts_fire_all ts m : inst <$> fire_all ts m = inst <$> m.
Proof.
  revert m. induction ts as [|t ts IH]; intros m; [done |].
  change (fire_all (t :: ts) m) with (fire_all ts (fire t m)).
  by rewrite IH, insts_fire.
Qed.

(** Where the instance mounted under a key after an event comes from: it
    was mounted under that key before the event, or the event is a launch
    that mounted it, with the number of the counter. *)
Lemma inst_step e d k v' :
  mounted (step e d) !! k = Some v' →
  (∃ v, mounted d !! k = Some v ∧ inst v = inst v')
  ∨ (isLaunch e = true ∧ inst v' = nextInst d ∧ mounted d !! k = None
     ∧ k ∈ Shell.windowIds (shell (step e d))).
Proof.
  destruct e as [a rx ry|k0|k0|k0 cx cy|cx cy| |k0|k0|ms|w h|appId|l|st];
    simpl.
  - rewrite lookup_reconcile. case_decide as Hin; [| done].
    destruct (mounted d !! k) as [v|] eqn:Hv.
    + intros [= <-]. left. eauto.
    + intros [= <-]. by right.
  - destruct (dialogShown k0 d); [| by left; eauto]. simpl.
    rewrite lookup_reconcile. case_decide as Hin; [| done].
    destruct (mounted d !! k) as [v|] eqn:Hv; [| done].
    intros [= <-]. left. eauto.
  - destruct (dialogShown k0 d); left; eauto.
  - destruct (dialogShown k0 d); [| by left; eauto]. simpl.
    rewrite lookup_alter. case_decide as Hk; [subst k0 | by left; eauto].
    destruct (mounted d !! k) as [v|] eqn:Hv; [| done].
    intros [= <-]. left. eauto.
  - rewrite lookup_fmap. destruct (mounted d !! k) as [v|] eqn:Hv; [| done].
    intros [= <-]. left. eauto.
  - rewrite lookup_fmap. destruct (mounted d !! k) as [v|] eqn:Hv; [| done].
    intros [= <-]. left. eauto.
  - destruct (dialogShown k0 d); [| by left; eauto].
    rewrite lookup_click. case_decide as Hk; [subst k0 | by left; eauto].
    destruct (mounted d !! k) as [v|] eqn:Hv; [| done].
    intros [= <-]. left. eauto.
  - destruct (restoreShown k0 d); [| by left; eauto].
    rewrite lookup_click. case_decide as Hk; [subst k0 | by left; eauto].
    destruct (mounted d !! k) as [v|] eqn:Hv; [| done].
    intros [= <-]. left. eauto.
  - intros Hk. left.
    assert (Hi : (inst <$> fire_all (filter (isDue (clock d + Z.max 0 ms))
                                       (timers d)) (mounted d)) !! k
                 = Some (inst v')) by by rewrite lookup_fmap, Hk.
    rewrite insts_fire_all, lookup_fmap in Hi.
    destruct (mounted d !! k) as [v|]; [| done].
    injection Hi as Hi. eauto.
  - left. eauto.
  - left. eauto.
  - left. eauto.
  - left. eauto.
Qed.

Lemma nextInst_step e d :
  (nextInst d ≤ nextInst (step e d))%nat
  ∧ (isLaunch e = true → nextInst (step e d) = S (nextInst d)).
Proof.
  destruct e as [a rx ry|k0|k0|k0 cx cy|cx cy| |k0|k0|ms|w h|appId|l|st];
    simpl;
    try destruct (dialogShown k0 d); try destruct (restoreShown k0 d);
    unfold click; try destruct (mounted d !! k0) as [v|];
    simpl; (split; [lia | done]).
Qed.

Lemma insts_inv_step e d : keys_inv d → insts_inv d → insts_inv (step e d).
Proof.
  intros Hkeys [Hlt Huniq]. destruct (nextInst_step e d) as [Hle HS]. split.
  - intros k v' Hk.
    destruct (inst_step e d k v' Hk) as [(v & Hv & <-)|(He & -> & _)].
    + specialize (Hlt k v Hv). lia.
    + rewrite (HS He). lia.
  - intros k1 k2 v1 v2 H1 H2 Heq.
    destruct (inst_step e d k1 v1 H1) as [(u1 & Hu1 & E1)|(He1 & E1 & N1 & W1)];
      destruct (inst_step e d k2 v2 H2)
        as [(u2 & Hu2 & E2)|(He2 & E2 & N2 & W2)].
    + apply (Huniq k1 k2 u1 u2 Hu1 Hu2). congruence.
    + specialize (Hlt k1 u1 Hu1). lia.
    + specialize (Hlt k2 u2 Hu2). lia.
    + destruct e as [a rx ry|?|?|? ? ?|? ?| |?|?|?|? ?|?|?|?];
        try discriminate He1.
      simpl in W1, W2.
      assert (Hnew : ∀ k, mounted d !! k = None →
                          k ∈ Shell.windowIds
                                (Shell.launchApp (clock d) a (shell d)) →
                          k = App.id a +:+ pretty (clock d)).
      { intros k Hnone Hin.
        apply windowIds_launchApp in Hin as [Hin|(_ & _ & ->)]; [| done].
        apply not_elem_of_dom in Hnone. destruct Hnone.
        rewrite Hkeys. by apply elem_of_list_to_set. }
      by rewrite (Hnew k1 N1 W1), (Hnew k2 N2 W2).
Qed.

Lemma insts_inv_run evs loaded settings width height :
  insts_inv (run evs (init loaded settings width height)).
Proof.
  assert (Hgen : ∀ d, inv d → insts_inv d → insts_inv (run evs d)).
  { induction evs as [|e evs IH]; intros d Hd Hi; [done |].
    apply IH; [by apply inv_step |]. apply insts_inv_step; [apply Hd | done]. }
  apply Hgen; [apply inv_init |]. split.
  - intros k v Hk. simpl in Hk. by rewrite lookup_empty in Hk.
  - intros k1 k2 v1 v2 Hk. simpl in Hk. by rewrite lookup_empty in Hk.
Qed.

(** An instance that is below the counter and not mounted is never
    mounted again. *)
Lemma unmounted_forever (i : nat) evs d :
  (i < nextInst d)%nat →
  (∀ k v, mounted d !! k = Some v → inst v ≠ i) →
  ∀ k v, mounted (run evs d) !! k = Some v → inst v ≠ i.
Proof.
  revert d. induction evs as [|e evs IH]; intros d Hlt Hout; [done |].
  apply IH.
  - destruct (nextInst_step e d) as [Hle _]. lia.
  - intros k v' Hk.
    destruct (inst_step e d k v' Hk) as [(v & Hv & <-)|(_ & -> & _)].
    + by apply (Hout k v).
    + lia.
Qed.

(** A window id that is closed stays closed until a launch opens it. *)
Lemma step_keeps_closed e d k :
  opens e d ≠ Some k →
  k ∉ Shell.windowIds (shell d) → mounted d !! k = None →
  (k ∉ Shell.windowIds (shell (step e d))) ∧ mounted (step e d) !! k = None.
Proof.
  intros Hopens Hw Hm. destruct (isLaunch e) eqn:He.
  - destruct e as [a rx ry|?|?|? ? ?|? ?| |?|?|?|? ?|?|?|?];
      try discriminate He.
    assert (Hout : k ∉ Shell.windowIds (Shell.launchApp (clock d) a (shell d))).
    { intros Hin. apply windowIds_launchApp in Hin as [Hin|(Hf & Hn & ->)];
        [done |].
      destruct Hopens. simpl. by rewrite Hf, Hn. }
    split; [done |]. simpl. rewrite lookup_reconcile.
    by rewrite decide_False.
  - destruct (step_no_launch_keys e d k He) as [Hw' Hm'].
    split; [| by apply Hm']. intros Hin. by apply Hw, Hw'.
Qed.

Lemma run_keeps_closed evs d k :
  k ∉ opened evs d →
  k ∉ Shell.windowIds (shell d) → mounted d !! k = None →
  (k ∉ Shell.windowIds (shell (run evs d))) ∧ mounted (run evs d) !! k = None.
Proof.
  revert d. induction evs as [|e evs IH]; intros d Hopened Hw Hm; [done |].
  simpl in Hopened. rewrite not_elem_of_app in Hopened.
  destruct Hopened as [He Hevs].
  destruct (step_keeps_closed e d k) as [Hw' Hm']; [| done | done |].
  - intros Heq. rewrite Heq in He. simpl in He.
    by apply He, list_elem_of_here.
  - by apply IH.
Qed.

(** Launches of other apps, with ids of the same length, open windows
    with other ids. *)
Lemma opened_other_apps (a0 : App.t) suffix evs d :
  Forall (launchesAnother a0) evs →
  App.id a0 +:+ suffix ∉ opened evs d.
Proof.
  revert d. induction evs as [|e evs IH]; intros d Hevs.
  - apply not_elem_of_nil.
  - apply Forall_cons in Hevs as [He Hevs]. simpl.
    rewrite not_elem_of_app. split; [| by apply IH].
    destruct e as [a rx ry|?|?|? ? ?|? ?| |?|?|?|? ?|?|?|?]; simpl;
      try apply not_elem_of_nil.
    destruct (Settings.openInIframe (Shell.localSettings (shell d)));
      [| apply not_elem_of_nil].
    destruct (List.find (Shell.shows a) (Shell.openWindows (shell d)));
      [apply not_elem_of_nil |].
    simpl. rewrite list_elem_of_singleton. intros Heq.
    destruct He as [Hlen Hne]. apply Hne. symmetry.
    by apply (append_same_length_inj _ _ suffix (pretty (clock d))).
Qed.

(** C7 (close during a pending transition).  On a desktop reached by any
    events, a window in phase [minimizing] whose minimize timer is still
    pending is closed.  The timer stays in the queue, and whatever
    happens later, the timer running included, the closed window is
    never mounted again; its id is neither in [openWindows] nor mounted
    for as long as no launch opens a window with that very id, and the
    launches of other apps never do.  (A window id is
    [app.id + Date.now()], so launching the same app again within the
    millisecond of the first launch would give the id to a new window.)
    Every event is a total function of the state, so nothing is raised. *)
Theorem close_during_minimize_is_final
    evs0 loaded settings width height k v t evs :
  let d := run evs0 (init loaded settings width height) in
  mounted d !! k = Some v →
  AppWindow.phase (win v) = AppWindow.minimizing →
  t ∈ timers d → targets k (inst v) t → setTo t = AppWindow.minimized →
  let d2 := step (CloseClick k) d in
  t ∈ timers d2
  ∧ (k ∉ Shell.windowIds (shell d2))
  ∧ mounted d2 !! k = None
  ∧ (∀ k' v', mounted (run evs d2) !! k' = Some v' → inst v' ≠ inst v)
  ∧ (k ∉ opened evs d2 →
     (k ∉ Shell.windowIds (shell (run evs d2)))
     ∧ mounted (run evs d2) !! k = None)
  ∧ (∀ w, w ∈ Shell.openWindows (shell d) → OpenWindow.id w = k →
          Forall (launchesAnother (OpenWindow.app w)) evs →
          k ∉ opened evs d2).
Proof.
  intros d Hk Hph Ht Htarget Hset d2.
  assert (Hshown : dialogShown k d = true).
  { unfold dialogShown, AppWindow.rendersDialog. by rewrite Hk, Hph. }
  assert (Hd2 : d2 = render None (set_shell (Shell.closeWindow k (shell d)) d)).
  { subst d2. simpl. by rewrite Hshown. }
  assert (Hw2 : k ∉ Shell.windowIds (shell d2)).
  { rewrite Hd2. simpl. apply closeWindow_absent. }
  assert (Hm2 : mounted d2 !! k = None).
  { rewrite Hd2. simpl. apply reconcile_None_lookup. left.
    apply closeWindow_absent. }
  split; [by rewrite Hd2 |]. split; [done |]. split; [done |].
  split; [| split].
  - destruct (insts_inv_run evs0 loaded settings width height)
      as [Hlt Huniq]. fold d in Hlt, Huniq.
    apply unmounted_forever.
    + rewrite Hd2. simpl. by apply (Hlt k v).
    + intros k' v' Hk' Heq.
      assert (Hold : mounted d !! k' = Some v').
      { rewrite Hd2 in Hk'. simpl in Hk'. rewrite lookup_reconcile in Hk'.
        case_decide; [| done]. by destruct (mounted d !! k'). }
      assert (k' = k) by by apply (Huniq k' k v' v).
      subst k'. congruence.
  - intros Hopened. by apply run_keeps_closed.
  - intros w Hw Hid Hevs.
    pose proof (prefixed_run evs0 loaded settings width height) as Hpre.
    fold d in Hpre. rewrite Forall_forall in Hpre.
    destruct (Hpre w Hw) as [suffix Hsuffix].
    rewrite <- Hid, Hsuffix. by apply opened_other_apps.
Qed.

Lemma close_during_minimize_is_final_witness :
  mkTimer 260 "a0" 0 AppWindow.minimized
    ∈ timers (step (CloseClick "a0")
                (run [Launch Examples.appA 0 0; MinimizeClick "a0"; Wait 100]
                   Examples.desk))
  ∧ mounted
      (run [Wait 260; Launch Examples.appB 0 0;
            MouseMove (Double.int 3) (Double.int 4);
            Launch Examples.appA 0 0; RestoreClick "a0"; Wait 1000]
         (step (CloseClick "a0")
            (run [Launch Examples.appA 0 0; MinimizeClick "a0"; Wait 100]
               Examples.desk)))
    !! "a0"%string = None.
Proof.
  destruct (close_during_minimize_is_final
              [Launch Examples.appA 0 0; MinimizeClick "a0"; Wait 100]
              [Examples.appA; Examples.appB; Examples.appC]
              Settings.DEFAULT_SETTINGS (Double.int 1280) (Double.int 720)
              "a0"
              (mkView 0 (AppWindow.setPhase AppWindow.minimizing
                           (AppWindow.mount None 0 0)))
              (mkTimer 260 "a0" 0 AppWindow.minimized)
              [Wait 260; Launch Examples.appB 0 0;
               MouseMove (Double.int 3) (Double.int 4);
               Launch Examples.appA 0 0; RestoreClick "a0"; Wait 1000])
    as (Htimer & _ & _ & _ & Hgone & _).
  - reflexivity.
  - reflexivity.
  - apply list_elem_of_here.
  - done.
  - reflexivity.
  - split; [exact Htimer |]. apply Hgone.
    change (opened _ _) with ["b360"; "a360"]%string.
    rewrite !not_elem_of_cons. repeat split; try done. apply not_elem_of_nil.
Defined.

End ClosePending.

Section Reorder.

Import DesktopIcons.

Implicit Types (a : App.t) (apps : list App.t) (s : DesktopIcons.state).

Lemma insert_by_order_perm a l : insert_by_order a l ≡ₚ a :: l.
Proof.
  induction l as [|b l IH]; simpl; [done |].
  case_decide; [done |]. rewrite IH. apply Permutation_swap.
Qed.

Lemma sortedApps_perm apps : sortedApps apps ≡ₚ apps.
Proof.
  induction apps as [|a apps IH]; simpl; [done |].
  by rewrite insert_by_order_perm, IH.
Qed.

Lemma spliceStart_in_range (len : nat) (start : Z) :
  0 ≤ start < Z.of_nat len → spliceStart len start = Z.to_nat start.
Proof. intros Hr. unfold spliceStart. case_decide; [lia |]. f_equal. lia. Qed.

Lemma splice_out_in_range {A} (start : Z) (l : list A) :
  0 ≤ start < Z.of_nat (length l) →
  ∃ x rest, splice_out start l = (Some x, rest) ∧ x :: rest ≡ₚ l.
Proof.
  intros Hr. unfold splice_out. rewrite spliceStart_in_range by done.
  destruct (lookup_lt_is_Some_2 l (Z.to_nat start)) as [x Hx]; [lia |].
  exists x, (take (Z.to_nat start) l ++ drop (S (Z.to_nat start)) l).
  rewrite Hx. split; [done |].
  rewrite Permutation_middle. by rewrite take_drop_middle.
Qed.

Lemma splice_in_perm {A} (start : Z) (x : A) (l : list A) :
  splice_in start x l ≡ₚ x :: l.
Proof.
  unfold splice_in. rewrite <- Permutation_middle. by rewrite take_drop.
Qed.

Lemma order_imap_spread (l : list (option App.t)) :
  App.order <$> imap spread_order l = Z.of_nat <$> seq 0 (length l).
Proof. rewrite fmap_imap. apply (imap_seq_0 l Z.of_nat). Qed.

Lemma id_imap_spread (l : list App.t) :
  App.id <$> imap spread_order (Some <$> l) = App.id <$> l.
Proof.
  rewrite fmap_imap, imap_fmap. rewrite <- (imap_const App.id l).
  by apply imap_ext.
Qed.

Lemma reordered_in_range apps sourceIdx targetIndex :
  0 ≤ sourceIdx < Z.of_nat (length apps) →
  ∃ l, reordered apps sourceIdx targetIndex = imap spread_order (Some <$> l)
       ∧ l ≡ₚ apps.
Proof.
  intros Hr. unfold reordered.
  destruct (splice_out_in_range sourceIdx (sortedApps apps))
    as (x & rest & -> & Hperm).
  { by rewrite (Permutation_length (sortedApps_perm apps)). }
  exists (splice_in targetIndex x rest). split.
  - f_equal. unfold splice_in. rewrite length_fmap.
    by rewrite fmap_app, fmap_cons, fmap_take, fmap_drop.
  - by rewrite splice_in_perm, Hperm, sortedApps_perm.
Qed.

(** C8 (reorder).  The list that a drop hands to [onReorder], and that
    [handleReorder] stores, has [order = index] at every position.  When
    the dragged icon is one of the list it is a rearrangement of the
    shortcuts, so order values that were [0 .. n-1] stay so (unique, same
    sum); and moving C before A in [A(0), B(1), C(2)] gives
    [C(0), A(1), B(2)]. *)
Theorem reorder_assigns_index :
  (∀ apps sourceIdx targetIndex i a,
     reordered apps sourceIdx targetIndex !! i = Some a →
     App.order a = Z.of_nat i)
  ∧ (∀ apps sourceIdx targetIndex,
       0 ≤ sourceIdx < Z.of_nat (length apps) →
       length (reordered apps sourceIdx targetIndex) = length apps
       ∧ App.id <$> reordered apps sourceIdx targetIndex ≡ₚ App.id <$> apps
       ∧ App.order <$> reordered apps sourceIdx targetIndex
         = Z.of_nat <$> seq 0 (length apps)
       ∧ NoDup (App.order <$> reordered apps sourceIdx targetIndex)
       ∧ (App.order <$> apps ≡ₚ Z.of_nat <$> seq 0 (length apps) →
          App.order <$> reordered apps sourceIdx targetIndex
          ≡ₚ App.order <$> apps))
  ∧ (∀ a b c,
       App.order a = 0 → App.order b = 1 → App.order c = 2 →
       reordered [a; b; c] 2 0
       = [App.with_order c 0; App.with_order a 1; App.with_order b 2])
  ∧ (∀ apps targetApp targetIndex s,
       falsy (draggedId s) = false →
       draggedId s ≠ Some (App.id targetApp) →
       (handleDrop apps targetApp targetIndex s).2
       = Some (reordered apps (dragStartIndex s) targetIndex))
  ∧ (∀ l (sh : Shell.state),
       Shell.apps (Shell.handleReorder l sh) = l
       ∧ Shell.storedApps (Shell.handleReorder l sh) = l).
Proof.
  split; [| split; [| split; [| split]]].
  - intros apps sourceIdx targetIndex i a. unfold reordered.
    destruct (splice_out sourceIdx (sortedApps apps)) as [removed rest].
    rewrite list_lookup_imap.
    destruct (splice_in targetIndex removed (Some <$> rest) !! i); [| done].
    by intros [= <-].
  - intros apps sourceIdx targetIndex Hr.
    destruct (reordered_in_range apps sourceIdx targetIndex Hr)
      as (l & -> & Hperm).
    assert (Hlen : length l = length apps) by by apply Permutation_length.
    assert (Horder : App.order <$> imap spread_order (Some <$> l)
                     = Z.of_nat <$> seq 0 (length apps)).
    { by rewrite order_imap_spread, length_fmap, Hlen. }
    split; [by rewrite length_imap, length_fmap |].
    split; [by rewrite id_imap_spread, Hperm |].
    split; [done |]. rewrite Horder. split.
    + apply NoDup_fmap_2; [apply _ | apply NoDup_seq].
    + by intros ->.
  - intros [ia na ua ea ca oa] [ib nb ub eb cb ob] [ic nc uc ec cc oc].
    simpl. by intros -> -> ->.
  - intros apps targetApp targetIndex s Hfalsy Hne. unfold handleDrop.
    by rewrite Hfalsy, bool_decide_eq_false_2.
  - done.
Qed.

Lemma reorder_assigns_index_witness :
  (handleDrop [Examples.appA; Examples.appB; Examples.appC] Examples.appA 0
     Examples.draggingC).2
  = Some [App.with_order Examples.appC 0; App.with_order Examples.appA 1;
          App.with_order Examples.appB 2]
  ∧ App.order <$> reordered [Examples.appA; Examples.appB; Examples.appC] 2 0
    = [0; 1; 2].
Proof.
  destruct reorder_assigns_index as (_ & Hrange & Hmove & Hdrop & _).
  split.
  - rewrite (Hdrop [Examples.appA; Examples.appB; Examples.appC]
               Examples.appA 0 Examples.draggingC eq_refl); [| done].
    apply (f_equal Some). apply Hmove; reflexivity.
  - apply (Hrange [Examples.appA; Examples.appB; Examples.appC] 2 0). simpl. lia.
Defined.

End Reorder.

Section Registry.

Import Backend.

Context `{Countable Principal}.

Implicit Types (caller : Principal) (app : App) (st : state (Principal:=Principal)).

(** C9, as the code has it.  [addApp] never traps: it inserts the shortcut
    when its id is new and replaces the stored shortcut when the id is
    already present; the registries of the other callers and the settings
    are unchanged. *)
Theorem addApp_upserts caller app st :
  ∃ st', addApp caller app st = Reply () st'
         ∧ registry caller st' = <[id app := app]> (registry caller st)
         ∧ (registry caller st !! id app = None →
            size (registry caller st') = S (size (registry caller st)))
         ∧ (∀ old, registry caller st !! id app = Some old →
                   registry caller st' !! id app = Some app
                   ∧ size (registry caller st') = size (registry caller st))
         ∧ (∀ other, other ≠ caller → registry other st' = registry other st)
         ∧ userSettings st' = userSettings st.
Proof.
  eexists. split; [reflexivity |]. unfold registry. simpl.
  rewrite lookup_insert_eq. simpl.
  assert (Hreg : match userApps st !! caller with
                 | Some existing => existing
                 | None => ∅
                 end = default ∅ (userApps st !! caller))
    by by destruct (userApps st !! caller).
  rewrite Hreg. split; [done |]. split.
  { intros Hnew. by apply map_size_insert_None. }
  split.
  { intros old Hold. split; [by rewrite lookup_insert_eq |].
    by apply map_size_insert_Some. }
  split; [| done]. intros other Hne. by rewrite lookup_insert_ne.
Qed.

End Registry.

(** C9 fails as stated: adding a shortcut whose id is already stored is not
    rejected, and it changes the registry. *)
Lemma addApp_duplicate_not_rejected :
  ¬ (∃ msg, Backend.addApp "alice"%string
              (Backend.mkApp "x" "new" "https://x.example" "N" "#fff" 1)
              (Backend.mkState
                 {[ "alice"%string :=
                      {[ "x"%string :=
                           Backend.mkApp "x" "old" "https://x.example" "O"
                             "#000" 0 ]} ]} ∅)
            = Backend.Trap msg).
Proof. intros [msg Hmsg]. discriminate Hmsg. Qed.

Lemma addApp_upserts_witness :
  Backend.registry "alice"%string
    (Backend.mkState
       {[ "alice"%string :=
            {[ "x"%string :=
                 Backend.mkApp "x" "old" "https://x.example" "O" "#000" 0 ]} ]}
       (∅ : gmap string Backend.Settings))
  !! "x"%string
  = Some (Backend.mkApp "x" "old" "https://x.example" "O" "#000" 0)
  ∧ ∃ st', Backend.addApp "alice"%string
             (Backend.mkApp "x" "new" "https://x.example" "N" "#fff" 1)
             (Backend.mkState
                {[ "alice"%string :=
                     {[ "x"%string :=
                          Backend.mkApp "x" "old" "https://x.example" "O"
                            "#000" 0 ]} ]} ∅)
           = Backend.Reply () st'
           ∧ Backend.registry "alice"%string st' !! "x"%string
             = Some (Backend.mkApp "x" "new" "https://x.example" "N" "#fff" 1).
Proof.
  split; [reflexivity |].
  destruct (addApp_upserts "alice"%string
              (Backend.mkApp "x" "new" "https://x.example" "N" "#fff" 1)
              (Backend.mkState
                 {[ "alice"%string :=
                      {[ "x"%string :=
                           Backend.mkApp "x" "old" "https://x.example" "O"
                             "#000" 0 ]} ]} ∅))
    as (st' & Hadd & _ & _ & Hold & _).
  exists st'. split; [exact Hadd |].
  apply (Hold (Backend.mkApp "x" "old" "https://x.example" "O" "#000" 0)).
  reflexivity.
Defined.

(** * The actor: updates, deletions, queries *)

Section ActorFacts.

Import Backend BackendCalls.

Context `{Countable Principal}.

Implicit Types (caller : Principal) (app : App).
Implicit Types (st : state (Principal:=Principal)).
Implicit Types (c : Call (Principal:=Principal)).

Lemma registry_Some caller st apps :
  userApps st !! caller = Some apps → registry caller st = apps.
Proof. intros Hc. unfold registry. by rewrite Hc. Qed.

Lemma registry_None caller st :
  userApps st !! caller = None → registry caller st = ∅.
Proof. intros Hc. unfold registry. by rewrite Hc. Qed.

(** X1.  [updateApp] replaces the shortcut stored under [app.id] and traps
    when there is none; a caller that never stored anything gets the
    message "No apps found for user", any other caller "App not found".
    Nothing else changes. *)
Theorem updateApp_replaces_or_traps caller app st :
  (∀ old, registry caller st !! id app = Some old →
     ∃ st', updateApp caller app st = Reply () st'
            ∧ registry caller st' = <[id app := app]> (registry caller st)
            ∧ size (registry caller st') = size (registry caller st)
            ∧ (∀ other, other ≠ caller →
                 registry other st' = registry other st)
            ∧ userSettings st' = userSettings st)
  ∧ (userApps st !! caller = None →
     updateApp caller app st = Trap "No apps found for user")
  ∧ (∀ apps, userApps st !! caller = Some apps → apps !! id app = None →
     updateApp caller app st = Trap "App not found").
Proof.
  split; [| split].
  - intros old Hold. unfold updateApp.
    destruct (userApps st !! caller) as [apps|] eqn:Hc.
    + rewrite (registry_Some _ _ _ Hc) in *.
      rewrite bool_decide_eq_true_2 by eauto.
      eexists. split; [reflexivity |]. unfold registry. simpl.
      rewrite lookup_insert_eq. simpl. split; [done |].
      split; [by eapply map_size_insert_Some |]. split; [| done].
      intros other Hne. by rewrite lookup_insert_ne.
    + rewrite (registry_None _ _ Hc) in Hold. by rewrite lookup_empty in Hold.
  - intros Hc. unfold updateApp. by rewrite Hc.
  - intros apps Hc Hnone. unfold updateApp. rewrite Hc.
    rewrite bool_decide_eq_false_2; [done |].
    rewrite Hnone. by intros [? ?].
Qed.

(** X2.  [deleteApp] removes the shortcut stored under the id and traps
    when there is none, with the same two messages; the other shortcuts
    of the caller, the other callers and the settings are unchanged. *)
Theorem deleteApp_removes_or_traps caller appId st :
  (∀ old, registry caller st !! appId = Some old →
     ∃ st', deleteApp caller appId st = Reply () st'
            ∧ registry caller st' = delete appId (registry caller st)
            ∧ registry caller st' !! appId = None
            ∧ S (size (registry caller st')) = size (registry caller st)
            ∧ (∀ k, k ≠ appId →
                 registry caller st' !! k = registry caller st !! k)
            ∧ (∀ other, other ≠ caller →
                 registry other st' = registry other st)
            ∧ userSettings st' = userSettings st)
  ∧ (userApps st !! caller = None →
     deleteApp caller appId st = Trap "No apps found for user")
  ∧ (∀ apps, userApps st !! caller = Some apps → apps !! appId = None →
     deleteApp caller appId st = Trap "App not found").
Proof.
  split; [| split].
  - intros old Hold. unfold deleteApp.
    destruct (userApps st !! caller) as [apps|] eqn:Hc.
    + rewrite (registry_Some _ _ _ Hc) in *.
      rewrite bool_decide_eq_true_2 by eauto.
      eexists. split; [reflexivity |]. unfold registry. simpl.
      rewrite lookup_insert_eq. simpl. split; [done |].
      split; [apply lookup_delete_eq |].
      split.
      { rewrite map_size_delete_Some by eauto.
        assert (size apps ≠ 0%nat) by (eapply map_size_ne_0_lookup_2; eauto).
        lia. }
      split; [intros k Hk; by rewrite lookup_delete_ne |].
      split; [| done]. intros other Hne. by rewrite lookup_insert_ne.
    + rewrite (registry_None _ _ Hc) in Hold. by rewrite lookup_empty in Hold.
  - intros Hc. unfold deleteApp. by rewrite Hc.
  - intros apps Hc Hnone. unfold deleteApp. rewrite Hc.
    rewrite bool_decide_eq_false_2; [done |].
    rewrite Hnone. by intros [? ?].
Qed.

Lemma keyed_commit c st : keyed st → keyed (commit (invoke c st) st).
Proof.
  intros Hk. destruct c as [caller app|caller app|caller appId|caller s]; simpl.
  - intros caller' apps k app' Hc Hk'. simpl in Hc.
    destruct (decide (caller = caller')) as [<-|Hne].
    + rewrite lookup_insert_eq in Hc. injection Hc as <-.
      destruct (decide (id app = k)) as [<-|Hnk].
      * rewrite lookup_insert_eq in Hk'. by injection Hk' as <-.
      * rewrite lookup_insert_ne in Hk' by done.
        destruct (userApps st !! caller) as [existing|] eqn:He.
        -- by eapply Hk.
        -- by rewrite lookup_empty in Hk'.
    + rewrite lookup_insert_ne in Hc by done. by eapply Hk.
  - unfold updateApp. destruct (userApps st !! caller) as [apps0|] eqn:He;
      [| done].
    case_bool_decide; [| done]. simpl.
    intros caller' apps k app' Hc Hk'. simpl in Hc.
    destruct (decide (caller = caller')) as [<-|Hne].
    + rewrite lookup_insert_eq in Hc. injection Hc as <-.
      destruct (decide (id app = k)) as [<-|Hnk].
      * rewrite lookup_insert_eq in Hk'. by injection Hk' as <-.
      * rewrite lookup_insert_ne in Hk' by done. by eapply Hk.
    + rewrite lookup_insert_ne in Hc by done. by eapply Hk.
  - unfold deleteApp. destruct (userApps st !! caller) as [apps0|] eqn:He;
      [| done].
    case_bool_decide; [| done]. simpl.
    intros caller' apps k app' Hc Hk'. simpl in Hc.
    destruct (decide (caller = caller')) as [<-|Hne].
    + rewrite lookup_insert_eq in Hc. injection Hc as <-.
      apply lookup_delete_Some in Hk' as [_ Hk']. by eapply Hk.
    + rewrite lookup_insert_ne in Hc by done. by eapply Hk.
  - done.
Qed.

Lemma keyed_serve cs st : keyed st → keyed (serve cs st).
Proof.
  revert st. induction cs as [|c cs IH]; intros st Hk; [done |].
  apply IH, keyed_commit, Hk.
Qed.

Lemma keyed_empty : keyed (Backend.empty (Principal:=Principal)).
Proof.
  intros caller apps k app Hc. simpl in Hc. by rewrite lookup_empty in Hc.
Qed.

Lemma getApps_registry caller st :
  getApps caller st = (map_to_list (registry caller st)).*2.
Proof.
  unfold getApps, registry. destruct (userApps st !! caller); [done |].
  simpl. by rewrite map_to_list_empty.
Qed.

(** X3.  Whatever calls were served, every shortcut is stored under its
    own id; so the reply of [getApps] lists exactly the stored shortcuts
    of the caller (the order of the reply is not modelled), with pairwise
    different ids, and a caller that stored nothing gets the empty list. *)
Theorem getApps_lists_the_registry cs caller :
  let st := serve cs (Backend.empty (Principal:=Principal)) in
  (∀ app, app ∈ getApps caller st ↔ registry caller st !! id app = Some app)
  ∧ NoDup (id <$> getApps caller st)
  ∧ length (getApps caller st) = size (registry caller st)
  ∧ (userApps st !! caller = None → getApps caller st = []).
Proof.
  intros st.
  assert (Hk : keyed st) by apply keyed_serve, keyed_empty.
  assert (Hreg : ∀ k app, registry caller st !! k = Some app → id app = k).
  { intros k app. unfold registry.
    destruct (userApps st !! caller) as [apps|] eqn:Hc; simpl.
    - by apply (Hk caller apps).
    - by rewrite lookup_empty. }
  rewrite getApps_registry. split; [| split; [| split]].
  - intros app. rewrite list_elem_of_fmap. split.
    + intros ([k app'] & -> & Hin). simpl.
      apply elem_of_map_to_list in Hin. by rewrite (Hreg _ _ Hin).
    + intros Hin. exists (id app, app). split; [done |].
      by apply elem_of_map_to_list.
  - assert (Hids : id <$> (map_to_list (registry caller st)).*2
                   = (map_to_list (registry caller st)).*1).
    { rewrite <- list_fmap_compose. apply list_fmap_ext.
      intros i [k app] Hi. simpl. apply Hreg.
      apply elem_of_map_to_list. by eapply list_elem_of_lookup_2. }
    rewrite Hids. apply NoDup_fst_map_to_list.
  - by rewrite length_fmap, length_map_to_list.
  - intros Hc. unfold registry. rewrite Hc. simpl.
    by rewrite map_to_list_empty.
Qed.

(** X4.  A call changes nothing for another caller: the shortcuts and the
    settings that [other] reads are the same after any number of calls by
    other principals. *)
Theorem other_callers_calls_are_invisible cs other st :
  Forall (λ c, callerOf c ≠ other) cs →
  registry other (serve cs st) = registry other st
  ∧ getApps other (serve cs st) = getApps other st
  ∧ getSettings other (serve cs st) = getSettings other st.
Proof.
  revert st. induction cs as [|c cs IH]; intros st Hcs; [done |].
  apply Forall_cons in Hcs as [Hc Hcs].
  destruct (IH (commit (invoke c st) st) Hcs) as (Hr & Ha & Hs).
  assert (Hstep : userApps (commit (invoke c st) st) !! other
                  = userApps st !! other
                  ∧ userSettings (commit (invoke c st) st) !! other
                    = userSettings st !! other).
  { destruct c as [caller app|caller app|caller appId|caller s];
      simpl in Hc; simpl.
    - by rewrite lookup_insert_ne.
    - unfold updateApp. destruct (userApps st !! caller); [| done].
      case_bool_decide; [| done]. simpl. by rewrite lookup_insert_ne.
    - unfold deleteApp. destruct (userApps st !! caller); [| done].
      case_bool_decide; [| done]. simpl. by rewrite lookup_insert_ne.
    - by rewrite lookup_insert_ne. }
  destruct Hstep as [Hua Hus].
  change (serve (c :: cs) st) with (serve cs (commit (invoke c st) st)).
  rewrite Hr, Ha, Hs. unfold registry, getApps, getSettings.
  by rewrite Hua, Hus.
Qed.

(** X5.  [getSettings] replies with the settings of the caller's latest
    [updateSettings], and with the defaults when the caller never wrote
    any; calls on shortcuts and calls of other principals do not change
    the reply. *)
Theorem getSettings_reads_latest_write cs caller st :
  getSettings caller (serve cs st) = written caller cs (getSettings caller st)
  ∧ getSettings caller (Backend.empty (Principal:=Principal)) = default_settings.
Proof.
  split; [| done].
  revert st. induction cs as [|c cs IH]; intros st; [done |].
  change (serve (c :: cs) st) with (serve cs (commit (invoke c st) st)).
  rewrite IH. unfold written. simpl. f_equal.
  destruct c as [caller' app|caller' app|caller' appId|caller' s]; simpl.
  - done.
  - unfold updateApp. destruct (userApps st !! caller'); [| done].
    by case_bool_decide.
  - unfold deleteApp. destruct (userApps st !! caller'); [| done].
    by case_bool_decide.
  - unfold getSettings. simpl. case_decide as Hc.
    + subst caller'. by rewrite lookup_insert_eq.
    + by rewrite lookup_insert_ne.
Qed.

(** X6.  Adding a shortcut under a new id and deleting it again gives back
    the caller's registry.  The caller stays known to the actor, though:
    from then on a missing id is reported as "App not found", also for a
    caller whose first call this was. *)
Theorem addApp_deleteApp_round_trip caller app st :
  registry caller st !! id app = None →
  ∃ st1 st2,
    addApp caller app st = Reply () st1
    ∧ deleteApp caller (id app) st1 = Reply () st2
    ∧ registry caller st2 = registry caller st
    ∧ getApps caller st2 = getApps caller st
    ∧ (∀ app', registry caller st !! id app' = None →
         updateApp caller app' st2 = Trap "App not found"
         ∧ deleteApp caller (id app') st2 = Trap "App not found").
Proof.
  intros Hnew.
  assert (Hreg : match userApps st !! caller with
                 | Some existing => existing
                 | None => ∅
                 end = registry caller st)
    by (unfold registry; by destruct (userApps st !! caller)).
  eexists _, _. split; [reflexivity |].
  unfold deleteApp. simpl. rewrite lookup_insert_eq. rewrite Hreg.
  rewrite bool_decide_eq_true_2 by (rewrite lookup_insert_eq; eauto).
  split; [reflexivity |].
  assert (Hback : registry caller
            (mkState
               (<[caller := delete (id app) (<[id app := app]> (registry caller st))]>
                  (<[caller := <[id app := app]> (registry caller st)]>
                     (userApps st)))
               (userSettings st))
          = registry caller st).
  { unfold registry at 1. simpl. rewrite lookup_insert_eq. simpl.
    by apply delete_insert_id. }
  split; [exact Hback |]. split.
  { rewrite !getApps_registry. by rewrite Hback. }
  intros app' Hnone. unfold updateApp, deleteApp. simpl.
  rewrite lookup_insert_eq.
  rewrite delete_insert_id by done.
  rewrite bool_decide_eq_false_2; [done |]. rewrite Hnone. by intros [? ?].
Qed.

End ActorFacts.

Lemma updateApp_replaces_or_traps_witness :
  (∃ st', Backend.updateApp "alice"%string Examples.newX Examples.aliceHasX
          = Backend.Reply () st'
          ∧ Backend.registry "alice"%string st' !! "x"%string
            = Some Examples.newX)
  ∧ Backend.updateApp "bob"%string Examples.newX Examples.aliceHasX
    = Backend.Trap "No apps found for user"
  ∧ Backend.updateApp "alice"%string Examples.appY Examples.aliceHasX
    = Backend.Trap "App not found".
Proof.
  destruct (updateApp_replaces_or_traps "alice"%string Examples.newX
              Examples.aliceHasX) as (Hok & _ & _).
  destruct (updateApp_replaces_or_traps "bob"%string Examples.newX
              Examples.aliceHasX) as (_ & Hnone & _).
  destruct (updateApp_replaces_or_traps "alice"%string Examples.appY
              Examples.aliceHasX) as (_ & _ & Hmiss).
  split; [| split].
  - destruct (Hok Examples.oldX eq_refl) as (st' & Hupd & Hreg & _).
    exists st'. split; [exact Hupd |]. rewrite Hreg. reflexivity.
  - apply Hnone. reflexivity.
  - apply (Hmiss {[ "x"%string := Examples.oldX ]}); reflexivity.
Defined.

Lemma deleteApp_removes_or_traps_witness :
  (∃ st', Backend.deleteApp "alice"%string "x" Examples.aliceHasX
          = Backend.Reply () st'
          ∧ Backend.registry "alice"%string st' !! "x"%string = None)
  ∧ Backend.deleteApp "bob"%string "x" Examples.aliceHasX
    = Backend.Trap "No apps found for user"
  ∧ Backend.deleteApp "alice"%string "y" Examples.aliceHasX
    = Backend.Trap "App not found".
Proof.
  destruct (deleteApp_removes_or_traps "alice"%string "x"%string
              Examples.aliceHasX) as (Hok & _ & _).
  destruct (deleteApp_removes_or_traps "bob"%string "x"%string
              Examples.aliceHasX) as (_ & Hnone & _).
  destruct (deleteApp_removes_or_traps "alice"%string "y"%string
              Examples.aliceHasX) as (_ & _ & Hmiss).
  split; [| split].
  - destruct (Hok Examples.oldX eq_refl) as (st' & Hdel & _ & Hgone & _).
    exists st'. by split.
  - apply Hnone. reflexivity.
  - apply (Hmiss {[ "x"%string := Examples.oldX ]}); reflexivity.
Defined.

Lemma other_callers_calls_are_invisible_witness :
  Forall (λ c, BackendCalls.callerOf c ≠ "alice"%string) Examples.bobCalls
  ∧ Backend.getApps "alice"%string
      (BackendCalls.serve Examples.bobCalls Examples.aliceHasX)
    = Backend.getApps "alice"%string Examples.aliceHasX.
Proof.
  assert (Hbob : Forall (λ c, BackendCalls.callerOf c ≠ "alice"%string)
                   Examples.bobCalls) by (repeat constructor; done).
  split; [exact Hbob |].
  apply (other_callers_calls_are_invisible Examples.bobCalls "alice"%string
           Examples.aliceHasX Hbob).
Defined.

Lemma addApp_deleteApp_round_trip_witness :
  Backend.registry "alice"%string Examples.aliceHasX !! "y"%string = None
  ∧ ∃ st1 st2,
      Backend.addApp "alice"%string Examples.appY Examples.aliceHasX
      = Backend.Reply () st1
      ∧ Backend.deleteApp "alice"%string "y" st1 = Backend.Reply () st2
      ∧ Backend.registry "alice"%string st2
        = Backend.registry "alice"%string Examples.aliceHasX.
Proof.
  split; [reflexivity |].
  destruct (addApp_deleteApp_round_trip "alice"%string Examples.appY
              Examples.aliceHasX eq_refl)
    as (st1 & st2 & Hadd & Hdel & Hreg & _).
  exists st1, st2. by repeat split.
Defined.

(** * Sorting and reordering the shortcuts *)

Section Sorting.

Import DesktopIcons.

Implicit Types (a : App.t) (apps l : list App.t).

#[local] Instance byOrder_trans : Transitive byOrder.
Proof. intros a b c. unfold byOrder. lia. Qed.

Lemma byOrder_order a b : App.order a ≤ App.order b → byOrder a b.
Proof. apply Number_mono. Qed.

Lemma insert_by_order_sorted a l :
  StronglySorted byOrder l → StronglySorted byOrder (insert_by_order a l).
Proof.
  induction 1 as [|b l Hl IH Hb]; simpl.
  - repeat constructor.
  - case_decide as Hab.
    + constructor; [by constructor |]. constructor; [done |].
      eapply Forall_impl; [exact Hb |]. intros c Hc. unfold byOrder in *. lia.
    + constructor; [done |].
      assert (Hperm : insert_by_order a l ≡ₚ a :: l)
        by apply insert_by_order_perm.
      rewrite Hperm. constructor; [unfold byOrder; lia | done].
Qed.

Lemma sortedApps_sorted apps : StronglySorted byOrder (sortedApps apps).
Proof.
  induction apps as [|a apps IH]; simpl; [constructor |].
  by apply insert_by_order_sorted.
Qed.

Lemma filter_insert_by_order (o : Z) a l :
  filter (λ b, Double.Number (App.order b) = o) (insert_by_order a l)
  = if decide (Double.Number (App.order a) = o)
    then a :: filter (λ b, Double.Number (App.order b) = o) l
    else filter (λ b, Double.Number (App.order b) = o) l.
Proof.
  induction l as [|b l IH]; simpl.
  - by rewrite filter_cons.
  - destruct (decide (Double.Number (App.order a)
                      ≤ Double.Number (App.order b))) as [Hab|Hab].
    + by rewrite (filter_cons _ a).
    + rewrite !(filter_cons _ b), IH.
      destruct (decide (Double.Number (App.order b) = o)) as [Hb|Hb]; [| done].
      destruct (decide (Double.Number (App.order a) = o)); [lia | done].
Qed.

Lemma insert_by_order_head a l :
  Forall (byOrder a) l → insert_by_order a l = a :: l.
Proof.
  destruct l as [|b l]; [done |]. intros Hall. simpl.
  apply Forall_cons in Hall as [Hab _]. by rewrite decide_True.
Qed.

Lemma sortedApps_fixed l : StronglySorted byOrder l → sortedApps l = l.
Proof.
  induction 1 as [|a l Hl IH Ha]; [done |]. simpl. rewrite IH.
  by apply insert_by_order_head.
Qed.

(** Inserting into a sorted list and selecting commute. *)
Lemma filter_insert_sorted (P : App.t → Prop) `{∀ a, Decision (P a)} a l :
  StronglySorted byOrder l →
  filter P (insert_by_order a l)
  = if decide (P a) then insert_by_order a (filter P l) else filter P l.
Proof.
  induction 1 as [|b l Hl IH Hb]; simpl.
  - rewrite filter_cons. by case_decide.
  - destruct (decide (Double.Number (App.order a)
                      ≤ Double.Number (App.order b))) as [Hab|Hab].
    + rewrite (filter_cons _ a). case_decide as Ha; [| done].
      symmetry. apply insert_by_order_head.
      apply Forall_forall. intros c Hc.
      apply list_elem_of_filter in Hc as [_ Hc].
      apply elem_of_cons in Hc as [->|Hc]; [done |].
      rewrite Forall_forall in Hb. specialize (Hb c Hc).
      unfold byOrder in *. lia.
    + rewrite !(filter_cons _ b), IH.
      destruct (decide (P b)) as [Pb|Pb], (decide (P a)) as [Pa|Pa];
        try done.
      simpl. by rewrite decide_False.
Qed.

Lemma sortedApps_filter (P : App.t → Prop) `{∀ a, Decision (P a)} apps :
  sortedApps (filter P apps) = filter P (sortedApps apps).
Proof.
  induction apps as [|a apps IH]; [done |]. simpl.
  rewrite filter_insert_sorted by apply sortedApps_sorted.
  rewrite filter_cons. case_decide; [| done]. simpl. by rewrite IH.
Qed.

Lemma sorted_exact l :
  Forall exactOrder l → StronglySorted byOrder l →
  StronglySorted (λ a b, App.order a ≤ App.order b) l.
Proof.
  intros Hex Hs. induction Hs as [|a l Hl IH Ha]; [constructor |].
  apply Forall_cons in Hex as [Hexa Hex]. constructor; [by apply IH |].
  rewrite Forall_forall in *. intros b Hb.
  specialize (Ha b Hb). specialize (Hex b Hb). unfold byOrder in Ha.
  by rewrite !Number_exact in Ha.
Qed.

Lemma filter_exact (o : Z) l :
  Forall exactOrder l →
  filter (λ a, App.order a = o) l
  = filter (λ a, Double.Number (App.order a) = Double.Number o) l.
Proof.
  induction 1 as [|a l Ha Hl IH]; [done |].
  rewrite !filter_cons, IH.
  destruct (decide (App.order a = o)) as [Heq|Hne].
  - by rewrite decide_True by by rewrite Heq.
  - destruct (decide (Z.abs o < 2 ^ 53)) as [Ho|Ho].
    + rewrite decide_False; [done |]. by rewrite !Number_exact.
    + rewrite decide_False; [done |]. rewrite (Number_exact _ Ha).
      intros Heq. unfold exactOrder in Ha.
      destruct (decide (0 ≤ o)).
      * pose proof (Number_mono (2 ^ 53) o) as Hm.
        assert (Hn : Double.Number (2 ^ 53) = 2 ^ 53) by by vm_compute.
        lia.
      * pose proof (Number_mono o (- 2 ^ 53)) as Hm.
        assert (Hn : Double.Number (- 2 ^ 53) = - 2 ^ 53) by by vm_compute.
        lia.
Qed.

(** X7.  The list shown by the icon grid and the taskbar is a stable sort
    of the shortcuts by [Number(order)]: a rearrangement of the input,
    ascending in [Number(order)], in which shortcuts of equal
    [Number(order)] keep their relative positions.  Sorting commutes with
    selecting, so the start menu, which sorts the shortcuts that match the
    search, shows the matching ones of that list in the same order.
    Orders below 2^53 are their own [Number], so for them the list is
    ascending in [order] and stable for equal [order]; two larger orders
    can be rounded to the same double and then keep their input order. *)
Theorem sortedApps_is_a_stable_sort apps :
  sortedApps apps ≡ₚ apps
  ∧ StronglySorted
      (λ a b, Double.Number (App.order a) ≤ Double.Number (App.order b))
      (sortedApps apps)
  ∧ (∀ n, filter (λ a, Double.Number (App.order a) = n) (sortedApps apps)
          = filter (λ a, Double.Number (App.order a) = n) apps)
  ∧ (∀ (P : App.t → Prop) `{∀ a, Decision (P a)},
       sortedApps (filter P apps) = filter P (sortedApps apps))
  ∧ (Forall (λ a, Z.abs (App.order a) < 2 ^ 53) apps →
     StronglySorted (λ a b, App.order a ≤ App.order b) (sortedApps apps)
     ∧ ∀ o, filter (λ a, App.order a = o) (sortedApps apps)
            = filter (λ a, App.order a = o) apps).
Proof.
  assert (Hstable :
    ∀ n, filter (λ a, Double.Number (App.order a) = n) (sortedApps apps)
         = filter (λ a, Double.Number (App.order a) = n) apps).
  { intros n. induction apps as [|a apps IH]; [done |]. simpl.
    rewrite filter_insert_by_order, IH, (filter_cons _ a). by case_decide. }
  split; [apply sortedApps_perm |]. split; [apply sortedApps_sorted |].
  split; [done |]. split; [intros P HP; apply sortedApps_filter |].
  intros Hex.
  assert (Hex' : Forall exactOrder (sortedApps apps))
    by by rewrite sortedApps_perm.
  split; [apply sorted_exact; [done | apply sortedApps_sorted] |].
  intros o. by rewrite !filter_exact, Hstable.
Qed.

(** X9.  The taskbar pins the first six shortcuts of the sorted list: at
    most six, all of them when there are fewer, and no shortcut that is
    left out has a smaller [Number(order)] than a pinned one (a smaller
    [order], when the orders are below 2^53). *)
Theorem pinnedApps_are_the_first_six apps :
  length (Taskbar.pinnedApps apps) = Nat.min 6 (length apps)
  ∧ Taskbar.pinnedApps apps `sublist_of` sortedApps apps
  ∧ (∀ a b, a ∈ Taskbar.pinnedApps apps →
            b ∈ drop 6 (sortedApps apps) →
            Double.Number (App.order a) ≤ Double.Number (App.order b))
  ∧ (Forall (λ a, Z.abs (App.order a) < 2 ^ 53) apps →
     ∀ a b, a ∈ Taskbar.pinnedApps apps →
            b ∈ drop 6 (sortedApps apps) →
            App.order a ≤ App.order b)
  ∧ ((length apps ≤ 6)%nat → Taskbar.pinnedApps apps = sortedApps apps).
Proof.
  unfold Taskbar.pinnedApps.
  pose proof (Permutation_length (sortedApps_perm apps)) as Hlen.
  assert (Hkey : ∀ a b, a ∈ take 6 (sortedApps apps) →
                        b ∈ drop 6 (sortedApps apps) → byOrder a b).
  { intros a b Ha Hb.
    pose proof (sortedApps_sorted apps) as Hs.
    rewrite <- (take_drop 6 (sortedApps apps)) in Hs.
    by apply (StronglySorted_app_1_elem_of _ _ _ a b Hs). }
  split; [by rewrite length_take, Hlen |].
  split; [apply sublist_take |]. split; [done |]. split.
  - intros Hex a b Ha Hb.
    assert (Hex' : Forall exactOrder (sortedApps apps))
      by by rewrite sortedApps_perm.
    rewrite Forall_forall in Hex'.
    pose proof (Hkey a b Ha Hb) as Hab. unfold byOrder in Hab.
    rewrite !Number_exact in Hab; [done | |].
    + apply Hex'. rewrite <- (take_drop 6 (sortedApps apps)).
      apply elem_of_app. by right.
    + apply Hex'. rewrite <- (take_drop 6 (sortedApps apps)).
      apply elem_of_app. by left.
  - intros Hle. apply take_ge. lia.
Qed.

End Sorting.

Section ReorderRoundTrip.

Import DesktopIcons.

Implicit Types (a : App.t) (apps l : list App.t).

Lemma remove_inserted {A} (j : nat) (e : A) (R : list A) :
  (j ≤ length R)%nat →
  (take j R ++ e :: drop j R) !! j = Some e
  ∧ take j (take j R ++ e :: drop j R) ++ drop (S j) (take j R ++ e :: drop j R)
    = R.
Proof.
  intros Hj.
  assert (Hlen : length (take j R) = j) by by apply length_take_le.
  split.
  - rewrite lookup_app_r by lia. by rewrite Hlen, Nat.sub_diag.
  - rewrite take_app_length' by done.
    rewrite cons_middle, (assoc_L (++)).
    rewrite drop_app_length' by (rewrite length_app; simpl; lia).
    apply take_drop.
Qed.

Lemma insert_removed {A} (i : nat) (e : A) (L : list A) :
  L !! i = Some e →
  take i (take i L ++ drop (S i) L) ++ e :: drop i (take i L ++ drop (S i) L)
  = L.
Proof.
  intros Hi.
  assert (Hlt : (i < length L)%nat) by by eapply lookup_lt_Some.
  assert (Hlen : length (take i L) = i) by (apply length_take_le; lia).
  rewrite take_app_length', drop_app_length' by done.
  by apply take_drop_middle.
Qed.

Lemma spread_renumber l : imap spread_order (Some <$> l) = renumber l.
Proof. unfold renumber. rewrite imap_fmap. by apply imap_ext. Qed.

(** The list handed to [onReorder] when the dragged index is in range. *)
Lemma reordered_moves apps (i j : Z) x :
  0 ≤ i → 0 ≤ j < Z.of_nat (length apps) →
  sortedApps apps !! Z.to_nat i = Some x →
  reordered apps i j
  = renumber
      (take (Z.to_nat j)
            (take (Z.to_nat i) (sortedApps apps)
             ++ drop (S (Z.to_nat i)) (sortedApps apps))
       ++ x :: drop (Z.to_nat j)
                 (take (Z.to_nat i) (sortedApps apps)
                  ++ drop (S (Z.to_nat i)) (sortedApps apps))).
Proof.
  intros Hi Hj Hx.
  pose proof (Permutation_length (sortedApps_perm apps)) as Hlen.
  assert (Hlt : (Z.to_nat i < length (sortedApps apps))%nat)
    by by eapply lookup_lt_Some.
  unfold reordered, splice_out, splice_in.
  assert (Hr : 0 ≤ i < Z.of_nat (length (sortedApps apps))) by lia.
  rewrite (spliceStart_in_range _ _ Hr). rewrite Hx.
  set (rest := take (Z.to_nat i) (sortedApps apps)
               ++ drop (S (Z.to_nat i)) (sortedApps apps)).
  assert (Hrest : S (length rest) = length apps).
  { subst rest. rewrite length_app, length_take_le, length_drop by lia. lia. }
  assert (Hstart : spliceStart (length (Some <$> rest)) j = Z.to_nat j).
  { rewrite length_fmap. unfold spliceStart. case_decide; [lia |].
    f_equal. lia. }
  rewrite Hstart. rewrite <- spread_renumber. f_equal.
  by rewrite fmap_app, fmap_cons, fmap_take, fmap_drop.
Qed.

Lemma renumber_sorted_from (n : nat) l :
  StronglySorted byOrder (imap (λ k a, App.with_order a (Z.of_nat (n + k))) l)
  ∧ Forall (λ b, Z.of_nat n ≤ App.order b)
      (imap (λ k a, App.with_order a (Z.of_nat (n + k))) l).
Proof.
  revert n. induction l as [|a l IH]; intros n.
  - split; constructor.
  - rewrite imap_cons.
    assert (Hext : imap ((λ k b, App.with_order b (Z.of_nat (n + k))) ∘ S) l
                   = imap (λ k b, App.with_order b (Z.of_nat (S n + k))) l).
    { apply imap_ext. intros k b _. simpl. do 2 f_equal. lia. }
    rewrite Hext. destruct (IH (S n)) as [Hs Hall]. split.
    + constructor; [done |]. eapply Forall_impl; [exact Hall |].
      intros b Hb. apply byOrder_order. simpl in *. lia.
    + constructor; [simpl; lia |]. eapply Forall_impl; [exact Hall |].
      intros b Hb. simpl in *. lia.
Qed.

Lemma renumber_sorted l : StronglySorted byOrder (renumber l).
Proof. apply (renumber_sorted_from 0 l). Qed.

Lemma erase_renumber l :
  (λ a, App.with_order a 0) <$> renumber l = (λ a, App.with_order a 0) <$> l.
Proof.
  unfold renumber. rewrite fmap_imap.
  rewrite <- (imap_const (λ a, App.with_order a 0) l). by apply imap_ext.
Qed.

Lemma renumber_erase l : renumber ((λ a, App.with_order a 0) <$> l) = renumber l.
Proof. unfold renumber. rewrite imap_fmap. by apply imap_ext. Qed.

Lemma renumber_ext l1 l2 :
  (λ a, App.with_order a 0) <$> l1 = (λ a, App.with_order a 0) <$> l2 →
  renumber l1 = renumber l2.
Proof. intros Heq. by rewrite <- (renumber_erase l1), Heq, renumber_erase. Qed.

Lemma id_renumber l : App.id <$> renumber l = App.id <$> l.
Proof.
  unfold renumber. rewrite fmap_imap. rewrite <- (imap_const App.id l).
  by apply imap_ext.
Qed.

(** The list handed to [onReorder] by a move from [i] to [j], moved back
    from [j] to [i]. *)
Lemma reordered_round_trip apps (i j : Z) :
  0 ≤ i < Z.of_nat (length apps) →
  0 ≤ j < Z.of_nat (length apps) →
  reordered (reordered apps i j) j i = renumber (sortedApps apps).
Proof.
  intros Hi Hj.
  pose proof (Permutation_length (sortedApps_perm apps)) as Hlen.
  set (l := sortedApps apps) in *.
  destruct (lookup_lt_is_Some_2 l (Z.to_nat i)) as [x Hx]; [lia |].
  rewrite (reordered_moves apps i j x) by (done || lia).
  fold l.
  set (rest := take (Z.to_nat i) l ++ drop (S (Z.to_nat i)) l).
  assert (Hrest : S (length rest) = length apps).
  { subst rest. rewrite length_app, length_take_le, length_drop by lia. lia. }
  set (m1 := take (Z.to_nat j) rest ++ x :: drop (Z.to_nat j) rest).
  destruct (remove_inserted (Z.to_nat j) x rest) as [Hm1j Hm1]; [lia |].
  fold m1 in Hm1j, Hm1.
  assert (Hlen1 : length (renumber m1) = length apps).
  { unfold renumber. rewrite length_imap. subst m1.
    rewrite length_app, length_take_le by lia. simpl.
    rewrite length_drop. lia. }
  assert (Hy : sortedApps (renumber m1) !! Z.to_nat j
               = Some (App.with_order x (Z.of_nat (Z.to_nat j)))).
  { rewrite (sortedApps_fixed _ (renumber_sorted m1)). unfold renumber.
    by rewrite list_lookup_imap, Hm1j. }
  rewrite (reordered_moves (renumber m1) j i _) by (done || lia).
  rewrite (sortedApps_fixed _ (renumber_sorted m1)).
  apply renumber_ext.
  rewrite fmap_app, fmap_cons, !fmap_take, !fmap_drop, fmap_app,
    !fmap_take, !fmap_drop, erase_renumber.
  subst m1. rewrite fmap_app, fmap_cons, fmap_take, fmap_drop.
  destruct (remove_inserted (Z.to_nat j) (App.with_order x 0)
              ((λ a, App.with_order a 0) <$> rest)) as [_ Hback].
  { rewrite length_fmap. lia. }
  rewrite Hback. subst rest. rewrite fmap_app, fmap_take, fmap_drop.
  apply insert_removed. by rewrite list_lookup_fmap, Hx.
Qed.

(** A drop on another icon, among shortcuts with pairwise different,
    non-empty ids, calls [onReorder]. *)
Lemma dragOnto_moves apps (i j : nat) s :
  NoDup (App.id <$> apps) → ""%string ∉ App.id <$> apps →
  (i < length apps)%nat → (j < length apps)%nat → i ≠ j →
  dragOnto apps i j s
  = (DesktopIcons.mk None None (Z.of_nat i),
     Some (reordered apps (Z.of_nat i) (Z.of_nat j))).
Proof.
  intros Hnd Hne Hi Hj Hij. unfold dragOnto.
  pose proof (sortedApps_perm apps) as Hperm.
  pose proof (Permutation_length Hperm) as Hlen.
  destruct (lookup_lt_is_Some_2 (sortedApps apps) i) as [a Ha]; [lia |].
  destruct (lookup_lt_is_Some_2 (sortedApps apps) j) as [b Hb]; [lia |].
  rewrite Ha, Hb. unfold handleDrop, handleDragStart. simpl.
  assert (Hida : App.id a ≠ ""%string).
  { intros Heq. apply Hne. rewrite <- Hperm, <- Heq.
    apply list_elem_of_fmap. exists a. split; [done |].
    by eapply list_elem_of_lookup_2. }
  assert (Hab : App.id a ≠ App.id b).
  { intros Heq. apply Hij.
    apply (NoDup_lookup (App.id <$> sortedApps apps) i j (App.id a)).
    - by rewrite Hperm.
    - by rewrite list_lookup_fmap, Ha.
    - by rewrite list_lookup_fmap, Hb, Heq. }
  rewrite bool_decide_eq_false_2 by done.
  rewrite bool_decide_eq_false_2 by congruence. done.
Qed.

(** X8.  Among shortcuts with pairwise different, non-empty ids, the icon
    at index [i] of the grid is dropped on the icon at index [j], and the
    icon that is then at index [j] is dropped on the one at index [i].
    For [i = j] the drop is on the dragged icon itself and [onReorder] is
    not called; otherwise the two calls of [onReorder] give back the
    sorted sequence of shortcuts, renumbered from 0. *)
Theorem reorder_there_and_back apps (i j : nat) s :
  NoDup (App.id <$> apps) → ""%string ∉ App.id <$> apps →
  (i < length apps)%nat → (j < length apps)%nat →
  (i = j → (dragOnto apps i j s).2 = None)
  ∧ (i ≠ j →
     ∃ l, (dragOnto apps i j s).2 = Some l
          ∧ App.id <$> l ≡ₚ App.id <$> apps
          ∧ (∀ s', (dragOnto l j i s').2 = Some (renumber (sortedApps apps)))
          ∧ (∀ s' sh,
               Shell.apps
                 (Shell.handleReorder (renumber (sortedApps apps))
                    (Shell.handleReorder l sh))
               = renumber (sortedApps apps)
               ∧ draggedId (dragOnto l j i s').1 = None))
  ∧ App.id <$> renumber (sortedApps apps) = App.id <$> sortedApps apps
  ∧ App.order <$> renumber (sortedApps apps)
    = Z.of_nat <$> seq 0 (length apps).
Proof.
  intros Hnd Hne Hi Hj.
  pose proof (sortedApps_perm apps) as Hperm.
  pose proof (Permutation_length Hperm) as Hlen.
  split; [| split; [| split]].
  - intros <-. unfold dragOnto.
    destruct (sortedApps apps !! i) as [a|]; [| done].
    unfold handleDrop, handleDragStart. simpl.
    rewrite (bool_decide_eq_true_2 (Some (App.id a) = Some (App.id a)))
      by done.
    by rewrite orb_true_r.
  - intros Hij. rewrite (dragOnto_moves apps i j s) by done.
    set (l := reordered apps (Z.of_nat i) (Z.of_nat j)).
    destruct (reordered_in_range apps (Z.of_nat i) (Z.of_nat j))
      as (l0 & Hl & Hl0); [lia |]. fold l in Hl.
    assert (Hids : App.id <$> l ≡ₚ App.id <$> apps)
      by by rewrite Hl, id_imap_spread, Hl0.
    assert (Hlenl : length l = length apps).
    { by rewrite <- (length_fmap App.id l), Hids, length_fmap. }
    assert (Hback : ∀ s', dragOnto l j i s'
              = (DesktopIcons.mk None None (Z.of_nat j),
                 Some (renumber (sortedApps apps)))).
    { intros s'. rewrite dragOnto_moves; try (by rewrite ?Hids) || lia.
      subst l. rewrite reordered_round_trip by lia. done. }
    exists l. split; [done |]. split; [done |].
    split; [intros s'; by rewrite Hback |].
    intros s' sh. split; [done | by rewrite Hback].
  - apply id_renumber.
  - unfold renumber. rewrite fmap_imap.
    rewrite <- Hlen. apply (imap_seq_0 (sortedApps apps) Z.of_nat).
Qed.

Lemma reorder_there_and_back_witness :
  (dragOnto [Examples.appA; Examples.appB; Examples.appC] 2 0
     DesktopIcons.init).2
  = Some [App.with_order Examples.appC 0; App.with_order Examples.appA 1;
          App.with_order Examples.appB 2]
  ∧ (dragOnto [App.with_order Examples.appC 0; App.with_order Examples.appA 1;
               App.with_order Examples.appB 2] 0 2 DesktopIcons.init).2
    = Some [Examples.appA; Examples.appB; Examples.appC].
Proof.
  destruct (reorder_there_and_back
              [Examples.appA; Examples.appB; Examples.appC] 2 0
              DesktopIcons.init) as (_ & Hmove & _).
  - by apply (bool_decide_unpack _).
  - by apply (bool_decide_unpack _).
  - simpl. lia.
  - simpl. lia.
  - destruct Hmove as (l & Hl & _ & Hback & _); [done |].
    assert (Heq : l = [App.with_order Examples.appC 0;
                       App.with_order Examples.appA 1;
                       App.with_order Examples.appB 2]).
    { assert (Hc : (dragOnto [Examples.appA; Examples.appB; Examples.appC]
                      2 0 DesktopIcons.init).2
                   = Some [App.with_order Examples.appC 0;
                           App.with_order Examples.appA 1;
                           App.with_order Examples.appB 2]) by reflexivity.
      rewrite Hl in Hc. by injection Hc. }
    subst l. split; [exact Hl |]. apply Hback.
Defined.

End ReorderRoundTrip.

(** * Adding and editing shortcuts; the settings window *)

Section AppForm.

Import DesktopIcons.

Variable trim : string → string.
Variable parsesAsWeb : string → bool.

Implicit Types (u : ShellUi.state) (m : AppModal.state) (a : App.t).
Implicit Types (l : list App.t).

Lemma withScheme_http val :
  String.prefix "http" (AppModal.withScheme val) = true.
Proof.
  unfold AppModal.withScheme.
  destruct (String.prefix "http" val) eqn:Hp; [done | reflexivity].
Qed.

Lemma handleSave_Some uuid app n m m' saved :
  AppModal.handleSave trim parsesAsWeb uuid app n m = (m', Some saved) →
  saved = App.mk (from_option App.id uuid app) (trim (AppModal.name m))
            (AppModal.withScheme (AppModal.url m)) (AppModal.emoji m)
            (AppModal.color m) (from_option App.order (Z.of_nat n) app)
  ∧ trim (AppModal.name m) ≠ ""%string
  ∧ AppModal.urlError m' = ""%string.
Proof.
  unfold AppModal.handleSave. case_bool_decide as Hname; [done |].
  destruct (AppModal.validateUrl parsesAsWeb _); [| done].
  by intros [= <- <-].
Qed.

Lemma insert_by_order_last a b l :
  App.order a ≤ App.order b →
  insert_by_order a (l ++ [b]) = insert_by_order a l ++ [b].
Proof.
  intros Hab. induction l as [|c l IH]; simpl.
  - by rewrite decide_True by by apply Number_mono.
  - case_decide; [done |]. by rewrite IH.
Qed.

Lemma sortedApps_snoc l b :
  Forall (λ a, App.order a ≤ App.order b) l →
  sortedApps (l ++ [b]) = sortedApps l ++ [b].
Proof.
  induction 1 as [|a l Ha Hl IH]; [done |]. simpl.
  rewrite IH. by apply insert_by_order_last.
Qed.

Lemma renumber_below l :
  Forall (λ a, App.order a ≤ Z.of_nat (length (renumber l))) (renumber l).
Proof.
  apply Forall_lookup. intros i a Hi. unfold renumber in *.
  rewrite length_imap. rewrite list_lookup_imap in Hi.
  destruct (l !! i) as [b|] eqn:Hb; [| done].
  apply lookup_lt_Some in Hb. injection Hi as <-. simpl. lia.
Qed.

(** X10.  Saving the form for a new shortcut appends it to the app list
    with a fresh id, the trimmed name, a URL that starts with "http" and
    [order] = the number of shortcuts there were.  When no shortcut has a
    larger [order] (so right after a reorder) the new shortcut is shown
    last; the open windows are untouched and the form closes. *)
Theorem new_shortcut_is_listed_last uuid u m m' saved :
  ShellUi.editingApp u = None →
  AppModal.handleSave trim parsesAsWeb uuid (ShellUi.editingApp u)
    (length (Shell.apps (ShellUi.shell u))) m = (m', Some saved) →
  let u' := ShellUi.handleSaveApp saved u in
  Shell.apps (ShellUi.shell u') = Shell.apps (ShellUi.shell u) ++ [saved]
  ∧ App.id saved = uuid
  ∧ (App.name saved = trim (AppModal.name m) ∧ App.name saved ≠ ""%string)
  ∧ App.order saved = Z.of_nat (length (Shell.apps (ShellUi.shell u)))
  ∧ String.prefix "http" (App.url saved) = true
  ∧ (Forall (λ a, App.order a ≤ App.order saved)
       (Shell.apps (ShellUi.shell u)) →
     sortedApps (Shell.apps (ShellUi.shell u'))
     = sortedApps (Shell.apps (ShellUi.shell u)) ++ [saved])
  ∧ (∀ l, Shell.apps (ShellUi.shell u) = renumber l →
     sortedApps (Shell.apps (ShellUi.shell u'))
     = Shell.apps (ShellUi.shell u) ++ [saved])
  ∧ Shell.openWindows (ShellUi.shell u')
    = Shell.openWindows (ShellUi.shell u)
  ∧ ShellUi.appModalOpen u' = false.
Proof.
  intros Hnew Hsave u'. rewrite Hnew in Hsave.
  apply handleSave_Some in Hsave as (-> & Hname & _). simpl.
  assert (Happs : Shell.apps (ShellUi.shell u')
                  = Shell.apps (ShellUi.shell u)
                    ++ [App.mk uuid (trim (AppModal.name m))
                          (AppModal.withScheme (AppModal.url m))
                          (AppModal.emoji m) (AppModal.color m)
                          (Z.of_nat (length (Shell.apps (ShellUi.shell u))))]).
  { subst u'. unfold ShellUi.handleSaveApp. by rewrite Hnew. }
  split; [done |]. split; [done |]. split; [done |]. split; [done |].
  split; [apply withScheme_http |]. split.
  { intros Hall. rewrite Happs. by apply sortedApps_snoc. }
  split.
  { intros l Hl. rewrite Happs, sortedApps_snoc.
    - rewrite Hl at 1. by rewrite (sortedApps_fixed _ (renumber_sorted l)), Hl.
    - rewrite Hl. simpl. apply renumber_below. }
  subst u'. unfold ShellUi.handleSaveApp. by rewrite Hnew.
Qed.

Lemma appIds_replaceApp app l :
  App.id <$> (ShellUi.replaceApp app <$> l) = App.id <$> l.
Proof.
  rewrite <- list_fmap_compose. apply list_fmap_ext. intros i a _. simpl.
  unfold ShellUi.replaceApp. by case_bool_decide.
Qed.

Lemma replaceApp_absent app l :
  App.id app ∉ App.id <$> l → ShellUi.replaceApp app <$> l = l.
Proof.
  intros Hout. rewrite <- (list_fmap_id l) at 2. apply list_fmap_ext.
  intros i a Hi. unfold ShellUi.replaceApp. case_bool_decide as Ha; [| done].
  destruct Hout. rewrite <- Ha. apply list_elem_of_fmap_2.
  by eapply list_elem_of_lookup_2.
Qed.

(** X11.  Saving the form for an edited shortcut keeps its id and its
    [order] and replaces, in place, the shortcuts of that id: the list
    keeps its length and its sequence of ids, and is unchanged when the id
    is no longer there.  The open windows are not updated: a window of
    the edited app keeps the data of before the edit, also when the app
    is launched again. *)
Theorem edited_shortcut_replaces_in_place uuid u e m m' saved :
  ShellUi.editingApp u = Some e →
  AppModal.handleSave trim parsesAsWeb uuid (ShellUi.editingApp u)
    (length (Shell.apps (ShellUi.shell u))) m = (m', Some saved) →
  let u' := ShellUi.handleSaveApp saved u in
  App.id saved = App.id e
  ∧ App.order saved = App.order e
  ∧ length (Shell.apps (ShellUi.shell u'))
    = length (Shell.apps (ShellUi.shell u))
  ∧ App.id <$> Shell.apps (ShellUi.shell u')
    = App.id <$> Shell.apps (ShellUi.shell u)
  ∧ (∀ i a, Shell.apps (ShellUi.shell u) !! i = Some a →
       Shell.apps (ShellUi.shell u') !! i
       = Some (if decide (App.id a = App.id e) then saved else a))
  ∧ (App.id e ∉ App.id <$> Shell.apps (ShellUi.shell u) →
     Shell.apps (ShellUi.shell u') = Shell.apps (ShellUi.shell u))
  ∧ Shell.openWindows (ShellUi.shell u')
    = Shell.openWindows (ShellUi.shell u)
  ∧ (Settings.openInIframe (Shell.localSettings (ShellUi.shell u)) = true →
     App.id e ∈ Shell.appIds (ShellUi.shell u) →
     ∀ now, OpenWindow.app
              <$> Shell.openWindows (Shell.launchApp now saved (ShellUi.shell u'))
            = OpenWindow.app <$> Shell.openWindows (ShellUi.shell u))
  ∧ ShellUi.editingApp u' = None
  ∧ ShellUi.appModalOpen u' = false.
Proof.
  intros Hedit Hsave u'. rewrite Hedit in Hsave.
  apply handleSave_Some in Hsave as (-> & _ & _). simpl.
  assert (Hu' : u' = ShellUi.mk
            (Shell.set_apps
               (ShellUi.replaceApp
                  (App.mk (App.id e) (trim (AppModal.name m))
                     (AppModal.withScheme (AppModal.url m))
                     (AppModal.emoji m) (AppModal.color m) (App.order e))
                  <$> Shell.apps (ShellUi.shell u)) (ShellUi.shell u))
            (ShellUi.startOpen u) (ShellUi.settingsOpen u) false None
            (ShellUi.settingsWin u)
            (ShellUi.toasts u
             ++ [AppModal.emoji m +:+ " " +:+ trim (AppModal.name m)
                 +:+ " updated"])).
  { subst u'. unfold ShellUi.handleSaveApp. by rewrite Hedit. }
  rewrite Hu'. simpl. clear Hu' u'.
  split; [done |]. split; [done |]. split; [apply length_fmap |].
  split; [apply appIds_replaceApp |]. split.
  { intros i a Hi. rewrite list_lookup_fmap, Hi. simpl.
    unfold ShellUi.replaceApp. simpl. by case_bool_decide; case_decide. }
  split; [intros Hout; by apply replaceApp_absent |].
  split; [done |]. split; [| done].
  intros Hframe Hin now.
  rewrite launchApp_existing; [| done | done]. simpl.
  rewrite <- list_fmap_compose. apply list_fmap_ext. intros i w _. simpl.
  apply raise_app_app.
Qed.

End AppForm.

Lemma new_shortcut_is_listed_last_witness :
  ShellUi.editingApp Examples.panels = None
  ∧ DesktopIcons.sortedApps
      (Shell.apps
         (ShellUi.shell
            (ShellUi.handleSaveApp
               (App.mk "uuid-d" "D" "https://d.example" "D" "#00f5ff" 3)
               Examples.panels)))
    = [Examples.appA; Examples.appB; Examples.appC;
       App.mk "uuid-d" "D" "https://d.example" "D" "#00f5ff" 3].
Proof.
  split; [reflexivity |].
  destruct (new_shortcut_is_listed_last (λ s, s) (λ _, true) "uuid-d"
              Examples.panels Examples.formD
              (AppModal.mk "D" "d.example" "D" "#00f5ff" "")
              (App.mk "uuid-d" "D" "https://d.example" "D" "#00f5ff" 3)
              eq_refl eq_refl) as (_ & _ & _ & _ & _ & Hlast & _).
  apply Hlast. repeat constructor; simpl; lia.
Defined.

Lemma edited_shortcut_replaces_in_place_witness :
  ShellUi.editingApp Examples.editingA = Some Examples.appA
  ∧ Shell.openWindows
      (ShellUi.shell
         (ShellUi.handleSaveApp
            (App.mk "a" "A2" "https://a2.example" "A" "#ff0040" 0)
            Examples.editingA))
    = Shell.openWindows (ShellUi.shell Examples.editingA)
  ∧ App.name <$> Shell.apps
      (ShellUi.shell
         (ShellUi.handleSaveApp
            (App.mk "a" "A2" "https://a2.example" "A" "#ff0040" 0)
            Examples.editingA))
    = ["A2"; "B"; "C"]%string.
Proof.
  split; [reflexivity |].
  destruct (edited_shortcut_replaces_in_place (λ s, s) (λ _, true) "unused"
              Examples.editingA Examples.appA Examples.formA
              (AppModal.mk "A2" "https://a2.example" "A" "#ff0040" "")
              (App.mk "a" "A2" "https://a2.example" "A" "#ff0040" 0)
              eq_refl eq_refl) as (_ & _ & _ & _ & _ & _ & Hwin & _).
  split; [exact Hwin | reflexivity].
Defined.

Section SettingsPanel.

Implicit Types (u : ShellUi.state) (w : SettingsWindow.state).

(** X16.  The settings window has no restore control.  Once minimized it
    stays mounted but off screen; the taskbar's settings button then
    closes it, and only the next click shows a settings window again: a
    new one, at (120, 60), on the Appearance section. *)
Theorem minimized_settings_need_two_clicks u w :
  ShellUi.settingsOpen u = true →
  ShellUi.settingsWin u = Some w →
  SettingsWindow.minimized w = false →
  let u1 := ShellUi.minimizeSettings u in
  let u2 := ShellUi.onSettingsClick u1 in
  let u3 := ShellUi.onSettingsClick u2 in
  ShellUi.settingsShown u = true
  ∧ (ShellUi.settingsOpen u1 = true ∧ ShellUi.settingsShown u1 = false)
  ∧ ShellUi.minimizeSettings u1 = u1
  ∧ (ShellUi.settingsOpen u2 = false ∧ ShellUi.settingsShown u2 = false)
  ∧ (ShellUi.settingsShown u3 = true
     ∧ ShellUi.settingsWin u3 = Some SettingsWindow.mount)
  ∧ ShellUi.shell u3 = ShellUi.shell u.
Proof.
  intros Hopen Hwin Hmin u1 u2 u3.
  subst u3 u2 u1. unfold ShellUi.settingsShown, ShellUi.minimizeSettings,
    ShellUi.onSettingsClick, ShellUi.render, SettingsWindow.rendersDialog.
  rewrite Hwin, Hmin. simpl. rewrite Hopen. simpl. done.
Qed.

Lemma minimized_settings_need_two_clicks_witness :
  ShellUi.settingsOpen (ShellUi.onSettingsClick Examples.panels) = true
  ∧ ShellUi.settingsShown
      (ShellUi.onSettingsClick
         (ShellUi.minimizeSettings (ShellUi.onSettingsClick Examples.panels)))
    = false.
Proof.
  split; [reflexivity |].
  apply (minimized_settings_need_two_clicks
           (ShellUi.onSettingsClick Examples.panels) SettingsWindow.mount);
    reflexivity.
Defined.

End SettingsPanel.

(** * Stacking order, dragging and timers, continued *)

Section StackingOrder.

Implicit Types (s : Shell.state) (w : OpenWindow.t) (ws : list OpenWindow.t).

Lemma NoDup_zIndex_raised {K} `{EqDecision K} (key : OpenWindow.t → K) (k : K)
    (z : Z) (r : OpenWindow.t → OpenWindow.t) ws :
  (∀ w, OpenWindow.zIndex (r w)
        = if decide (key w = k) then z else OpenWindow.zIndex w) →
  NoDup (key <$> ws) →
  Forall (λ w, OpenWindow.zIndex w < z) ws →
  NoDup (OpenWindow.zIndex <$> ws) →
  NoDup (OpenWindow.zIndex <$> (r <$> ws)).
Proof.
  intros Hr. induction ws as [|w ws IH]; intros Hkey Hlt Hz; [constructor |].
  rewrite !fmap_cons in *.
  apply NoDup_cons in Hkey as [Hkw Hkey]. apply NoDup_cons in Hz as [Hzw Hz].
  apply Forall_cons in Hlt as [Hw Hlt].
  apply NoDup_cons. split; [| by apply IH].
  intros Hin. apply list_elem_of_fmap in Hin as (w1 & Heq & Hin).
  apply list_elem_of_fmap in Hin as (w' & -> & Hin).
  rewrite !Hr in Heq. rewrite Forall_forall in Hlt.
  specialize (Hlt _ Hin). simpl in Hlt, Hw.
  destruct (decide (key w = k)) as [Hk|Hk];
    destruct (decide (key w' = k)) as [Hk'|Hk'].
  - apply Hkw. rewrite Hk, <- Hk'. by apply list_elem_of_fmap_2.
  - lia.
  - lia.
  - apply Hzw. rewrite Heq. by apply list_elem_of_fmap_2.
Qed.

Lemma below_lt ws z :
  Forall (λ w, OpenWindow.zIndex w ≤ z) ws →
  Forall (λ w, OpenWindow.zIndex w < z + 1) ws.
Proof.
  intros Hall. eapply Forall_impl; [exact Hall |]. intros w Hw. simpl in *. lia.
Qed.

Lemma strictly_stacked_apply n o s :
  Shell.launchesOfLength n o →
  strictly_stacked n s → strictly_stacked n (Shell.apply o s).
Proof.
  intros Ho (Hinv & Hst & Hnd & Hlow & Htop).
  split; [by apply wm_inv_apply |]. split; [by apply stamped_apply |].
  pose proof (windowIds_NoDup n s Hinv Hst) as Hids.
  destruct Hinv as [Hz Happ].
  destruct o as [now a|k|k|appId|l|st]; simpl in *; try done.
  - unfold Shell.launchApp.
    destruct (Settings.openInIframe (Shell.localSettings s)); [| done].
    destruct (List.find (Shell.shows a) (Shell.openWindows s)); simpl.
    + split; [| split; [| lia]].
      * apply (NoDup_zIndex_raised (λ w, App.id (OpenWindow.app w)) (App.id a)
                 (Shell.topZ s + 1));
          [apply raise_app_zIndex | done | by apply below_lt | done].
      * apply Forall_fmap. eapply Forall_impl; [exact Hlow |].
        intros w Hw. simpl in *. rewrite raise_app_zIndex. case_decide; lia.
    + split; [| split; [| lia]].
      * rewrite fmap_app. apply NoDup_app. split; [done |].
        split; [| apply NoDup_singleton].
        intros z Hin Hz'. apply list_elem_of_singleton in Hz'. simpl in Hz'.
        apply list_elem_of_fmap in Hin as (w & -> & Hin).
        rewrite Forall_forall in Hz. specialize (Hz _ Hin). simpl in Hz. lia.
      * apply Forall_app. split; [done |]. apply Forall_singleton. simpl. lia.
  - split; [| split; [| lia]].
    + apply (NoDup_zIndex_raised OpenWindow.id k (Shell.topZ s + 1));
        [apply raise_window_zIndex | done | by apply below_lt | done].
    + apply Forall_fmap. eapply Forall_impl; [exact Hlow |].
      intros w Hw. simpl in *. rewrite raise_window_zIndex. case_decide; lia.
  - split; [| split; [| done]].
    + eapply sublist_NoDup; [exact Hnd |]. apply fmap_sublist, sublist_filter.
    + rewrite Forall_forall in *. intros w Hw.
      apply list_elem_of_filter in Hw as [_ Hw]. by apply Hlow.
Qed.

Lemma strictly_stacked_exec n ops s :
  Forall (Shell.launchesOfLength n) ops →
  strictly_stacked n s → strictly_stacked n (Shell.exec ops s).
Proof.
  revert s. induction ops as [|o ops IH]; intros s Hops Hs; [done |].
  apply Forall_cons in Hops as [Ho Hops].
  apply IH; [done |]. by apply strictly_stacked_apply.
Qed.

Lemma topZ_apply o s : Shell.topZ s ≤ Shell.topZ (Shell.apply o s).
Proof.
  destruct o as [now a|k|k|appId|l|st]; simpl; try lia.
  unfold Shell.launchApp.
  destruct (Settings.openInIframe (Shell.localSettings s)); [| simpl; lia].
  destruct (List.find (Shell.shows a) (Shell.openWindows s)); simpl; lia.
Qed.

Lemma above_start_apply o s :
  Forall (λ w, 100 < OpenWindow.zIndex w) (Shell.openWindows s) →
  100 ≤ Shell.topZ s →
  Forall (λ w, 100 < OpenWindow.zIndex w) (Shell.openWindows (Shell.apply o s)).
Proof.
  intros Hlow Htop. destruct o as [now a|k|k|appId|l|st]; simpl; try done.
  - unfold Shell.launchApp.
    destruct (Settings.openInIframe (Shell.localSettings s)); [| done].
    destruct (List.find (Shell.shows a) (Shell.openWindows s)); simpl.
    + apply Forall_fmap. eapply Forall_impl; [exact Hlow |].
      intros w Hw. simpl in *. rewrite raise_app_zIndex. case_decide; lia.
    + apply Forall_app. split; [done |]. apply Forall_singleton. simpl. lia.
  - apply Forall_fmap. eapply Forall_impl; [exact Hlow |].
    intros w Hw. simpl in *. rewrite raise_window_zIndex. case_decide; lia.
  - rewrite Forall_forall in *. intros w Hw.
    apply list_elem_of_filter in Hw as [_ Hw]. by apply Hlow.
Qed.

Lemma above_start_exec ops s :
  Forall (λ w, 100 < OpenWindow.zIndex w) (Shell.openWindows s) →
  100 ≤ Shell.topZ s →
  Forall (λ w, 100 < OpenWindow.zIndex w) (Shell.openWindows (Shell.exec ops s))
  ∧ 100 ≤ Shell.topZ (Shell.exec ops s).
Proof.
  revert s. induction ops as [|o ops IH]; intros s Hlow Htop; [done |].
  apply IH; [by apply above_start_apply |].
  pose proof (topZ_apply o s). lia.
Qed.

(** X12.  The counter starts at 100 and never goes down; every open
    window has a zIndex above 100 and at most the counter, so the settings
    window, drawn at the counter plus 10, is above all of them; and when
    the launched apps have ids of one length no two open windows share a
    zIndex. *)
Theorem windows_are_strictly_stacked (ops : list Shell.Op) loaded settings :
  let s := Shell.exec ops (Shell.init loaded settings) in
  Forall (λ w, 100 < OpenWindow.zIndex w ≤ Shell.topZ s) (Shell.openWindows s)
  ∧ Forall (λ w, OpenWindow.zIndex w < settingsZIndex s) (Shell.openWindows s)
  ∧ (∀ o, Shell.topZ s ≤ Shell.topZ (Shell.apply o s))
  ∧ (∀ n, Forall (Shell.launchesOfLength n) ops →
          NoDup (OpenWindow.zIndex <$> Shell.openWindows s)).
Proof.
  intros s.
  assert (Hinv : Shell.wm_inv s) by apply wm_inv_exec, wm_inv_init.
  destruct (above_start_exec ops (Shell.init loaded settings))
    as [Hlow Htop]; [constructor | simpl; lia |].
  fold s in Hlow, Htop. destruct Hinv as [Hz _].
  rewrite Forall_forall in Hz, Hlow.
  split; [| split; [| split]].
  - apply Forall_forall. intros w Hw.
    specialize (Hz _ Hw). specialize (Hlow _ Hw). simpl in *. lia.
  - apply Forall_forall. intros w Hw. specialize (Hz _ Hw).
    unfold settingsZIndex. simpl in *. lia.
  - intros o. apply topZ_apply.
  - intros n Hops.
    assert (Hs : strictly_stacked n s).
    { apply strictly_stacked_exec; [done |].
      split; [apply wm_inv_init |]. simpl.
      repeat split; try constructor. lia. }
    by destruct Hs as (_ & _ & Hnd & _).
Qed.

Lemma windows_are_strictly_stacked_witness :
  Forall (Shell.launchesOfLength 1) Examples.twoOpen
  ∧ NoDup (OpenWindow.zIndex
             <$> Shell.openWindows
                   (Shell.exec Examples.twoOpen
                      (Shell.init [] Settings.DEFAULT_SETTINGS))).
Proof.
  assert (Hlen : Forall (Shell.launchesOfLength 1) Examples.twoOpen)
    by (repeat constructor).
  split; [exact Hlen |].
  destruct (windows_are_strictly_stacked Examples.twoOpen []
              Settings.DEFAULT_SETTINGS) as (_ & _ & _ & Hnd).
  exact (Hnd 1%nat Hlen).
Defined.

End StackingOrder.

Section DraggingMore.

Import Desktop.

Implicit Types (d : Desktop.state) (k : string) (v : View).

Lemma view_eta v : mkView (inst v) (win v) = v.
Proof. by destruct v. Qed.

(** On one axis: for whole pixels below 2^50 the two subtractions of a
    drag and the clamp are exact. *)
Lemma drag_axis_exact p c c' W w :
  Forall (λ n, Z.abs n < 2 ^ 50) [p; c; c'; W; w] →
  Z.max 0 (Z.min (Double.sub (Double.int c')
                    (Double.sub (Double.int c) (Double.int p)))
                 (Double.sub (Double.int W) (Double.int w)))
  = Double.int (Z.max 0 (Z.min (p + (c' - c)) (W - w))).
Proof.
  intros Hall. repeat (apply Forall_cons in Hall as [? Hall]).
  assert (H53 : 2 ^ 50 * 8 = 2 ^ 53) by reflexivity.
  rewrite (sub_int c p), (sub_int c' (c - p)), (sub_int W w) by lia.
  rewrite int_max, int_min. change (Double.int 0) with 0.
  by replace (c' - (c - p)) with (p + (c' - c)) by lia.
Qed.

(** X13.  Grabbing a window by its title bar and moving the pointer puts
    the window at the pointer's position minus the offset taken at the
    press (the pointer's position then minus the window's), clamped as in
    C3, in every phase in which the title bar is on screen.  The position
    depends on the last pointer position only, not on the moves before
    it.  Both differences are rounded as doubles; for whole pixels they
    are exact and the window moves by the pointer's displacement.  The
    press calls [onFocus] twice (the title bar's handler and the
    dialog's), so the counter advances by two; the phase is unchanged,
    and a window that is not being dragged stays where it is. *)
Theorem drag_follows_the_pointer d k v clientX clientY clientX' clientY' :
  mounted d !! k = Some v →
  AppWindow.phase (win v) ≠ AppWindow.minimized →
  let d1 := step (TitleMouseDown k clientX clientY) d in
  let d2 := step (MouseMove clientX' clientY') d1 in
  posOf k d2
  = Some (Point.mk
            (Z.max 0
               (Z.min (Double.sub clientX'
                         (Double.sub clientX (Point.x (AppWindow.pos (win v)))))
                      (Double.sub (innerWidth d)
                         (Size.w (AppWindow.size (win v))))))
            (Z.max 0
               (Z.min (Double.sub clientY'
                         (Double.sub clientY (Point.y (AppWindow.pos (win v)))))
                      (Double.sub (innerHeight d)
                         (Size.h (AppWindow.size (win v)))))))
  ∧ (∀ cx cy,
       posOf k (step (MouseMove clientX' clientY')
                  (step (MouseMove cx cy) d1))
       = posOf k d2)
  ∧ (∀ x y cx cy cx' cy' W H w h,
       AppWindow.pos (win v) = Point.mk (Double.int x) (Double.int y) →
       AppWindow.size (win v) = Size.mk (Double.int w) (Double.int h) →
       clientX = Double.int cx → clientY = Double.int cy →
       clientX' = Double.int cx' → clientY' = Double.int cy' →
       innerWidth d = Double.int W → innerHeight d = Double.int H →
       Forall (λ n, Z.abs n < 2 ^ 50) [x; cx; cx'; W; w] →
       Forall (λ n, Z.abs n < 2 ^ 50) [y; cy; cy'; H; h] →
       posOf k d2
       = Some (Point.mk
                 (Double.int (Z.max 0 (Z.min (x + (cx' - cx)) (W - w))))
                 (Double.int (Z.max 0 (Z.min (y + (cy' - cy)) (H - h))))))
  ∧ phaseOf k d2 = Some (AppWindow.phase (win v))
  ∧ Shell.topZ (shell d2) = Shell.topZ (shell d) + 2
  ∧ (∀ w, w ∈ Shell.openWindows (shell d2) → OpenWindow.id w = k →
          OpenWindow.zIndex w = Shell.topZ (shell d) + 2)
  ∧ (∀ k' v', k' ≠ k → mounted d !! k' = Some v' →
              AppWindow.isDragging (win v') = false →
              mounted d2 !! k' = Some v').
Proof.
  intros Hk Hph d1 d2.
  assert (Hshown : dialogShown k d = true).
  { unfold dialogShown, AppWindow.rendersDialog. rewrite Hk.
    by rewrite bool_decide_eq_false_2. }
  assert (Hpos : posOf k d2
    = Some (Point.mk
              (Z.max 0
                 (Z.min (Double.sub clientX'
                           (Double.sub clientX
                              (Point.x (AppWindow.pos (win v)))))
                        (Double.sub (innerWidth d)
                           (Size.w (AppWindow.size (win v))))))
              (Z.max 0
                 (Z.min (Double.sub clientY'
                           (Double.sub clientY
                              (Point.y (AppWindow.pos (win v)))))
                        (Double.sub (innerHeight d)
                           (Size.h (AppWindow.size (win v)))))))).
  { subst d2 d1. unfold posOf. simpl. rewrite Hshown. simpl.
    by rewrite !lookup_fmap, lookup_alter_eq, Hk. }
  split; [done |]. split.
  { intros cx cy. rewrite Hpos. subst d1. unfold posOf. simpl.
    rewrite Hshown. simpl.
    by rewrite !lookup_fmap, lookup_alter_eq, Hk. }
  split.
  { intros x y cx cy cx' cy' W H w h Hp Hs -> -> -> -> HW HH Hx Hy.
    rewrite Hpos, Hp, Hs, HW, HH. simpl.
    by rewrite (drag_axis_exact x cx cx' W w Hx),
      (drag_axis_exact y cy cy' H h Hy). }
  subst d2 d1. unfold phaseOf. simpl. rewrite Hshown. simpl.
  rewrite !lookup_fmap, lookup_alter_eq, Hk. simpl.
  split; [done |]. split; [lia |]. split.
  - intros w Hw Hid.
    apply list_elem_of_fmap in Hw as (w1 & -> & Hw).
    apply list_elem_of_fmap in Hw as (w0 & -> & Hw).
    rewrite !raise_window_id in Hid. rewrite !raise_window_zIndex.
    rewrite raise_window_id. rewrite !decide_True by done. lia.
  - intros k' v' Hne Hk' Hdrag.
    rewrite lookup_fmap, lookup_alter_ne, Hk' by done. simpl.
    unfold AppWindow.handleMouseMove. rewrite Hdrag. by rewrite view_eta.
Qed.

Lemma drag_follows_the_pointer_witness :
  posOf "a0"
    (step (MouseMove (Double.int 130) (Double.int 75))
       (step (TitleMouseDown "a0" (Double.int 100) (Double.int 70))
          (run Examples.openA Examples.desk)))
  = Some (Point.mk (Double.int 110) (Double.int 65)).
Proof.
  destruct (drag_follows_the_pointer (run Examples.openA Examples.desk) "a0"
              (mkView 0 (AppWindow.mount None 0 0))
              (Double.int 100) (Double.int 70) (Double.int 130)
              (Double.int 75)) as (_ & _ & Hexact & _);
    [reflexivity | done |].
  apply (Hexact 80 60 100 70 130 75 1280 720 900 580);
    try reflexivity; repeat constructor.
Defined.

(** X14.  Releasing the button ends every drag: after it no window is
    being dragged, and pointer moves leave all mounted windows as they
    are until the next press on a title bar.  The release itself moves
    nothing. *)
Theorem mouse_up_ends_every_drag d clientX clientY :
  let d1 := step MouseUp d in
  (∀ k v, mounted d1 !! k = Some v → AppWindow.isDragging (win v) = false)
  ∧ mounted (step (MouseMove clientX clientY) d1) = mounted d1
  ∧ (∀ k, posOf k d1 = posOf k d ∧ phaseOf k d1 = phaseOf k d)
  ∧ shell d1 = shell d
  ∧ timers d1 = timers d.
Proof.
  intros d1. subst d1. simpl. split; [| split; [| split; [| done]]].
  - intros k v Hk. rewrite lookup_fmap in Hk.
    destruct (mounted d !! k) as [v0|]; [| done]. by injection Hk as <-.
  - apply map_eq. intros k. rewrite !lookup_fmap.
    by destruct (mounted d !! k) as [v0|].
  - intros k. unfold posOf, phaseOf. simpl. rewrite lookup_fmap.
    by destruct (mounted d !! k) as [v0|].
Qed.

End DraggingMore.

Section TimerRace.

Import Desktop.

Implicit Types (d : Desktop.state) (k : string) (v : View) (i : nat).
Implicit Types (t u : Timer) (q ts : list Timer) (m : gmap string View).
Implicit Types (h : AppWindow.state → AppWindow.state * (Z * AppWindow.WindowPhase)).

Lemma settle_app k i ts1 ts2 s :
  settle k i (ts1 ++ ts2) s = settle k i ts2 (settle k i ts1 s).
Proof. unfold settle. apply foldl_app. Qed.

Lemma settle_quiet k i ts s : quiet k i ts → settle k i ts s = s.
Proof.
  induction 1 as [|t ts Ht Hts IH]; [done |].
  unfold settle in *. simpl. by rewrite decide_False.
Qed.

Lemma settle_hit k i t ts s :
  targets k i t →
  settle k i (t :: ts) s = settle k i ts (AppWindow.setPhase (setTo t) s).
Proof. intros Ht. unfold settle. simpl. by rewrite decide_True. Qed.

(** Only the instance's own timers count. *)
Lemma settle_filter k i ts s :
  settle k i ts s = settle k i (filter (targets k i) ts) s.
Proof.
  revert s. induction ts as [|t ts IH]; intros s; [done |].
  rewrite filter_cons. unfold settle in *. simpl.
  case_decide; simpl; [by rewrite decide_True |]. apply IH.
Qed.

(** What the timers that ran did to one mounted window. *)
Lemma fire_all_settle ts m k v :
  m !! k = Some v →
  fire_all ts m !! k = Some (mkView (inst v) (settle k (inst v) ts (win v))).
Proof.
  revert m v. induction ts as [|t ts IH]; intros m v Hk.
  - simpl. by rewrite view_eta.
  - change (fire_all (t :: ts) m) with (fire_all ts (fire t m)).
    destruct (decide (targets k (inst v) t)) as [Ht|Ht].
    + rewrite (IH _ _ (fire_hit t m k v Hk Ht)).
      by rewrite (settle_hit _ _ _ _ _ Ht).
    + rewrite (IH _ _ (fire_quiet t m k v Hk Ht)).
      unfold settle. simpl. by rewrite decide_False.
Qed.

Lemma schedule_split_le t q :
  ∃ q1 q2, schedule t q = q1 ++ t :: q2 ∧ q = q1 ++ q2
           ∧ Forall (λ u, due u ≤ due t) q1.
Proof.
  induction q as [|u q IH]; simpl.
  - by exists [], [].
  - case_decide.
    + destruct IH as (q1 & q2 & -> & -> & Hle).
      exists (u :: q1), q2. split; [done |]. split; [done |]. by constructor.
    + by exists [], (u :: q).
Qed.

Lemma schedule_before t u a b :
  due t < due u →
  ∃ a1 a2, a = a1 ++ a2 ∧ schedule t (a ++ u :: b) = a1 ++ t :: a2 ++ u :: b.
Proof.
  intros Hlt. induction a as [|x a IH]; simpl.
  - exists [], []. split; [done |]. rewrite decide_False by lia. done.
  - case_decide.
    + destruct IH as (a1 & a2 & -> & ->). by exists (x :: a1), a2.
    + by exists [], (x :: a).
Qed.

Lemma schedule_after t u a b :
  Forall (λ x, due x ≤ due t) a → due u ≤ due t →
  schedule t (a ++ u :: b) = a ++ u :: schedule t b.
Proof.
  intros Ha Hu. induction Ha as [|x a Hx Ha IH]; simpl.
  - by rewrite decide_True.
  - by rewrite decide_True, IH.
Qed.

(** A click, then a wait that is shorter than the handler's delay: the
    handler's state, and its timer still in the queue, after timers that
    are due no later. *)
Lemma click_then_wait_short h k d v s' delay ph ms :
  mounted d !! k = Some v →
  h (win v) = (s', (delay, ph)) →
  quiet k (inst v) (timers d) →
  0 ≤ ms < delay →
  mounted (step (Wait ms) (click h k d)) !! k = Some (mkView (inst v) s')
  ∧ clock (step (Wait ms) (click h k d)) = clock d + ms
  ∧ ∃ a b, timers (step (Wait ms) (click h k d))
           = a ++ mkTimer (clock d + delay) k (inst v) ph :: b
           ∧ quiet k (inst v) a ∧ quiet k (inst v) b
           ∧ Forall (λ u, due u ≤ clock d + delay) a.
Proof.
  intros Hk Hh Hq Hms. unfold click. rewrite Hk, Hh. simpl.
  set (t := mkTimer (clock d + delay) k (inst v) ph).
  destruct (schedule_split_le t (timers d)) as (q1 & q2 & -> & Hq12 & Hle).
  rewrite Hq12 in Hq. apply quiet_app in Hq as [Hq1 Hq2].
  assert (Hnot : ¬ isDue (clock d + Z.max 0 ms) t)
    by (unfold isDue; simpl; lia).
  rewrite !filter_app.
  rewrite (filter_cons_False (isDue (clock d + Z.max 0 ms))) by done.
  rewrite (filter_cons_True (λ t, ¬ isDue (clock d + Z.max 0 ms) t)) by done.
  split; [| split; [lia |]].
  - rewrite <- filter_app.
    apply (fire_all_quiet _ _ k (mkView (inst v) s'));
      [by rewrite lookup_insert_eq |].
    simpl. apply quiet_filter. by apply quiet_app.
  - eexists _, _. split; [reflexivity |].
    split; [by apply quiet_filter |]. split; [by apply quiet_filter |].
    rewrite Forall_forall in *. intros u Hu.
    apply list_elem_of_filter in Hu as [_ Hu]. by apply Hle.
Qed.

Lemma settle_two k i q1 q2 q3 t1 t2 s :
  quiet k i q1 → quiet k i q2 → quiet k i q3 →
  targets k i t1 → targets k i t2 →
  settle k i (q1 ++ t1 :: q2 ++ t2 :: q3) s
  = AppWindow.setPhase (setTo t2) (AppWindow.setPhase (setTo t1) s).
Proof.
  intros H1 H2 H3 Ht1 Ht2.
  rewrite settle_app, (settle_quiet _ _ q1) by done.
  rewrite (settle_hit _ _ _ _ _ Ht1), settle_app, (settle_quiet _ _ q2) by done.
  by rewrite (settle_hit _ _ _ _ _ Ht2), settle_quiet.
Qed.

(** X15.  Timers are never cancelled.  Restore a minimized window, click
    Minimize [ms] milliseconds later while the window is restoring, and
    wait until both timers ran: the window ends minimized when
    [ms >= 60], but open, against the last click, when [ms < 60], because
    the timer of the restore (320 ms) then runs after the timer of the
    minimize (260 ms). *)
Theorem restore_then_minimize_race d k v ms rest :
  mounted d !! k = Some v →
  AppWindow.phase (win v) = AppWindow.minimized →
  quiet k (inst v) (timers d) →
  0 ≤ ms < 320 → 320 ≤ rest →
  let d' := run [RestoreClick k; Wait ms; MinimizeClick k; Wait rest] d in
  phaseOf k (run [RestoreClick k; Wait ms; MinimizeClick k] d)
  = Some AppWindow.minimizing
  ∧ phaseOf k d'
    = Some (if decide (ms < 60) then AppWindow.open else AppWindow.minimized)
  ∧ posOf k d' = Some (AppWindow.pos (win v))
  ∧ quiet k (inst v) (timers d').
Proof.
  intros Hk Hmin Hq Hms Hrest d'. subst d'. unfold run. cbn [foldl].
  assert (Hshown : restoreShown k d = true).
  { unfold restoreShown, AppWindow.rendersDialog. by rewrite Hk, Hmin. }
  assert (H1 : step (RestoreClick k) d = click AppWindow.handleRestore k d)
    by (simpl; by rewrite Hshown).
  rewrite H1. clear H1.
  destruct (click_then_wait_short AppWindow.handleRestore k d v _ _ _ ms
              Hk eq_refl Hq Hms) as (Hk2 & Hclock & a & b & Hq2 & Ha & Hb & Hle).
  set (d2 := step (Wait ms) (click AppWindow.handleRestore k d)) in *.
  assert (Hshown2 : dialogShown k d2 = true).
  { unfold dialogShown, AppWindow.rendersDialog. by rewrite Hk2. }
  assert (H3 : step (MinimizeClick k) d2 = click AppWindow.handleMinimize k d2)
    by (simpl; by rewrite Hshown2).
  rewrite H3. clear H3. clearbody d2.
  set (s3 := AppWindow.setPhase AppWindow.minimizing
               (AppWindow.setPhase AppWindow.restoring (win v))).
  assert (Hk3 : mounted (click AppWindow.handleMinimize k d2) !! k
                = Some (mkView (inst v) s3)).
  { rewrite lookup_click, decide_True, Hk2 by done. done. }
  split; [unfold phaseOf; by rewrite Hk3 |].
  set (tR := mkTimer (clock d + 320) k (inst v) AppWindow.open) in *.
  set (tM := mkTimer (clock d2 + 260) k (inst v) AppWindow.minimized).
  assert (Hq3 : timers (click AppWindow.handleMinimize k d2)
                = schedule tM (a ++ tR :: b)).
  { unfold click. rewrite Hk2. simpl. by rewrite Hq2. }
  assert (Hc3 : clock (click AppWindow.handleMinimize k d2) = clock d + ms).
  { unfold click. rewrite Hk2. simpl. done. }
  assert (HtR : targets k (inst v) tR) by done.
  assert (HtM : targets k (inst v) tM) by done.
  set (now := clock d + ms + Z.max 0 rest).
  assert (HdR : isDue now tR) by (unfold isDue, now; simpl; lia).
  assert (HdM : isDue now tM) by (unfold isDue, now; simpl; lia).
  assert (Hfinal : ∃ q1 q2 q3 t1 t2 r1 r2,
             filter (isDue now) (schedule tM (a ++ tR :: b))
             = q1 ++ t1 :: q2 ++ t2 :: q3
             ∧ filter (λ t, ¬ isDue now t) (schedule tM (a ++ tR :: b))
               = r1 ++ r2
             ∧ quiet k (inst v) q1 ∧ quiet k (inst v) q2
             ∧ quiet k (inst v) q3
             ∧ quiet k (inst v) r1 ∧ quiet k (inst v) r2
             ∧ targets k (inst v) t1 ∧ targets k (inst v) t2
             ∧ setTo t2 = if decide (ms < 60) then AppWindow.open
                          else AppWindow.minimized).
  { destruct (decide (ms < 60)) as [Hfast|Hslow].
    - destruct (schedule_before tM tR a b) as (a1 & a2 & Ha12 & ->).
      { simpl. lia. }
      rewrite Ha12 in Ha. apply quiet_app in Ha as [Ha1 Ha2].
      exists (filter (isDue now) a1), (filter (isDue now) a2),
        (filter (isDue now) b), tM, tR,
        (filter (λ t, ¬ isDue now t) a1),
        (filter (λ t, ¬ isDue now t) a2 ++ filter (λ t, ¬ isDue now t) b).
      rewrite !filter_app, !(filter_cons_True (isDue now)) by done.
      rewrite !filter_app, (filter_cons_True (isDue now)) by done.
      rewrite !(filter_cons_False (λ t, ¬ isDue now t)) by tauto.
      rewrite !filter_app, (filter_cons_False (λ t, ¬ isDue now t)) by tauto.
      repeat split; try (by apply quiet_filter).
      apply quiet_app. split; by apply quiet_filter.
    - rewrite schedule_after;
        [| eapply Forall_impl; [exact Hle |]; intros u Hu; simpl in *; lia
         | simpl; lia].
      destruct (schedule_split_le tM b) as (b1 & b2 & -> & Hb12 & _).
      rewrite Hb12 in Hb. apply quiet_app in Hb as [Hb1 Hb2].
      exists (filter (isDue now) a), (filter (isDue now) b1),
        (filter (isDue now) b2), tR, tM,
        (filter (λ t, ¬ isDue now t) a),
        (filter (λ t, ¬ isDue now t) b1 ++ filter (λ t, ¬ isDue now t) b2).
      rewrite !filter_app, !(filter_cons_True (isDue now)) by done.
      rewrite !filter_app, (filter_cons_True (isDue now)) by done.
      rewrite !(filter_cons_False (λ t, ¬ isDue now t)) by tauto.
      rewrite !filter_app, (filter_cons_False (λ t, ¬ isDue now t)) by tauto.
      repeat split; try (by apply quiet_filter).
      apply quiet_app. split; by apply quiet_filter. }
  destruct Hfinal as (q1 & q2 & q3 & t1 & t2 & r1 & r2 & Hfire & Hkeep
                      & Hq1 & Hq2' & Hq3' & Hr1 & Hr2 & Ht1 & Ht2 & Hlast).
  assert (Hk4 : mounted (step (Wait rest) (click AppWindow.handleMinimize k d2))
                !! k
                = Some (mkView (inst v)
                          (AppWindow.setPhase (setTo t2)
                             (AppWindow.setPhase (setTo t1) s3)))).
  { simpl. rewrite Hq3, Hc3. fold now. rewrite Hfire.
    rewrite (fire_all_settle _ _ k _ Hk3). simpl.
    by rewrite settle_two. }
  unfold phaseOf, posOf. rewrite Hk4. simpl. rewrite Hlast.
  split; [done |]. split; [done |].
  rewrite Hq3, Hc3. fold now. rewrite Hkeep. by apply quiet_app.
Qed.

Lemma restore_then_minimize_race_witness :
  phaseOf "a0"
    (run [RestoreClick "a0"; Wait 40; MinimizeClick "a0"; Wait 320]
       (run Examples.minimizedA Examples.desk))
  = Some AppWindow.open
  ∧ phaseOf "a0"
      (run [RestoreClick "a0"; Wait 100; MinimizeClick "a0"; Wait 320]
         (run Examples.minimizedA Examples.desk))
    = Some AppWindow.minimized.
Proof.
  split.
  - apply (restore_then_minimize_race
             (run Examples.minimizedA Examples.desk) "a0"
             (mkView 0 (AppWindow.setPhase AppWindow.minimized
                          (AppWindow.setPhase AppWindow.minimizing
                             (AppWindow.mount None 0 0)))) 40 320);
      [reflexivity | reflexivity | apply Forall_nil_2 | lia | lia].
  - apply (restore_then_minimize_race
             (run Examples.minimizedA Examples.desk) "a0"
             (mkView 0 (AppWindow.setPhase AppWindow.minimized
                          (AppWindow.setPhase AppWindow.minimizing
                             (AppWindow.mount None 0 0)))) 100 320);
      [reflexivity | reflexivity | apply Forall_nil_2 | lia | lia].
Defined.

End TimerRace.

(** * Reloading the page; the minimized window *)

Section Reload.

Implicit Types (s : Shell.state) (st : LocalStorage.t) (u : ShellUi.state).

Lemma storedApps_apply o s :
  Shell.storedApps s = Shell.apps s →
  Shell.storedApps (Shell.apply o s) = Shell.apps (Shell.apply o s).
Proof.
  intros Hs. destruct o as [now a|k|k|appId|l|settings]; simpl; try done.
  unfold Shell.launchApp.
  destruct (Settings.openInIframe (Shell.localSettings s)); [| done].
  by destruct (List.find (Shell.shows a) (Shell.openWindows s)).
Qed.

Lemma storedApps_exec ops s :
  Shell.storedApps s = Shell.apps s →
  Shell.storedApps (Shell.exec ops s) = Shell.apps (Shell.exec ops s).
Proof.
  revert s. induction ops as [|o ops IH]; intros s Hs; [done |].
  apply IH. by apply storedApps_apply.
Qed.

Lemma storedApps_intent i u :
  Shell.storedApps (ShellUi.shell u) = Shell.apps (ShellUi.shell u) →
  Shell.storedApps (ShellUi.shell (ShellUi.apply i u))
  = Shell.apps (ShellUi.shell (ShellUi.apply i u)).
Proof.
  intros Hu. destruct i as [o| | | |app| | |app]; simpl; try done.
  - destruct o as [now a|k|k|appId|l|st]; simpl; try done.
    by apply (storedApps_apply (Shell.Launch now a)).
  - by destruct (ShellUi.settingsShown u).
  - unfold ShellUi.minimizeSettings.
    destruct (ShellUi.settingsWin u) as [w|]; [| done].
    by destruct (SettingsWindow.rendersDialog w).
  - by destruct (ShellUi.appModalOpen u).
  - destruct (ShellUi.appModalOpen u); [| done].
    unfold ShellUi.handleSaveApp. by destruct (ShellUi.editingApp u).
Qed.

Lemma storedApps_intents intents u :
  Shell.storedApps (ShellUi.shell u) = Shell.apps (ShellUi.shell u) →
  Shell.storedApps (ShellUi.shell (ShellUi.exec intents u))
  = Shell.apps (ShellUi.shell (ShellUi.exec intents u)).
Proof.
  revert u. induction intents as [|i intents IH]; intros u Hu; [done |].
  apply IH. by apply storedApps_intent.
Qed.

(** Orders below 2^53 come back from local storage as they were saved. *)
Lemma loadApps_saveApps l st :
  Forall exactOrder l →
  LocalStorage.loadApps (LocalStorage.saveApps l st) = l.
Proof.
  intros Hl. unfold LocalStorage.loadApps, LocalStorage.saveApps. simpl.
  assert (Hsame : (λ a, App.with_order a (Double.Number (App.order a))) <$> l
                  = l).
  { induction Hl as [|a l Ha Hl IH]; [done |].
    rewrite fmap_cons, IH. f_equal.
    rewrite (Number_exact _ Ha). by destruct a. }
  rewrite Hsame. rewrite decide_True; [done |].
  eapply Forall_impl; [exact Hl |]. intros a Ha.
  unfold exactOrder, LocalStorage.finiteOrder in *.
  assert (2 ^ 53 ≤ 2 ^ 1024) by (apply Z.pow_le_mono_r; lia). lia.
Qed.

(** X17.  The first start seeds the five default apps with orders 0 to 4,
    saves them and marks the storage; later starts never seed again but
    give back the saved list.  Every change of the app list (adding and
    editing through the form, deleting, reordering) saves the new list,
    so after any intents the saved list is the app list; and a reload
    gives back what was saved when the orders are below 2^53, also when
    all apps were deleted.  ([saveApps] writes [Number(order)], so a
    larger order can come back rounded.) *)
Theorem apps_survive_a_reload (uuid uuid' : nat → string) :
  (∀ st, LocalStorage.seeded st = false →
     let '(l, st') := LocalStorage.initialApps uuid st in
     App.order <$> l = [0; 1; 2; 3; 4]
     ∧ App.id <$> l = [uuid 0%nat; uuid 1%nat; uuid 2%nat; uuid 3%nat;
                       uuid 4%nat]
     ∧ LocalStorage.seeded st' = true
     ∧ LocalStorage.initialApps uuid' st' = (l, st'))
  ∧ (∀ intents loaded settings,
       let s := ShellUi.shell
                  (ShellUi.exec intents
                     (ShellUi.init (Shell.init loaded settings))) in
       Shell.storedApps s = Shell.apps s
       ∧ ∀ st, LocalStorage.seeded st = true →
               Forall (λ a, Z.abs (App.order a) < 2 ^ 53) (Shell.apps s) →
               (LocalStorage.initialApps uuid'
                  (LocalStorage.saveApps (Shell.storedApps s) st)).1
               = Shell.apps s)
  ∧ (∀ st, LocalStorage.seeded st = true →
           (LocalStorage.initialApps uuid' (LocalStorage.saveApps [] st)).1
           = [])
  ∧ (LocalStorage.initialApps uuid' (LocalStorage.mk true None)).1 = [].
Proof.
  split; [| split; [| split; [| done]]].
  - intros st Hst. unfold LocalStorage.initialApps, LocalStorage.hasBeenSeeded.
    rewrite Hst. simpl. split; [done |]. split; [done |]. split; [done |].
    unfold LocalStorage.loadApps. simpl. reflexivity.
  - intros intents loaded settings s.
    assert (Hs : Shell.storedApps s = Shell.apps s)
      by by apply storedApps_intents.
    split; [done |]. intros st Hst Hex.
    unfold LocalStorage.initialApps, LocalStorage.hasBeenSeeded. simpl.
    rewrite Hst. simpl. rewrite Hs. by apply loadApps_saveApps.
  - intros st Hst.
    unfold LocalStorage.initialApps, LocalStorage.hasBeenSeeded. simpl.
    rewrite Hst. simpl. by apply loadApps_saveApps.
Qed.

Lemma apps_survive_a_reload_witness :
  LocalStorage.seeded (LocalStorage.mk false None) = false
  ∧ length (LocalStorage.initialApps (λ i, pretty i)
              (LocalStorage.mk false None)).1 = 5%nat
  ∧ (LocalStorage.initialApps (λ i, pretty i)
       (LocalStorage.initialApps (λ i, pretty i)
          (LocalStorage.mk false None)).2).1
    = (LocalStorage.initialApps (λ i, pretty i)
         (LocalStorage.mk false None)).1
  ∧ Shell.storedApps
      (ShellUi.shell
         (ShellUi.exec
            [ShellUi.AddApp;
             ShellUi.SaveApp
               (App.mk "uuid-d" "D" "https://d.example" "D" "#00f5ff" 3);
             ShellUi.Window (Shell.Delete "a")]
            Examples.panels))
    = [Examples.appB; Examples.appC;
       App.mk "uuid-d" "D" "https://d.example" "D" "#00f5ff" 3].
Proof.
  split; [reflexivity |].
  destruct (apps_survive_a_reload (λ i, pretty i) (λ i, pretty i))
    as (Hfirst & Hsaved & _).
  specialize (Hfirst (LocalStorage.mk false None) eq_refl).
  destruct (LocalStorage.initialApps (λ i : nat, pretty i)
              (LocalStorage.mk false None)) as [l st'] eqn:Hinit.
  destruct Hfirst as (Horder & _ & _ & Hagain). simpl. split; [| split].
  - by rewrite <- (length_fmap App.order), Horder.
  - by rewrite Hagain.
  - destruct (Hsaved
                [ShellUi.AddApp;
                 ShellUi.SaveApp
                   (App.mk "uuid-d" "D" "https://d.example" "D" "#00f5ff" 3);
                 ShellUi.Window (Shell.Delete "a")]
                [Examples.appA; Examples.appB; Examples.appC]
                Settings.DEFAULT_SETTINGS) as [Hstored _].
    exact Hstored.
Defined.

End Reload.

Section MinimizedWindow.

Import Desktop.

Implicit Types (d : Desktop.state) (k : string) (v : View) (e : Event).

Lemma windowIds_launchApp_mono now a s k :
  k ∈ Shell.windowIds s → k ∈ Shell.windowIds (Shell.launchApp now a s).
Proof.
  unfold Shell.launchApp, Shell.windowIds.
  destruct (Settings.openInIframe (Shell.localSettings s)); [| done].
  destruct (List.find (Shell.shows a) (Shell.openWindows s)); simpl.
  - by rewrite windowIds_raise_app.
  - rewrite fmap_app, elem_of_app. by left.
Qed.

Lemma noRestorePending_schedule k i t q :
  key t ≠ k → noRestorePending k i q → noRestorePending k i (schedule t q).
Proof.
  intros Ht Hq. destruct (schedule_split t q) as (q1 & q2 & -> & ->).
  unfold noRestorePending in *. apply Forall_app in Hq as [Hq1 Hq2].
  apply Forall_app. split; [done |]. constructor; [| done].
  by intros [Hkey _].
Qed.

Lemma noRestorePending_filter (P : Timer → Prop) `{∀ t, Decision (P t)} k i q :
  noRestorePending k i q → noRestorePending k i (filter P q).
Proof.
  unfold noRestorePending. rewrite !Forall_forall. intros Hq t Ht.
  apply list_elem_of_filter in Ht as [_ Ht]. by apply Hq.
Qed.

(** Timers that only minimize leave a minimized window as it is. *)
Lemma settle_minimized k i ts s :
  noRestorePending k i ts →
  AppWindow.phase s = AppWindow.minimized →
  settle k i ts s = s.
Proof.
  intros Hts. revert s. induction Hts as [|t ts Ht Hts IH]; intros s Hs;
    [done |].
  unfold settle in *. simpl. case_decide as Htarget; [| by apply IH].
  rewrite (Ht Htarget).
  assert (Hsame : AppWindow.setPhase AppWindow.minimized s = s).
  { destruct s as [p sz ph dr off]. simpl in Hs. by subst ph. }
  rewrite Hsame. by apply IH.
Qed.

(** One event other than a click on its restore button leaves a minimized
    window without a pending restore minimized and without a pending
    restore. *)
Lemma minimized_step e d k v :
  keys_inv d →
  mounted d !! k = Some v →
  AppWindow.phase (win v) = AppWindow.minimized →
  noRestorePending k (inst v) (timers d) →
  e ≠ RestoreClick k →
  ∃ v', mounted (step e d) !! k = Some v'
        ∧ inst v' = inst v
        ∧ AppWindow.phase (win v') = AppWindow.minimized
        ∧ noRestorePending k (inst v') (timers (step e d)).
Proof.
  intros Hkeys Hk Hmin Hq He.
  assert (Hin : k ∈ Shell.windowIds (shell d)).
  { apply (elem_of_list_to_set (C:=gset string)). rewrite <- Hkeys.
    apply elem_of_dom. eauto. }
  assert (Hhidden : dialogShown k d = false).
  { unfold dialogShown, AppWindow.rendersDialog. by rewrite Hk, Hmin. }
  assert (Hother : ∀ k0, dialogShown k0 d = true → k0 ≠ k)
    by (intros k0 H0 ->; congruence).
  destruct e as [a rx ry|k0|k0|k0 cx cy|cx cy| |k0|k0|ms|w h|appId|l|st];
    simpl.
  - exists v. rewrite lookup_reconcile, Hk.
    rewrite decide_True by by apply windowIds_launchApp_mono. done.
  - destruct (dialogShown k0 d) eqn:H0; [| by exists v]. simpl.
    exists v. rewrite lookup_reconcile, Hk. rewrite decide_True; [done |].
    change (OpenWindow.id <$> filter (λ w, OpenWindow.id w ≠ k0)
                                (Shell.openWindows (shell d)))
      with (Shell.windowIds (Shell.closeWindow k0 (shell d))).
    rewrite windowIds_closeWindow, list_elem_of_filter.
    split; [| done]. intros Heq. by apply (Hother k0 H0).
  - destruct (dialogShown k0 d); by exists v.
  - destruct (dialogShown k0 d) eqn:H0; [| by exists v]. simpl.
    exists v. by rewrite lookup_alter_ne by by apply Hother.
  - eexists. rewrite lookup_fmap, Hk. simpl. split; [done |].
    split; [done |]. split; [| done].
    unfold AppWindow.handleMouseMove.
    by destruct (AppWindow.isDragging (win v)).
  - eexists. rewrite lookup_fmap, Hk. simpl. done.
  - destruct (dialogShown k0 d) eqn:H0; [| by exists v].
    exists v. rewrite lookup_click, decide_False by by apply Hother.
    split; [done |]. split; [done |]. split; [done |].
    unfold click. destruct (mounted d !! k0) as [v0|]; [| done]. simpl.
    apply noRestorePending_schedule; [| done]. simpl. by apply Hother.
  - assert (Hne : k0 ≠ k) by congruence.
    destruct (restoreShown k0 d); [| by exists v].
    exists v. rewrite lookup_click, decide_False by done.
    split; [done |]. split; [done |]. split; [done |].
    unfold click. destruct (mounted d !! k0) as [v0|]; [| done]. simpl.
    by apply noRestorePending_schedule.
  - exists v. split; [| split; [done | split; [done |]]].
    + rewrite (fire_all_settle _ _ k v Hk).
      rewrite settle_minimized;
        [by rewrite view_eta | by apply noRestorePending_filter | done].
    + by apply noRestorePending_filter.
  - by exists v.
  - by exists v.
  - by exists v.
  - by exists v.
Qed.

Lemma minimized_run evs d k v :
  keys_inv d →
  mounted d !! k = Some v →
  AppWindow.phase (win v) = AppWindow.minimized →
  noRestorePending k (inst v) (timers d) →
  Forall (λ e, e ≠ RestoreClick k) evs →
  ∃ v', mounted (run evs d) !! k = Some v'
        ∧ inst v' = inst v
        ∧ AppWindow.phase (win v') = AppWindow.minimized
        ∧ noRestorePending k (inst v') (timers (run evs d)).
Proof.
  revert d v. induction evs as [|e evs IH]; intros d v Hkeys Hk Hmin Hq Hevs.
  - by exists v.
  - apply Forall_cons in Hevs as [He Hevs].
    destruct (minimized_step e d k v Hkeys Hk Hmin Hq He)
      as (v1 & Hk1 & Hi1 & Hmin1 & Hq1).
    destruct (IH (step e d) v1) as (v' & Hk' & Hi' & Hmin' & Hq');
      [by apply keys_inv_step | done | done | done | done |].
    exists v'. split; [done |]. split; [congruence | done].
Qed.

(** X18.  A minimized window answers to its restore button only, unless a
    restore is still pending.  On a desktop reached by any events, the
    presses on its close and minimize buttons, on its dialog and on its
    title bar change nothing, because none of them is on screen.  When
    no timer of an earlier restore of the window is pending, the window
    stays minimized, and without such a timer, through every sequence of
    events that has no click on its restore button: launches (of its own
    app too), waits, pointer moves, events of other windows.  A wait sets
    the phase as the window's own timers that are due say, so a pending
    timer of an earlier restore reopens the window without a click.  The
    restore button starts the restore. *)
Theorem minimized_window_only_restores
    evs0 loaded settings width height k v :
  let d := run evs0 (init loaded settings width height) in
  mounted d !! k = Some v →
  AppWindow.phase (win v) = AppWindow.minimized →
  (step (CloseClick k) d = d
   ∧ step (MinimizeClick k) d = d
   ∧ step (WindowMouseDown k) d = d
   ∧ ∀ clientX clientY, step (TitleMouseDown k clientX clientY) d = d)
  ∧ (∀ evs,
       noRestorePending k (inst v) (timers d) →
       Forall (λ e, e ≠ RestoreClick k) evs →
       phaseOf k (run evs d) = Some AppWindow.minimized
       ∧ noRestorePending k (inst v) (timers (run evs d)))
  ∧ (∀ ms,
       phaseOf k (step (Wait ms) d)
       = Some (AppWindow.phase
                 (settle k (inst v)
                    (filter (isDue (clock d + Z.max 0 ms)) (timers d))
                    (win v))))
  ∧ (∀ t ms,
       filter (λ u, targets k (inst v) u ∧ isDue (clock d + Z.max 0 ms) u)
         (timers d) = [t] →
       setTo t = AppWindow.open →
       phaseOf k (step (Wait ms) d) = Some AppWindow.open)
  ∧ (∀ a rx ry,
       Settings.openInIframe (Shell.localSettings (shell d)) = true →
       App.id a ∈ Shell.appIds (shell d) →
       Shell.topZ (shell (step (Launch a rx ry) d))
       = Shell.topZ (shell d) + 1)
  ∧ phaseOf k (step (RestoreClick k) d) = Some AppWindow.restoring.
Proof.
  intros d Hk Hmin.
  assert (Hinv : inv d) by apply inv_run, inv_init.
  destruct Hinv as [_ Hkeys].
  assert (Hhidden : dialogShown k d = false).
  { unfold dialogShown, AppWindow.rendersDialog. by rewrite Hk, Hmin. }
  assert (Hrestore : restoreShown k d = true).
  { unfold restoreShown, AppWindow.rendersDialog. by rewrite Hk, Hmin. }
  assert (Hwait : ∀ ms,
    phaseOf k (step (Wait ms) d)
    = Some (AppWindow.phase
              (settle k (inst v)
                 (filter (isDue (clock d + Z.max 0 ms)) (timers d))
                 (win v)))).
  { intros ms. unfold phaseOf. simpl.
    by rewrite (fire_all_settle _ _ k v Hk). }
  split; [| split; [| split; [| split; [| split]]]].
  - simpl. rewrite Hhidden. done.
  - intros evs Hq Hevs.
    destruct (minimized_run evs d k v Hkeys Hk Hmin Hq Hevs)
      as (v' & Hk' & Hi' & Hmin' & Hq').
    unfold phaseOf. rewrite Hk'. simpl. rewrite Hmin'.
    split; [done | by rewrite <- Hi'].
  - done.
  - intros t ms Hone Hopen. rewrite Hwait. f_equal.
    rewrite (settle_filter k (inst v)), list_filter_filter, Hone.
    unfold settle. simpl. case_decide; [by rewrite Hopen |].
    exfalso. assert (Ht : t ∈ [t]) by apply list_elem_of_here.
    rewrite <- Hone in Ht. apply list_elem_of_filter in Ht as [[Ht _] _].
    done.
  - intros a rx ry Hframe Hin. simpl.
    by rewrite (launchApp_existing _ _ _ Hframe Hin).
  - simpl. rewrite Hrestore. apply phaseOf_click; [done | eauto].
Qed.

Lemma minimized_window_only_restores_witness :
  step (CloseClick "a0") (run Examples.minimizedA Examples.desk)
  = run Examples.minimizedA Examples.desk
  ∧ phaseOf "a0"
      (run [CloseClick "a0"; Launch Examples.appA 0 0; Wait 5000;
            TitleMouseDown "a0" (Double.int 3) (Double.int 4);
            MouseMove (Double.int 5) (Double.int 6);
            Launch Examples.appB 0 0; MinimizeClick "b5260"]
         (run Examples.minimizedA Examples.desk))
    = Some AppWindow.minimized.
Proof.
  destruct (minimized_window_only_restores Examples.minimizedA
              [Examples.appA; Examples.appB; Examples.appC]
              Settings.DEFAULT_SETTINGS (Double.int 1280) (Double.int 720)
              "a0"
              (mkView 0 (AppWindow.setPhase AppWindow.minimized
                           (AppWindow.setPhase AppWindow.minimizing
                              (AppWindow.mount None 0 0))))
              eq_refl eq_refl) as ((Hclose & _) & Hstays & _).
  split; [exact Hclose |].
  apply Hstays; [apply Forall_nil_2 |]. repeat constructor; done.
Defined.

End MinimizedWindow.
